(** * The recommendation engine of the life-insurance service

    A shallow embedding of [backend/src/services/recommendationService.ts].
    JavaScript numbers are IEEE-754 binary64 values; they are modelled with
    the kernel's executable specification of floating-point arithmetic
    ([SpecFloat], round-to-nearest-even), so every arithmetic step of the
    service is the step the runtime performs. *)

From Stdlib Require Import ZArith Lia Bool List String Ascii DecimalString.
From Stdlib Require Import Floats.SpecFloat.
Import ListNotations.

Local Open Scope Z_scope.

(** ** JavaScript numbers *)

Module Num.

Definition prec : Z := 53.
Definition emax : Z := 1024.

Definition number : Type := spec_float.

Definition NaN : number := S754_nan.

(** The Number nearest to an integer (numeric literals such as [10000]). *)
Definition ofZ (z : Z) : number := binary_normalize prec emax z 0 false.

Definition mul (x y : number) : number := SFmul prec emax x y.
Definition add (x y : number) : number := SFadd prec emax x y.
Definition sub (x y : number) : number := SFsub prec emax x y.
Definition div (x y : number) : number := SFdiv prec emax x y.

(** A decimal literal [n / d] with [d] a power of ten, such as [1.2 = 12/10]:
    the Number nearest to the rational, which is what correctly rounded
    division of the two exactly representable integers yields. *)
Definition decimal (n d : Z) : number := div (ofZ n) (ofZ d).

(** [<], [>], [<=] and [===] on Numbers; every comparison with NaN is false. *)
Definition ltb (x y : number) : bool := SFltb x y.
Definition gtb (x y : number) : bool := SFltb y x.
Definition leb (x y : number) : bool := SFleb x y.
Definition eqb (x y : number) : bool := SFeqb x y.

Definition is_nan (x : number) : bool :=
  match x with S754_nan => true | _ => false end.

Definition is_neg_zero (x : number) : bool :=
  match x with S754_zero true => true | _ => false end.

(** [Math.max] and [Math.min] of two arguments (ECMA-262, 21.3.2.24/25):
    NaN if either argument is NaN, and [+0] counts as larger than [-0]. *)
Definition Math_max (x y : number) : number :=
  if is_nan x || is_nan y then NaN
  else match SFcompare x y with
       | Some Lt => y
       | Some Gt => x
       | _ => if is_neg_zero x then y else x
       end.

Definition Math_min (x y : number) : number :=
  if is_nan x || is_nan y then NaN
  else match SFcompare x y with
       | Some Lt => x
       | Some Gt => y
       | _ => if is_neg_zero y then y else x
       end.

(** [Math.round] (ECMA-262, 21.3.2.28): a Number that is not finite or is
    integral is returned as it is; otherwise the integral Number closest to
    it, the larger one in a tie, which is [floor (x + 1/2)]; a result of zero
    keeps the sign of the argument. *)
Definition Math_round (x : number) : number :=
  match x with
  | S754_finite s m e =>
      if 0 <=? e then x
      else if Zpos m mod 2 ^ (- e) =? 0 then x
      else
        let q := (2 * cond_Zopp s (Zpos m) + 2 ^ (- e)) / 2 ^ (1 - e) in
        match q with
        | Z0 => S754_zero s
        | _ => ofZ q
        end
  | _ => x
  end.

(** The last step of rounding, as [binary_round_aux] performs it on the
    rounded mantissa [m2] at exponent [e1]: renormalise, then check the
    exponent range. *)
Definition finish_round (sx : bool) (m2 e1 : Z) : number :=
  let n2 := Z.max 0 (fexp prec emax (Zdigits2 m2 + e1) - e1) in
  match m2 / 2 ^ n2 with
  | Z0 => S754_zero sx
  | Zpos m =>
      if e1 + n2 <=? emax - prec then S754_finite sx m (e1 + n2)
      else S754_infinity sx
  | Zneg _ => S754_nan
  end.

(** The integer a finite integral Number denotes. *)
Definition toZ (x : number) : option Z :=
  match x with
  | S754_zero _ => Some 0
  | S754_finite s m e =>
      if 0 <=? e then Some (cond_Zopp s (Zpos m * 2 ^ e))
      else if Zpos m mod 2 ^ (- e) =? 0
           then Some (cond_Zopp s (Zpos m / 2 ^ (- e)))
           else None
  | _ => None
  end.

(** Zero, positive and finite, or [+Infinity]: not NaN and not negative. *)
Definition nonneg (x : number) : bool :=
  match x with
  | S754_zero _ | S754_finite false _ _ | S754_infinity false => true
  | _ => false
  end.

(** Positive and finite. *)
Definition pos_finite (x : number) : bool :=
  match x with
  | S754_finite false _ _ => true
  | _ => false
  end.

(** The mantissa [m] at exponent [e] denotes the integer [V]: [m * 2^e = V]. *)
Definition denotes (m e V : Z) : Prop :=
  (0 <= e /\ V = m * 2 ^ e) \/ (e < 0 /\ m = V * 2 ^ (- e)).

(** A Number as the runtime stores it: a canonical binary64 value. *)
Definition is_number (x : number) : bool := valid_binary prec emax x.

(** [Number.isInteger]. *)
Definition is_integer (x : number) : bool :=
  is_number x && match toZ x with Some _ => true | None => false end.

End Num.

Import Num.

(** ** Data model ([UserProfile], [Recommendation], [RecommendationResponse]) *)

Inductive RiskTolerance : Type := low | medium | high.

Record UserProfile : Type := {
  age : number;
  income : number;
  dependents : number;
  riskTolerance : RiskTolerance
}.

Record Recommendation : Type := {
  type : string;
  coverage : number;
  term : number;
  monthlyPremium : number
}.

Record Factors : Type := {
  incomeMultiplier : number;
  dependentsFactor : number;
  riskAdjustment : number
}.

Record RecommendationResponse : Type := {
  recommendation : Recommendation;
  explanation : string;
  factors : Factors
}.

Record PremiumFactors : Type := {
  basePremiumRate : number;
  ageFactor : number;
  termFactor : number;
  typeFactor : number;
  healthFactor : number
}.

(** ** The logger: the only effect of the service

    [logger.info] appends an entry to the log; the service is written in a
    small state monad over the log, so that what a call returns can be
    compared across different log states. *)

Module Logger.

Inductive LogMeta : Type :=
  | NoMeta
  | ProfileMeta (p : UserProfile)
  | RecommendationMeta (r : Recommendation).

Record LogEntry : Type := {
  level : string;
  message : string;
  meta : LogMeta
}.

Definition Log : Type := list LogEntry.

Definition Eff (A : Type) : Type := Log -> A * Log.

Definition ret {A : Type} (a : A) : Eff A := fun l => (a, l).

Definition bind {A B : Type} (c : Eff A) (k : A -> Eff B) : Eff B :=
  fun l => let (a, l') := c l in k a l'.

Definition info (msg : string) (m : LogMeta) : Eff unit :=
  fun l => (tt, l ++ [{| level := "info"%string; message := msg; meta := m |}]).

Definition result {A : Type} (c : Eff A) (l : Log) : A := fst (c l).

End Logger.

Import Logger.

Notation "x <- c ;; k" := (bind c (fun x => k))
  (at level 61, c at next level, right associativity).
Notation "c ;;; k" := (bind c (fun _ => k))
  (at level 61, right associativity).

(** A settled promise, as [await] observes it. *)
Inductive Promise (A : Type) : Type :=
  | Fulfilled (a : A)
  | Rejected (reason : string).
Arguments Fulfilled {A} a.
Arguments Rejected {A} reason.

(** [Array.prototype.push] and [Array.prototype.join] on an array of strings. *)
Definition push (xs : list string) (x : string) : list string := xs ++ [x].
Definition join (sep : string) (xs : list string) : string := String.concat sep xs.

Local Open Scope string_scope.

(** ** The service *)

Section RecommendationService.

(** What the host runtime provides and ECMA-262 leaves to the implementation
    or to the locale: the approximation behind [Math.pow], and the
    Number-to-text conversions [Number::toString] (template literals),
    [Number.prototype.toLocaleString] and [Number.prototype.toFixed]. *)
Variable host_pow : number -> number -> number.
Variable Number_toString : number -> string.
Variable toLocaleString : number -> string.
Variable toFixed : number -> number -> string.

(** [Math.pow] (ECMA-262, Number::exponentiate): NaN for a NaN exponent, 1
    for a zero exponent whatever the base; every other case, down to the
    implementation-approximated power, is the host's. *)
Definition Math_pow (base exponent : number) : number :=
  match exponent with
  | S754_nan => NaN
  | S754_zero _ => ofZ 1
  | _ => host_pow base exponent
  end.

Record BaseMultipliers : Type := {
  young : number;
  midAge : number;
  mature : number;
  senior : number
}.

Definition BASE_MULTIPLIERS : BaseMultipliers :=
  {| young := ofZ 15; midAge := ofZ 12; mature := ofZ 10; senior := ofZ 8 |}.

Definition RISK_ADJUSTMENTS (r : RiskTolerance) : number :=
  match r with
  | low => decimal 12 10
  | medium => decimal 10 10
  | high => decimal 8 10
  end.

Definition DEPENDENT_MULTIPLIER : number := decimal 25 100.
Definition MIN_COVERAGE : number := ofZ 100000.
Definition INCOME_CAP_MULTIPLIER : number := ofZ 30.

Definition getIncomeMultiplier (age : number) : number :=
  if ltb age (ofZ 30) then young BASE_MULTIPLIERS
  else if ltb age (ofZ 40) then midAge BASE_MULTIPLIERS
  else if ltb age (ofZ 50) then mature BASE_MULTIPLIERS
  else senior BASE_MULTIPLIERS.

Definition calculateCoverage
    (income incomeMultiplier dependentsFactor riskAdjustment : number) : number :=
  let coverage := mul (mul (mul income incomeMultiplier) dependentsFactor) riskAdjustment in
  let coverage := mul (Math_round (div coverage (ofZ 10000))) (ofZ 10000) in
  let coverage := Math_max coverage MIN_COVERAGE in
  let maxCoverage := mul income INCOME_CAP_MULTIPLIER in
  let coverage := Math_min coverage maxCoverage in
  coverage.

Definition determineTerm (age : number) : number :=
  if ltb age (ofZ 35) then ofZ 30
  else if ltb age (ofZ 45) then ofZ 20
  else if ltb age (ofZ 55) then ofZ 15
  else ofZ 10.

Definition determineInsuranceType (profile : UserProfile) : string :=
  if match riskTolerance profile with low => true | _ => false end
     && gtb (income profile) (ofZ 150000)
  then "Whole Life"
  else if match riskTolerance profile with medium => true | _ => false end
          && gtb (income profile) (ofZ 200000)
          && ltb (age profile) (ofZ 50)
  then "Universal Life"
  else "Term Life".

Definition getPremiumFactors (age term : number) (type : string) : PremiumFactors :=
  let basePremiumRate := decimal 5 10 in
  let ageFactor := Math_pow (decimal 1045 1000) (sub age (ofZ 25)) in
  let termFactor :=
    if eqb term (ofZ 10) then decimal 12 10
    else if eqb term (ofZ 15) then decimal 11 10
    else if eqb term (ofZ 20) then decimal 10 10
    else if eqb term (ofZ 30) then decimal 9 10
    else decimal 10 10 in
  let typeFactor :=
    if String.eqb type "Term Life" then decimal 10 10
    else if String.eqb type "Whole Life" then decimal 35 10
    else if String.eqb type "Universal Life" then decimal 25 10
    else decimal 10 10 in
  let healthFactor := decimal 10 10 in
  {| basePremiumRate := basePremiumRate;
     ageFactor := ageFactor;
     termFactor := termFactor;
     typeFactor := typeFactor;
     healthFactor := healthFactor |}.

Definition calculatePremium
    (age coverage term : number) (type : string) (riskTolerance : RiskTolerance) : number :=
  let factors := getPremiumFactors age term type in
  let coverageUnits := div coverage (ofZ 1000) in
  let monthlyPremium := mul coverageUnits (basePremiumRate factors) in
  let monthlyPremium := mul monthlyPremium (ageFactor factors) in
  let monthlyPremium := mul monthlyPremium (termFactor factors) in
  let monthlyPremium := mul monthlyPremium (typeFactor factors) in
  let monthlyPremium := mul monthlyPremium (healthFactor factors) in
  let monthlyPremium :=
    match riskTolerance with
    | high => mul monthlyPremium (decimal 95 100)
    | low => mul monthlyPremium (decimal 105 100)
    | medium => monthlyPremium
    end in
  Math_round monthlyPremium.

Definition generateExplanation
    (profile : UserProfile) (coverage term : number) (type : string)
    (factors : Factors) : string :=
  let explanations : list string := [] in
  let explanations :=
    if ltb (age profile) (ofZ 35) then
      push explanations
      ("At " ++ Number_toString (age profile) ++
       " years old, you're in a prime age for securing affordable life insurance. " ++
       "We recommend a " ++ Number_toString term ++
       "-year term to provide coverage through your key earning years.")
    else if ltb (age profile) (ofZ 50) then
      push explanations
      ("At " ++ Number_toString (age profile) ++
       " years old, life insurance is crucial for protecting your family's financial future. " ++
       "A " ++ Number_toString term ++
       "-year term aligns well with your remaining working years.")
    else
      push explanations
      ("At " ++ Number_toString (age profile) ++ " years old, a " ++
       Number_toString term ++ "-year term provides essential coverage " ++
       "while keeping premiums manageable as you approach retirement.") in
  let explanations :=
    push explanations
    ("Based on your annual income of $" ++ toLocaleString (income profile) ++ ", " ++
     "we applied a " ++ Number_toString (incomeMultiplier factors) ++
     "x multiplier. This ensures your loved ones " ++
     "can maintain their current lifestyle and meet long-term financial obligations.") in
  let explanations :=
    if gtb (dependents profile) (ofZ 0) then
      let dependentText :=
        if eqb (dependents profile) (ofZ 1) then "dependent" else "dependents" in
      push explanations
      ("With " ++ Number_toString (dependents profile) ++ " " ++ dependentText ++
       ", we've increased your coverage by " ++
       toFixed (mul (sub (dependentsFactor factors) (ofZ 1)) (ofZ 100)) (ofZ 0) ++
       "% to account for education costs, " ++
       "childcare, and other family expenses.")
    else
      push explanations
      ("While you have no dependents, life insurance can still cover final expenses, " ++
       "outstanding debts, and provide for any future family plans.") in
  let riskExplanations (r : RiskTolerance) : string :=
    match r with
    | low =>
        "Your conservative risk preference indicates a focus on maximum protection. " ++
        "We've adjusted your coverage upward to provide additional security."
    | medium =>
        "Your balanced risk tolerance allows for a standard coverage approach " ++
        "that provides solid protection without over-insuring."
    | high =>
        "Your higher risk tolerance suggests you may have other investments in place. " ++
        "We've recommended efficient coverage that complements your overall financial strategy."
    end in
  let explanations := push explanations (riskExplanations (riskTolerance profile)) in
  let explanations :=
    if String.eqb type "Whole Life" then
      push explanations
      ("Given your income level and conservative approach, whole life insurance provides " ++
       "permanent coverage with a cash value component that grows tax-deferred over time.")
    else if String.eqb type "Universal Life" then
      push explanations
      ("Universal life insurance offers flexibility in premiums and death benefits, " ++
       "along with a cash value component that can supplement your retirement planning.")
    else
      push explanations
      ("Term life insurance provides the most affordable way to secure maximum coverage " ++
       "during your working years when your family needs it most.") in
  let explanations :=
    push explanations
    ("The recommended coverage of $" ++ toLocaleString coverage ++
     " represents a careful balance " ++
     "of your income replacement needs, family obligations, and premium affordability.") in
  join " " explanations.

Definition calculateRecommendation (profile : UserProfile) : Eff RecommendationResponse :=
  info "Calculating recommendation for profile" (ProfileMeta profile) ;;;
  let incomeMultiplier := getIncomeMultiplier (age profile) in
  let dependentsFactor := add (ofZ 1) (mul (dependents profile) DEPENDENT_MULTIPLIER) in
  let riskAdjustment := RISK_ADJUSTMENTS (riskTolerance profile) in
  let coverage :=
    calculateCoverage (income profile) incomeMultiplier dependentsFactor riskAdjustment in
  let term := determineTerm (age profile) in
  let insuranceType := determineInsuranceType profile in
  let monthlyPremium :=
    calculatePremium (age profile) coverage term insuranceType (riskTolerance profile) in
  let explanation :=
    generateExplanation profile coverage term insuranceType
      {| incomeMultiplier := incomeMultiplier;
         dependentsFactor := dependentsFactor;
         riskAdjustment := riskAdjustment |} in
  info "Recommendation calculated"
    (RecommendationMeta
       {| type := insuranceType; coverage := coverage; term := term;
          monthlyPremium := monthlyPremium |}) ;;;
  ret {| recommendation :=
           {| type := insuranceType; coverage := coverage; term := term;
              monthlyPremium := monthlyPremium |};
         explanation := explanation;
         factors :=
           {| incomeMultiplier := incomeMultiplier;
              dependentsFactor := dependentsFactor;
              riskAdjustment := riskAdjustment |} |}.

Definition getMLRecommendation (profile : UserProfile)
  : Eff (Promise RecommendationResponse) :=
  info "ML recommendation requested - falling back to rules-based system" NoMeta ;;;
  r <- calculateRecommendation profile ;;
  ret (Fulfilled r).

Definition adjustForHealthFactors {HealthData : Type}
    (recommendation : RecommendationResponse) (healthData : HealthData)
  : RecommendationResponse :=
  recommendation.

End RecommendationService.

Local Close Scope string_scope.

(** ** Comparing options ([compareOptions])

    Each alternative is the response spread into an object with a label and
    a priority. *)

Module Alternative.

Record t : Type := {
  recommendation : Recommendation;
  explanation : string;
  factors : Factors;
  label : string;
  priority : number
}.

End Alternative.

Section CompareOptions.

Variable host_pow : number -> number -> number.
Variable Number_toString : number -> string.
Variable toLocaleString : number -> string.
Variable toFixed : number -> number -> string.

(** [{ ...profile, riskTolerance: r }]. *)
Definition with_riskTolerance (profile : UserProfile) (r : RiskTolerance) : UserProfile :=
  {| age := age profile;
     income := income profile;
     dependents := dependents profile;
     riskTolerance := r |}.

(** [{ ...response, label, priority }]. *)
Definition labelled (response : RecommendationResponse) (label : string) (priority : number)
  : Alternative.t :=
  {| Alternative.recommendation := recommendation response;
     Alternative.explanation := explanation response;
     Alternative.factors := factors response;
     Alternative.label := label;
     Alternative.priority := priority |}.

Definition compareOptions (profile : UserProfile) : Eff (list Alternative.t) :=
  baseRecommendation <-
    calculateRecommendation host_pow Number_toString toLocaleString toFixed profile ;;
  maximum <-
    calculateRecommendation host_pow Number_toString toLocaleString toFixed
      (with_riskTolerance profile low) ;;
  budget <-
    calculateRecommendation host_pow Number_toString toLocaleString toFixed
      (with_riskTolerance profile high) ;;
  let alternatives :=
    [ labelled baseRecommendation "Recommended"%string (ofZ 1);
      labelled maximum "Maximum Protection"%string (ofZ 2);
      labelled budget "Budget-Friendly"%string (ofZ 3) ] in
  ret alternatives.

End CompareOptions.

(** Whole Numbers: a zero, [+Infinity], or a positive finite Number that
    denotes an integer. *)
Definition whole (x : number) : Prop :=
  (exists s, x = S754_zero s)
  \/ x = S754_infinity false
  \/ exists m e V, x = S754_finite false m e /\ denotes (Zpos m) e V.

(** ** The order of magnitudes

    [ord] places a non-negative Number on the integer line in units of
    [2^-1074], the smallest positive Number; [+Infinity] is placed at
    [2^2098], above every finite Number. *)
Definition ord (x : number) : Z :=
  match x with
  | S754_zero _ => 0
  | S754_finite false m e => Zpos m * 2 ^ (e + 1074)
  | S754_infinity false => 2 ^ 2098
  | _ => -1
  end.

(** Non-negative and stored canonically: what every arithmetic step of the
    service yields from such arguments. *)
Definition proper (x : number) : bool := nonneg x && is_number x.

(** The location of a remainder [r] between two multiples of [B]. *)
Definition loc_of (r B : Z) : location :=
  if r =? 0 then loc_Exact else loc_Inexact (2 * r ?= B).

(** The integer nearest to the rational [A / B], ties to even. *)
Definition rne (A B : Z) : Z := round_nearest_even (A / B) (loc_of (A mod B) B).

(** What a right shift of the mantissa keeps: the record stands for the
    quotient [A / B], with the location of the remainder. *)
Definition rep (A B : Z) (r : shr_record) : Prop :=
  shr_m r = A / B /\ loc_of_shr_record r = loc_of (A mod B) B.

(** Rounding to binary64 of the rational [P / Q] counted in units of
    [2^-1074]: at most 53 significant bits are kept, and what reaches
    [2^2098] is [+Infinity]. *)
Definition round53 (P Q : Z) : Z :=
  let k := Z.max (Zdigits2 (P / Q) - 53) 0 in
  Z.min (rne P (Q * 2 ^ k) * 2 ^ k) (2 ^ 2098).

(** [Math.round] on magnitudes in units of [2^-1074]. *)
Definition round_half_up (o : Z) : Z := (2 * o + 2 ^ 1074) / 2 ^ 1075 * 2 ^ 1074.

(** Zero, negative and finite, or [-Infinity]: not NaN and not positive. *)
Definition nonpos (x : number) : bool :=
  match x with
  | S754_zero _ | S754_finite true _ _ | S754_infinity true => true
  | _ => false
  end.

(** Negative: finite or [-Infinity]. *)
Definition negative (x : number) : bool :=
  match x with
  | S754_finite true _ _ | S754_infinity true => true
  | _ => false
  end.

(** ** Valid profiles

    The domain the service is specified on: [age] an integer in [18, 100],
    [income] and [dependents] non-negative integers. *)
Definition valid_profile (p : UserProfile) : bool :=
  is_integer (age p) && leb (ofZ 18) (age p) && leb (age p) (ofZ 100)
  && is_integer (income p) && leb (ofZ 0) (income p)
  && is_integer (dependents p) && leb (ofZ 0) (dependents p).

(** ** The specification's wording of the stages, for comparison *)

(** Stage 4 as the specification writes it: snap, then floor, then cap. *)
Definition spec_coverage (income incomeMultiplier dependentsFactor riskAdjustment : number)
  : number :=
  let raw := mul (mul (mul income incomeMultiplier) dependentsFactor) riskAdjustment in
  Math_min (Math_max (mul (Math_round (div raw (ofZ 10000))) (ofZ 10000)) (ofZ 100000))
           (mul income (ofZ 30)).

(** Stage 2 as the specification writes it: a quarter more for each
    dependent. *)
Definition spec_dependents_factor (dependents : number) : number :=
  add (ofZ 1) (mul dependents (decimal 25 100)).

(** Stage 3 as the specification writes it: low 1.2, medium 1.0, high 0.8. *)
Definition spec_risk_adjustment (r : RiskTolerance) : number :=
  match r with
  | low => decimal 12 10
  | medium => decimal 10 10
  | high => decimal 8 10
  end.

(** The age-band tables of stages 1 and 5, over integer ages. *)
Definition spec_multiplier (a : Z) : Z :=
  if a <? 30 then 15 else if a <? 40 then 12 else if a <? 50 then 10 else 8.

Definition spec_term (a : Z) : Z :=
  if a <? 35 then 30 else if a <? 45 then 20 else if a <? 55 then 15 else 10.

(** The integer ages of the valid domain, 18 to 100. *)
Definition ages : list Z := map Z.of_nat (seq 18 83).

(** ** A reference host

    A host instance for the closed examples. Its power function is the
    correctly rounded integer power of a positive Number; its text
    conversions print integral Numbers in decimal, [toLocaleString] with
    groups of three digits. *)

Definition pow_int (b : number) (n : Z) : number :=
  match b with
  | S754_finite false m e =>
      match n with
      | Z0 => ofZ 1
      | Zpos k => binary_normalize prec emax (Zpos (m ^ k)) (e * n) false
      | Zneg k => div (S754_finite false 1 0) (S754_finite false (m ^ k) (e * Zpos k))
      end
  | _ => NaN
  end.

Definition ref_pow (b e : number) : number :=
  match toZ e with
  | Some n => pow_int b n
  | None => NaN
  end.

(** The Numbers within one unit in the last place of [x]. *)
Definition neighbours (x : number) : list number :=
  [SFpred prec emax x; x; SFsucc prec emax x].

(** A host power is accurate at base [b] and integer exponent [n] when it
    returns a Number next to the correctly rounded power. *)
Definition pow_accurate (pow : number -> number -> number) (b : number) (n : Z) : Prop :=
  In (pow b (ofZ n)) (neighbours (pow_int b n)).

Definition show_Z (z : Z) : string :=
  DecimalString.NilZero.string_of_int (Z.to_int z).

Fixpoint group3 (digits : list ascii) : list ascii :=
  match digits with
  | a :: b :: c :: ((_ :: _) as rest) => a :: b :: c :: ","%char :: group3 rest
  | _ => digits
  end.

Definition show_grouped (z : Z) : string :=
  let body := string_of_list_ascii
                (rev (group3 (rev (list_ascii_of_string (show_Z (Z.abs z)))))) in
  if z <? 0 then ("-" ++ body)%string else body.

Definition ref_toString (x : number) : string :=
  match toZ x with
  | Some z => show_Z z
  | None => "NaN"%string
  end.

Definition ref_toLocaleString (x : number) : string :=
  match toZ x with
  | Some z => show_grouped z
  | None => "NaN"%string
  end.

Definition ref_toFixed (x digits : number) : string :=
  ref_toString (Math_round x).



Definition ref_run (p : UserProfile) : RecommendationResponse :=
  result (calculateRecommendation ref_pow ref_toString ref_toLocaleString ref_toFixed p) [].

(** ** Sample profiles *)

Definition profile (a i d : Z) (r : RiskTolerance) : UserProfile :=
  {| age := ofZ a; income := ofZ i; dependents := ofZ d; riskTolerance := r |}.

(** * Facts about Numbers *)

(** ** The order on Numbers *)

Section NumberOrder.

Lemma SFcompare_refl (x : number) :
  is_nan x = false -> SFcompare x x = Some Eq.
Proof.
  destruct x as [s|s| |s m e]; simpl; try discriminate; intros _.
  - reflexivity.
  - destruct s; reflexivity.
  - destruct s; rewrite Z.compare_refl;
      change (Pos.compare_cont Eq m m) with (Pos.compare m m);
      rewrite Pos.compare_refl; reflexivity.
Qed.

Lemma SFcompare_swap (x y : number) :
  SFcompare y x = option_map CompOpp (SFcompare x y).
Proof.
  destruct x as [s1|s1| |s1 m1 e1], y as [s2|s2| |s2 m2 e2]; simpl;
    try reflexivity;
    try (destruct s1; reflexivity);
    try (destruct s2; reflexivity);
    try (destruct s1, s2; reflexivity).
  destruct s1, s2; simpl; try reflexivity;
    rewrite (Z.compare_antisym e1 e2);
    change (Pos.compare_cont Eq m2 m1) with (Pos.compare m2 m1);
    change (Pos.compare_cont Eq m1 m2) with (Pos.compare m1 m2);
    rewrite (Pos.compare_antisym m1 m2);
    destruct (e1 ?= e2); simpl; try reflexivity;
    destruct (m1 ?= m2)%positive; reflexivity.
Qed.

Lemma SFcompare_lt_le_trans (x y z : number) :
  SFcompare x y = Some Lt ->
  SFcompare y z = Some Lt \/ SFcompare y z = Some Eq ->
  SFcompare x z = Some Lt.
Proof.
  destruct x as [s1|s1| |s1 m1 e1], y as [s2|s2| |s2 m2 e2], z as [s3|s3| |s3 m3 e3];
    simpl; intros H1 [H2|H2];
    try discriminate;
    try (destruct s1; discriminate);
    try (destruct s2; discriminate);
    try (destruct s3; discriminate);
    try (destruct s1, s2; discriminate);
    try (destruct s2, s3; discriminate);
    try (destruct s1, s3; discriminate);
    try (destruct s1, s2, s3; discriminate);
    try reflexivity;
    try (destruct s1, s2, s3; simpl in *; try discriminate; try reflexivity;
         change (Pos.compare_cont Eq m1 m2) with (Pos.compare m1 m2) in *;
         change (Pos.compare_cont Eq m2 m3) with (Pos.compare m2 m3) in *;
         change (Pos.compare_cont Eq m1 m3) with (Pos.compare m1 m3) in *;
         destruct (Z.compare_spec e1 e2); try discriminate;
         destruct (Z.compare_spec e2 e3); try discriminate;
         destruct (Z.compare_spec e1 e3); try lia; try reflexivity;
         destruct (Pos.compare_spec m1 m2); simpl in *; try discriminate;
         destruct (Pos.compare_spec m2 m3); simpl in *; try discriminate;
         destruct (Pos.compare_spec m1 m3); simpl in *; try lia; try reflexivity;
         fail).
Qed.

End NumberOrder.

(** ** Binary digits and right shifts *)

Section Digits.

Lemma digits2_pos_size (p : positive) : digits2_pos p = Pos.size p.
Proof. induction p; simpl; congruence. Qed.

Lemma Zdigits2_log2 (m : Z) : 0 < m -> Zdigits2 m = Z.log2 m + 1.
Proof.
  destruct m as [|p|p]; try lia; intros _; simpl.
  rewrite digits2_pos_size.
  destruct p; simpl; lia.
Qed.

Lemma Zdigits2_bounds (m : Z) :
  0 < m -> 2 ^ (Zdigits2 m - 1) <= m < 2 ^ Zdigits2 m.
Proof.
  intros H. rewrite (Zdigits2_log2 m H).
  replace (Z.log2 m + 1 - 1) with (Z.log2 m) by lia.
  exact (Z.log2_spec m H).
Qed.

Lemma Zdigits2_pos (m : Z) : 0 < m -> 0 < Zdigits2 m.
Proof.
  intros H. rewrite (Zdigits2_log2 m H). pose proof (Z.log2_nonneg m). lia.
Qed.

Lemma Zdigits2_mul_pow2 (m n : Z) :
  0 < m -> 0 <= n -> Zdigits2 (m * 2 ^ n) = Zdigits2 m + n.
Proof.
  intros Hm Hn.
  assert (0 < m * 2 ^ n) by (apply Z.mul_pos_pos; [lia|apply Z.pow_pos_nonneg; lia]).
  rewrite !Zdigits2_log2 by assumption.
  rewrite Z.log2_mul_pow2 by lia. lia.
Qed.

Lemma Zdigits2_div_pow2 (m n : Z) :
  0 < m -> 0 <= n -> 2 ^ n <= m -> Zdigits2 (m / 2 ^ n) = Zdigits2 m - n.
Proof.
  intros Hm Hn Hle.
  assert (Hp : 0 < 2 ^ n) by (apply Z.pow_pos_nonneg; lia).
  assert (0 < m / 2 ^ n) by (apply Z.div_str_pos; lia).
  rewrite !Zdigits2_log2 by assumption.
  rewrite <- Z.shiftr_div_pow2 by lia.
  rewrite Z.log2_shiftr by lia.
  assert (n <= Z.log2 m) by (apply Z.log2_le_pow2; lia).
  lia.
Qed.

Lemma Zdigits2_le (m k : Z) : 0 < m -> m < 2 ^ k -> Zdigits2 m <= k.
Proof.
  intros Hm Hk. pose proof (Zdigits2_bounds m Hm) as [Hl _].
  destruct (Z_le_gt_dec (Zdigits2 m) k) as [|Hgt]; [assumption|exfalso].
  assert (2 ^ k <= 2 ^ (Zdigits2 m - 1)).
  { destruct (Z_lt_le_dec k 0).
    - rewrite (Z.pow_neg_r 2 k) by lia. apply Z.pow_nonneg; lia.
    - apply Z.pow_le_mono_r; lia. }
  lia.
Qed.

Lemma Zdigits2_ge (m k : Z) : 0 <= k -> 2 ^ k <= m -> k < Zdigits2 m.
Proof.
  intros Hk Hle.
  assert (Hp : 0 < 2 ^ k) by (apply Z.pow_pos_nonneg; lia).
  assert (Hm : 0 < m) by lia.
  pose proof (Zdigits2_bounds m Hm) as [_ Hu].
  destruct (Z_lt_le_dec k (Zdigits2 m)) as [|Hge]; [assumption|exfalso].
  assert (2 ^ Zdigits2 m <= 2 ^ k) by (apply Z.pow_le_mono_r; lia).
  lia.
Qed.

Lemma Zdigits2_mono (a b : Z) : 0 < a -> a <= b -> Zdigits2 a <= Zdigits2 b.
Proof.
  intros Ha Hab. rewrite !Zdigits2_log2 by lia.
  pose proof (Z.log2_le_mono a b Hab). lia.
Qed.

End Digits.

Section Shifts.

Lemma pow2_xI (n : positive) : 2 ^ Zpos n~1 = 2 * (2 ^ Zpos n * 2 ^ Zpos n).
Proof.
  rewrite (Pos2Z.inj_xI n).
  rewrite (Z.pow_add_r 2 (2 * Zpos n) 1) by lia.
  rewrite (Z.mul_comm 2 (Zpos n)), (Z.pow_mul_r 2 (Zpos n) 2) by lia.
  rewrite Z.pow_2_r, Z.pow_1_r. lia.
Qed.

Lemma pow2_xO (n : positive) : 2 ^ Zpos n~0 = 2 ^ Zpos n * 2 ^ Zpos n.
Proof.
  rewrite (Pos2Z.inj_xO n).
  rewrite (Z.mul_comm 2 (Zpos n)), (Z.pow_mul_r 2 (Zpos n) 2) by lia.
  rewrite Z.pow_2_r. lia.
Qed.

Lemma shr_1_m (r : shr_record) : 0 <= shr_m r -> shr_m (shr_1 r) = shr_m r / 2.
Proof.
  destruct r as [m r s]; simpl.
  destruct m as [|p|p]; try lia; intros _.
  - reflexivity.
  - destruct p as [p|p|]; simpl.
    + rewrite Pos2Z.inj_xI. apply (Z.div_unique _ 2 _ 1); lia.
    + rewrite Pos2Z.inj_xO. apply (Z.div_unique _ 2 _ 0); lia.
    + reflexivity.
Qed.

Lemma iter_pos_shr_m (n : positive) :
  forall r : shr_record, 0 <= shr_m r ->
    shr_m (iter_pos shr_1 n r) = shr_m r / 2 ^ Zpos n.
Proof.
  assert (Hnn : forall k, 0 < 2 ^ Zpos k) by (intros; apply Z.pow_pos_nonneg; lia).
  induction n as [n IH|n IH|]; intros r Hr; cbn [iter_pos].
  - assert (H1 : 0 <= shr_m (shr_1 r)).
    { rewrite shr_1_m by assumption. apply Z.div_pos; lia. }
    assert (H2 : 0 <= shr_m (iter_pos shr_1 n (shr_1 r))).
    { rewrite IH by assumption. apply Z.div_pos; [assumption|apply Hnn]. }
    rewrite IH, IH, shr_1_m by assumption.
    pose proof (Hnn n).
    rewrite !Z.div_div by lia.
    f_equal. rewrite pow2_xI. lia.
  - assert (H2 : 0 <= shr_m (iter_pos shr_1 n r)).
    { rewrite IH by assumption. apply Z.div_pos; [assumption|apply Hnn]. }
    rewrite IH, IH by assumption.
    pose proof (Hnn n).
    rewrite !Z.div_div by lia.
    f_equal. rewrite pow2_xO. lia.
  - rewrite shr_1_m by assumption. reflexivity.
Qed.

Lemma shr_1_double (k : Z) :
  0 <= k ->
  shr_1 (Build_shr_record (2 * k) false false) = Build_shr_record k false false.
Proof.
  destruct k as [|p|p]; try lia; intros _; reflexivity.
Qed.

Lemma iter_pos_shr_exact (n : positive) :
  forall k : Z, 0 <= k ->
    iter_pos shr_1 n (Build_shr_record (k * 2 ^ Zpos n) false false)
    = Build_shr_record k false false.
Proof.
  assert (Hnn : forall k, 0 < 2 ^ Zpos k) by (intros; apply Z.pow_pos_nonneg; lia).
  induction n as [n IH|n IH|]; intros k Hk; cbn [iter_pos].
  - pose proof (Hnn n).
    replace (k * 2 ^ Zpos n~1) with (2 * ((k * 2 ^ Zpos n) * 2 ^ Zpos n)).
    + rewrite shr_1_double by nia. rewrite IH by nia. apply IH; assumption.
    + rewrite pow2_xI. lia.
  - pose proof (Hnn n).
    replace (k * 2 ^ Zpos n~0) with ((k * 2 ^ Zpos n) * 2 ^ Zpos n).
    + rewrite IH by nia. apply IH; assumption.
    + rewrite pow2_xO. lia.
  - replace (k * 2 ^ 1) with (2 * k) by (rewrite Z.pow_1_r; lia).
    apply shr_1_double; assumption.
Qed.

End Shifts.

(** ** Rounding to binary64 *)

Section Rounding.

Lemma fexp_eq (e : Z) : fexp prec emax e = Z.max (e - 53) (-1074).
Proof. reflexivity. Qed.

Lemma shr_record_of_loc_m (m : Z) (l : location) :
  shr_m (shr_record_of_loc m l) = m.
Proof. destruct l as [|[ | | ]]; reflexivity. Qed.

Lemma shr_m_snd (mrs : shr_record) (e n : Z) :
  0 <= shr_m mrs ->
  shr_m (fst (shr mrs e n)) = shr_m mrs / 2 ^ Z.max 0 n
  /\ snd (shr mrs e n) = e + Z.max 0 n.
Proof.
  intros H. destruct n as [|p|p]; cbn [shr fst snd].
  - rewrite Z.max_id, Z.pow_0_r, Z.div_1_r. split; lia.
  - rewrite Z.max_r by lia. split; [apply iter_pos_shr_m; assumption|reflexivity].
  - rewrite Z.max_l by lia. rewrite Z.pow_0_r, Z.div_1_r. split; lia.
Qed.

Lemma shr_fexp_m (m e : Z) (l : location) :
  0 <= m ->
  shr_m (fst (shr_fexp prec emax m e l))
    = m / 2 ^ Z.max 0 (fexp prec emax (Zdigits2 m + e) - e)
  /\ snd (shr_fexp prec emax m e l)
    = e + Z.max 0 (fexp prec emax (Zdigits2 m + e) - e).
Proof.
  intros H. unfold shr_fexp.
  rewrite <- (shr_record_of_loc_m m l) at 3.
  apply shr_m_snd. rewrite shr_record_of_loc_m. assumption.
Qed.

Lemma shr_fexp_exact (m e : Z) :
  0 <= m ->
  m mod 2 ^ Z.max 0 (fexp prec emax (Zdigits2 m + e) - e) = 0 ->
  fst (shr_fexp prec emax m e loc_Exact)
  = Build_shr_record (m / 2 ^ Z.max 0 (fexp prec emax (Zdigits2 m + e) - e)) false false.
Proof.
  intros H. unfold shr_fexp.
  destruct (fexp prec emax (Zdigits2 m + e) - e) as [|p|p]; cbn [shr fst shr_record_of_loc].
  - intros _. rewrite Z.max_id, Z.pow_0_r, Z.div_1_r. reflexivity.
  - rewrite Z.max_r by lia. intros Hmod.
    assert (Hp : 0 < 2 ^ Zpos p) by (apply Z.pow_pos_nonneg; lia).
    rewrite (Z.div_mod m (2 ^ Zpos p)) at 1 by lia.
    rewrite Hmod, Z.add_0_r, Z.mul_comm.
    apply iter_pos_shr_exact. apply Z.div_pos; lia.
  - intros _. rewrite Z.max_l by lia. rewrite Z.pow_0_r, Z.div_1_r. reflexivity.
Qed.

Lemma rne_bounds (m : Z) (l : location) :
  m <= round_nearest_even m l <= m + 1.
Proof.
  destruct l as [|[ | | ]]; simpl; try lia.
  destruct (Z.even m); lia.
Qed.

Lemma bra_unfold (sx : bool) (mx ex : Z) (lx : location) :
  0 <= mx ->
  binary_round_aux prec emax sx mx ex lx
  = finish_round sx
      (round_nearest_even (shr_m (fst (shr_fexp prec emax mx ex lx)))
                          (loc_of_shr_record (fst (shr_fexp prec emax mx ex lx))))
      (ex + Z.max 0 (fexp prec emax (Zdigits2 mx + ex) - ex)).
Proof.
  intros H. unfold binary_round_aux, finish_round.
  destruct (shr_fexp_m mx ex lx H) as [Hm He].
  destruct (shr_fexp prec emax mx ex lx) as [r1 e1] eqn:E1.
  cbn [fst snd] in *. subst e1.
  set (m2 := round_nearest_even (shr_m r1) (loc_of_shr_record r1)).
  assert (H2 : 0 <= m2).
  { pose proof (rne_bounds (shr_m r1) (loc_of_shr_record r1)).
    assert (0 <= shr_m r1).
    { rewrite Hm. apply Z.div_pos; [assumption|apply Z.pow_pos_nonneg; lia]. }
    unfold m2. lia. }
  set (e1 := ex + Z.max 0 (fexp prec emax (Zdigits2 mx + ex) - ex)).
  destruct (shr_fexp_m m2 e1 loc_Exact H2) as [Hm2 He2].
  destruct (shr_fexp prec emax m2 e1 loc_Exact) as [r2 e2].
  cbn [fst snd] in *. rewrite Hm2, He2. reflexivity.
Qed.

(** A rounded mantissa is never negative, so rounding a magnitude yields a
    zero, a finite Number or an infinity of the requested sign. *)
Lemma finish_round_class (sx : bool) (m2 e1 : Z) :
  0 <= m2 ->
  finish_round sx m2 e1 = S754_zero sx
  \/ finish_round sx m2 e1 = S754_infinity sx
  \/ exists m e, finish_round sx m2 e1 = S754_finite sx m e.
Proof.
  intros H. unfold finish_round.
  set (n2 := Z.max 0 _).
  assert (0 <= m2 / 2 ^ n2) by (apply Z.div_pos; [assumption|apply Z.pow_pos_nonneg; lia]).
  destruct (m2 / 2 ^ n2) as [|p|p]; try lia.
  - left; reflexivity.
  - destruct (e1 + n2 <=? emax - prec); [right; right; eauto|right; left; reflexivity].
Qed.

Lemma bra_class (sx : bool) (mx ex : Z) (lx : location) :
  0 <= mx ->
  binary_round_aux prec emax sx mx ex lx = S754_zero sx
  \/ binary_round_aux prec emax sx mx ex lx = S754_infinity sx
  \/ exists m e, binary_round_aux prec emax sx mx ex lx = S754_finite sx m e.
Proof.
  intros H. rewrite bra_unfold by assumption.
  apply finish_round_class.
  destruct (shr_fexp_m mx ex lx H) as [Hm _].
  pose proof (rne_bounds (shr_m (fst (shr_fexp prec emax mx ex lx)))
                (loc_of_shr_record (fst (shr_fexp prec emax mx ex lx)))).
  assert (0 <= shr_m (fst (shr_fexp prec emax mx ex lx))).
  { rewrite Hm. apply Z.div_pos; [assumption|apply Z.pow_pos_nonneg; lia]. }
  lia.
Qed.

(** The first right shift leaves a mantissa of at most 53 digits, unless the
    value underflows to nothing. *)
Lemma stage1 (mx ex : Z) :
  0 < mx -> -1074 < Zdigits2 mx + ex ->
  let n := Z.max 0 (fexp prec emax (Zdigits2 mx + ex) - ex) in
  2 ^ n <= mx
  /\ Zdigits2 (mx / 2 ^ n) = Zdigits2 mx - n
  /\ Zdigits2 mx - n <= 53
  /\ -1074 <= ex + n
  /\ 0 < mx / 2 ^ n.
Proof.
  intros Hm Hu n.
  pose proof (Zdigits2_pos mx Hm) as HD.
  pose proof (Zdigits2_bounds mx Hm) as [Hl _].
  assert (Hn : 0 <= n <= Zdigits2 mx - 1) by (unfold n; rewrite fexp_eq; lia).
  assert (Hle : 2 ^ n <= mx).
  { assert (2 ^ n <= 2 ^ (Zdigits2 mx - 1)) by (apply Z.pow_le_mono_r; lia). lia. }
  assert (Hp : 0 < 2 ^ n) by (apply Z.pow_pos_nonneg; lia).
  repeat split.
  - assumption.
  - apply Zdigits2_div_pow2; lia.
  - unfold n; rewrite fexp_eq; lia.
  - unfold n; rewrite fexp_eq; lia.
  - apply Z.div_str_pos; lia.
Qed.

Lemma finish_round_shape (sx : bool) (m2 e1 : Z) :
  0 < m2 <= 2 ^ 53 -> -1074 <= e1 ->
  exists m3 e3,
    0 < m3 /\ Zdigits2 m3 <= 53 /\ e1 <= e3 <= e1 + 1
    /\ Zdigits2 m3 + e3 = Zdigits2 m2 + e1
    /\ finish_round sx m2 e1
       = if e3 <=? 971 then S754_finite sx (Z.to_pos m3) e3 else S754_infinity sx.
Proof.
  intros [Hpos Hle] He. unfold finish_round.
  destruct (Z.eq_dec m2 (2 ^ 53)) as [->|Hne].
  - exists (2 ^ 52), (e1 + 1).
    replace (Zdigits2 (2 ^ 53)) with 54 by reflexivity.
    replace (Zdigits2 (2 ^ 52)) with 53 by reflexivity.
    rewrite fexp_eq.
    replace (Z.max 0 (Z.max (54 + e1 - 53) (-1074) - e1)) with 1 by lia.
    change (2 ^ 53 / 2 ^ 1) with (Zpos (Z.to_pos (2 ^ 52))).
    change (emax - prec) with 971.
    repeat split; try lia; try reflexivity.
  - exists m2, e1.
    assert (HD : Zdigits2 m2 <= 53) by (apply Zdigits2_le; lia).
    rewrite fexp_eq.
    replace (Z.max 0 (Z.max (Zdigits2 m2 + e1 - 53) (-1074) - e1)) with 0 by lia.
    rewrite Z.pow_0_r, Z.div_1_r, Z.add_0_r.
    change (emax - prec) with 971.
    destruct m2 as [|p|p]; try lia.
    repeat split; try lia; try reflexivity.
Qed.

Lemma bra_shape (sx : bool) (mx ex : Z) (lx : location) :
  0 < mx -> -1074 < Zdigits2 mx + ex ->
  exists m3 e3,
    0 < m3 /\ Zdigits2 m3 <= 53
    /\ ex + Z.max 0 (fexp prec emax (Zdigits2 mx + ex) - ex) <= e3
       <= ex + Z.max 0 (fexp prec emax (Zdigits2 mx + ex) - ex) + 1
    /\ Zdigits2 mx + ex <= Zdigits2 m3 + e3 <= Zdigits2 mx + ex + 1
    /\ binary_round_aux prec emax sx mx ex lx
       = if e3 <=? 971 then S754_finite sx (Z.to_pos m3) e3 else S754_infinity sx.
Proof.
  intros Hm Hu.
  rewrite bra_unfold by lia.
  destruct (stage1 mx ex Hm Hu) as (Hle & HD1 & HD53 & He1 & Hm1).
  destruct (shr_fexp_m mx ex lx) as [Hsm _]; [lia|].
  set (n := Z.max 0 (fexp prec emax (Zdigits2 mx + ex) - ex)) in *.
  set (r1 := fst (shr_fexp prec emax mx ex lx)) in *.
  pose proof (rne_bounds (shr_m r1) (loc_of_shr_record r1)) as Hr.
  set (m2 := round_nearest_even (shr_m r1) (loc_of_shr_record r1)) in *.
  rewrite Hsm in Hr.
  pose proof (Zdigits2_bounds (mx / 2 ^ n) Hm1) as [_ Hub].
  rewrite HD1 in Hub.
  assert (H53 : 2 ^ (Zdigits2 mx - n) <= 2 ^ 53) by (apply Z.pow_le_mono_r; lia).
  pose proof (Zdigits2_pos (mx / 2 ^ n) Hm1) as HD1pos. rewrite HD1 in HD1pos.
  destruct (finish_round_shape sx m2 (ex + n)) as (m3 & e3 & H1 & H2 & H3 & H4 & H5);
    [lia|lia|].
  exists m3, e3.
  assert (Hd2 : Zdigits2 mx - n <= Zdigits2 m2 <= Zdigits2 mx - n + 1).
  { split.
    - rewrite <- HD1. apply Zdigits2_mono; lia.
    - apply Zdigits2_le; [lia|].
      rewrite Z.pow_add_r by lia. rewrite Z.pow_1_r. lia. }
  repeat split; try lia; try exact H5.
Qed.

(** When the shifted-out bits are all zero, rounding is exact. *)
Lemma bra_exact (sx : bool) (mx ex : Z) :
  0 < mx ->
  mx mod 2 ^ Z.max 0 (fexp prec emax (Zdigits2 mx + ex) - ex) = 0 ->
  binary_round_aux prec emax sx mx ex loc_Exact
  = if ex + Z.max 0 (fexp prec emax (Zdigits2 mx + ex) - ex) <=? 971
    then S754_finite sx
           (Z.to_pos (mx / 2 ^ Z.max 0 (fexp prec emax (Zdigits2 mx + ex) - ex)))
           (ex + Z.max 0 (fexp prec emax (Zdigits2 mx + ex) - ex))
    else S754_infinity sx.
Proof.
  intros Hm Hmod.
  rewrite bra_unfold by lia.
  rewrite shr_fexp_exact by (assumption || lia).
  cbn [shr_m loc_of_shr_record round_nearest_even].
  set (n := Z.max 0 (fexp prec emax (Zdigits2 mx + ex) - ex)) in *.
  assert (Hn : 0 <= n) by (unfold n; lia).
  assert (Hp : 0 < 2 ^ n) by (apply Z.pow_pos_nonneg; lia).
  assert (Hle : 2 ^ n <= mx).
  { pose proof (Z.div_mod mx (2 ^ n)) as E. rewrite Hmod in E.
    assert (0 < mx / 2 ^ n) by nia. nia. }
  assert (Hm1 : 0 < mx / 2 ^ n) by (apply Z.div_str_pos; lia).
  unfold finish_round.
  rewrite Zdigits2_div_pow2 by lia.
  replace (Zdigits2 mx - n + (ex + n)) with (Zdigits2 mx + ex) by lia.
  replace (Z.max 0 (fexp prec emax (Zdigits2 mx + ex) - (ex + n))) with 0
    by (unfold n; lia).
  rewrite Z.pow_0_r, Z.div_1_r, Z.add_0_r.
  change (emax - prec) with 971.
  destruct (mx / 2 ^ n) as [|p|p]; try lia. reflexivity.
Qed.

End Rounding.

(** ** Signs and classes of the results of the operations *)

Section Classes.

Lemma shift_pos_pow2 (m d : positive) :
  Zpos (Pos.iter xO m d) = Zpos m * 2 ^ Zpos d.
Proof.
  change (Pos.iter xO m d) with (Zpower.shift_pos d m).
  rewrite Zpower.shift_pos_correct.
  change (Z.pow_pos 2 d) with (2 ^ Zpos d). lia.
Qed.

(** Aligning a mantissa to a smaller exponent keeps the value. *)
Lemma shl_align_spec (m : positive) (e e' : Z) :
  Zpos (fst (shl_align m e e')) = Zpos m * 2 ^ (e - snd (shl_align m e e'))
  /\ snd (shl_align m e e') = Z.min e e'.
Proof.
  unfold shl_align.
  destruct (e' - e) as [|d|d] eqn:E; cbn [fst snd].
  - rewrite Z.sub_diag, Z.pow_0_r. lia.
  - rewrite Z.sub_diag, Z.pow_0_r. lia.
  - rewrite shift_pos_pow2. replace (e - e') with (Zpos d) by lia. lia.
Qed.

Lemma nonneg_cases (x : number) :
  nonneg x = true ->
  (exists s, x = S754_zero s) \/ x = S754_infinity false
  \/ exists m e, x = S754_finite false m e.
Proof.
  destruct x as [s|[|]| |[|] m e]; simpl; try discriminate; intros _; eauto.
Qed.

Lemma pos_finite_cases (x : number) :
  pos_finite x = true -> exists m e, x = S754_finite false m e.
Proof.
  destruct x as [s|s| |[|] m e]; simpl; try discriminate; intros _; eauto.
Qed.

Lemma nonneg_not_nan (x : number) : nonneg x = true -> is_nan x = false.
Proof. destruct x as [s|[|]| |[|] m e]; simpl; congruence. Qed.

Lemma bra_nonneg (mx ex : Z) (lx : location) :
  0 <= mx -> nonneg (binary_round_aux prec emax false mx ex lx) = true.
Proof.
  intros H.
  destruct (bra_class false mx ex lx H) as [E|[E|(m & e & E)]]; rewrite E; reflexivity.
Qed.

Lemma binary_round_nonneg (p : positive) (e : Z) :
  nonneg (binary_round prec emax false p e) = true.
Proof.
  unfold binary_round.
  destruct (shl_align p e _) as [mz ez]. apply bra_nonneg. lia.
Qed.

Lemma mul_nonneg (x y : number) :
  nonneg x = true -> pos_finite y = true -> nonneg (mul x y) = true.
Proof.
  intros Hx Hy.
  destruct (pos_finite_cases y Hy) as (my & ey & ->).
  destruct (nonneg_cases x Hx) as [[s ->]|[->|(mx & ex & ->)]].
  - reflexivity.
  - reflexivity.
  - unfold mul, SFmul. cbn [xorb]. apply bra_nonneg. lia.
Qed.

Lemma div_nonneg (x y : number) :
  nonneg x = true -> pos_finite y = true -> nonneg (div x y) = true.
Proof.
  intros Hx Hy.
  destruct (pos_finite_cases y Hy) as (my & ey & ->).
  destruct (nonneg_cases x Hx) as [[s ->]|[->|(mx & ex & ->)]].
  - reflexivity.
  - reflexivity.
  - unfold div, SFdiv, SFdiv_core_binary. cbn [xorb].
    set (s := ex - ey - _).
    set (m' := match s with Z0 => Zpos mx | Zpos _ => Z.shiftl (Zpos mx) s | Zneg _ => 0 end).
    assert (Hm' : 0 <= m').
    { unfold m'. destruct s; try lia. apply Z.shiftl_nonneg. lia. }
    pose proof (Z.div_pos m' (Zpos my) Hm' ltac:(lia)) as Hq.
    unfold Z.div in Hq.
    destruct (Z.div_eucl m' (Zpos my)) as [q r].
    apply bra_nonneg. assumption.
Qed.

Lemma ofZ_nonneg (q : Z) : 0 <= q -> nonneg (ofZ q) = true.
Proof.
  destruct q as [|p|p]; try lia; intros _.
  - reflexivity.
  - apply binary_round_nonneg.
Qed.

Lemma Math_round_nonneg (x : number) :
  nonneg x = true -> nonneg (Math_round x) = true.
Proof.
  intros Hx.
  destruct (nonneg_cases x Hx) as [[s ->]|[->|(m & e & ->)]]; try reflexivity.
  unfold Math_round.
  destruct (Z.leb_spec 0 e) as [|He]; [reflexivity|].
  destruct (Zpos m mod 2 ^ (- e) =? 0); [reflexivity|].
  cbn [cond_Zopp].
  set (q := (2 * Zpos m + 2 ^ (- e)) / 2 ^ (1 - e)).
  assert (Hq : 0 <= q).
  { unfold q. apply Z.div_pos.
    - pose proof (Z.pow_nonneg 2 (- e)). lia.
    - apply Z.pow_pos_nonneg; lia. }
  pose proof (ofZ_nonneg q Hq).
  destruct q; try lia; [reflexivity|assumption].
Qed.

End Classes.

(** ** [Math.max], [Math.min] and the order *)

Section MinMax.

Lemma SFcompare_some (x y : number) :
  is_nan x = false -> is_nan y = false -> exists c, SFcompare x y = Some c.
Proof.
  destruct x as [s1|s1| |s1 m1 e1], y as [s2|s2| |s2 m2 e2]; simpl;
    try discriminate; intros _ _; eauto.
Qed.

Lemma leb_refl (x : number) : is_nan x = false -> leb x x = true.
Proof. intros H. unfold leb, SFleb. rewrite SFcompare_refl by assumption. reflexivity. Qed.

Lemma Math_min_cases (x y : number) :
  is_nan x = false -> is_nan y = false ->
  Math_min x y = x \/ Math_min x y = y.
Proof.
  intros Hx Hy. unfold Math_min. rewrite Hx, Hy. cbn [orb].
  destruct (SFcompare x y) as [[ | | ]|]; try (destruct (is_neg_zero y)); auto.
Qed.

Lemma Math_min_le_r (x y : number) :
  is_nan x = false -> is_nan y = false -> leb (Math_min x y) y = true.
Proof.
  intros Hx Hy. unfold Math_min. rewrite Hx, Hy. cbn [orb].
  destruct (SFcompare_some x y Hx Hy) as [c E]. rewrite E.
  destruct c.
  - destruct (is_neg_zero y); [apply leb_refl; assumption|].
    unfold leb, SFleb. rewrite E. reflexivity.
  - unfold leb, SFleb. rewrite E. reflexivity.
  - apply leb_refl; assumption.
Qed.

Lemma Math_min_gt (x y : number) :
  SFcompare x y = Some Gt -> Math_min x y = y.
Proof.
  intros E. unfold Math_min. rewrite E.
  destruct x, y; simpl in *; try discriminate; reflexivity.
Qed.

Lemma Math_max_cases (x y : number) :
  is_nan x = false -> is_nan y = false ->
  Math_max x y = x \/ Math_max x y = y.
Proof.
  intros Hx Hy. unfold Math_max. rewrite Hx, Hy. cbn [orb].
  destruct (SFcompare x y) as [[ | | ]|]; try (destruct (is_neg_zero x)); auto.
Qed.

Lemma Math_max_ge_r (x y : number) :
  is_nan x = false -> is_nan y = false -> leb y (Math_max x y) = true.
Proof.
  intros Hx Hy. unfold Math_max. rewrite Hx, Hy. cbn [orb].
  destruct (SFcompare_some x y Hx Hy) as [c E]. rewrite E.
  destruct c.
  - destruct (is_neg_zero x); [apply leb_refl; assumption|].
    unfold leb, SFleb. rewrite SFcompare_swap, E. reflexivity.
  - apply leb_refl; assumption.
  - unfold leb, SFleb. rewrite SFcompare_swap, E. reflexivity.
Qed.

Lemma leb_zero_nonneg (x : number) : leb (ofZ 0) x = true -> nonneg x = true.
Proof.
  destruct x as [s|[|]| |[|] m e]; simpl; try reflexivity; discriminate.
Qed.

End MinMax.

(** ** Integral Numbers and the dependents factor *)

Section Integral.

(** A positive integral Number is normal: 53 digits, exponent at least -52. *)
Lemma integer_shape (s : bool) (m : positive) (e : Z) :
  is_integer (S754_finite s m e) = true ->
  Zdigits2 (Zpos m) = 53 /\ -52 <= e <= 971.
Proof.
  unfold is_integer, is_number, valid_binary, bounded, canonical_mantissa, toZ.
  rewrite fexp_eq.
  change (Zpos (digits2_pos m)) with (Zdigits2 (Zpos m)).
  change (emax - prec) with 971.
  intros H.
  apply andb_prop in H as [H Hz].
  apply andb_prop in H as [Hc He].
  apply Z.eqb_eq in Hc. apply Z.leb_le in He.
  destruct (Z.leb_spec 0 e) as [Hpos|Hneg]; [lia|].
  destruct (Z.eqb_spec (Zpos m mod 2 ^ (- e)) 0) as [Hmod|]; [|discriminate].
  assert (Hp : 0 < 2 ^ (- e)) by (apply Z.pow_pos_nonneg; lia).
  assert (Hle : 2 ^ (- e) <= Zpos m).
  { pose proof (Z.div_mod (Zpos m) (2 ^ (- e))) as E. rewrite Hmod in E.
    assert (0 < Zpos m / 2 ^ (- e)) by nia. nia. }
  pose proof (Zdigits2_ge (Zpos m) (- e) ltac:(lia) Hle).
  lia.
Qed.

Lemma binary_round_pos_finite (p : positive) (ex : Z) :
  -1074 < Zdigits2 (Zpos p) + ex <= 1023 ->
  pos_finite (binary_round prec emax false p ex) = true.
Proof.
  intros Hmag. unfold binary_round.
  change (Zpos (digits2_pos p)) with (Zdigits2 (Zpos p)).
  destruct (shl_align_spec p ex (fexp prec emax (Zdigits2 (Zpos p) + ex))) as [Hv He].
  destruct (shl_align p ex _) as [mz ez]. cbn [fst snd] in *.
  assert (HD : Zdigits2 (Zpos mz) + ez = Zdigits2 (Zpos p) + ex).
  { rewrite Hv. rewrite Zdigits2_mul_pow2 by lia. lia. }
  destruct (bra_shape false (Zpos mz) ez loc_Exact) as (m3 & e3 & H1 & H2 & H3 & H4 & H5);
    [lia|lia|].
  rewrite H5. rewrite HD, fexp_eq in H3.
  rewrite fexp_eq in He.
  destruct (Z.leb_spec e3 971); [reflexivity|lia].
Qed.

Lemma DEPENDENT_MULTIPLIER_eq :
  DEPENDENT_MULTIPLIER = S754_finite false 4503599627370496 (-54).
Proof. vm_compute. reflexivity. Qed.

Lemma one_eq : ofZ 1 = S754_finite false 4503599627370496 (-52).
Proof. vm_compute. reflexivity. Qed.

Lemma quarter_exact (m : positive) (e : Z) :
  Zdigits2 (Zpos m) = 53 -> -52 <= e <= 971 ->
  mul (S754_finite false m e) DEPENDENT_MULTIPLIER = S754_finite false m (e - 2).
Proof.
  intros HD He. rewrite DEPENDENT_MULTIPLIER_eq.
  unfold mul, SFmul. cbn [xorb].
  rewrite Pos2Z.inj_mul.
  change (Zpos 4503599627370496) with (2 ^ 52).
  assert (Hdg : Zdigits2 (Zpos m * 2 ^ 52) = 105)
    by (rewrite Zdigits2_mul_pow2 by lia; lia).
  assert (Hn : Z.max 0 (fexp prec emax (Zdigits2 (Zpos m * 2 ^ 52) + (e + -54)) - (e + -54)) = 52)
    by (rewrite Hdg, fexp_eq; lia).
  rewrite bra_exact.
  - rewrite Hn. rewrite Z.div_mul by lia.
    destruct (Z.leb_spec (e + -54 + 52) 971); [|lia].
    f_equal. lia.
  - apply Z.mul_pos_pos; lia.
  - rewrite Hn. apply Z.mod_mul. lia.
Qed.

(** [1 + dependents * 0.25] is positive and finite for every non-negative
    integral [dependents]: it neither vanishes nor overflows. *)
Lemma dependentsFactor_pos_finite (d : number) :
  is_integer d = true -> leb (ofZ 0) d = true ->
  pos_finite (add (ofZ 1) (mul d DEPENDENT_MULTIPLIER)) = true.
Proof.
  intros Hi Hle.
  destruct d as [s|s| |s m e]; try discriminate.
  - rewrite DEPENDENT_MULTIPLIER_eq. destruct s; reflexivity.
  - assert (s = false) as -> by (destruct s; [discriminate|reflexivity]).
    destruct (integer_shape false m e Hi) as [HD He].
    rewrite quarter_exact by assumption.
    rewrite one_eq. unfold add, SFadd.
    destruct (shl_align_spec 4503599627370496 (-52) (Z.min (-52) (e - 2))) as [Ha Hae].
    destruct (shl_align_spec m (e - 2) (Z.min (-52) (e - 2))) as [Hb Hbe].
    set (ez := Z.min (-52) (e - 2)) in *.
    replace (snd (shl_align 4503599627370496 (-52) ez)) with ez in Ha by lia.
    replace (snd (shl_align m (e - 2) ez)) with ez in Hb by lia.
    cbn [cond_Zopp].
    set (a := fst (shl_align 4503599627370496 (-52) ez)) in *.
    set (b := fst (shl_align m (e - 2) ez)) in *.
    change (Zpos a + Zpos b) with (Zpos (a + b)).
    cbn [binary_normalize].
    apply binary_round_pos_finite.
    rewrite Pos2Z.inj_add, Ha, Hb.
    change (Zpos 4503599627370496) with (2 ^ 52).
    rewrite <- Z.pow_add_r by lia.
    replace (52 + (-52 - ez)) with (- ez) by lia.
    pose proof (Zdigits2_bounds (Zpos m) ltac:(lia)) as [_ Hub]. rewrite HD in Hub.
    assert (Hp1 : 0 < 2 ^ (- ez)) by (apply Z.pow_pos_nonneg; lia).
    assert (Hp2 : 0 < 2 ^ (e - 2 - ez)) by (apply Z.pow_pos_nonneg; lia).
    split.
    + assert (- ez < Zdigits2 (2 ^ (- ez) + Zpos m * 2 ^ (e - 2 - ez)))
        by (apply Zdigits2_ge; nia).
      lia.
    + assert (Zdigits2 (2 ^ (- ez) + Zpos m * 2 ^ (e - 2 - ez)) <= 1023 - ez); [|lia].
      apply Zdigits2_le; [nia|].
      assert (H1 : 2 ^ (- ez) <= 2 ^ (1022 - ez)) by (apply Z.pow_le_mono_r; lia).
      assert (H2 : Zpos m * 2 ^ (e - 2 - ez) < 2 ^ 53 * 2 ^ (e - 2 - ez)) by nia.
      rewrite <- Z.pow_add_r in H2 by lia.
      assert (H3 : 2 ^ (53 + (e - 2 - ez)) <= 2 ^ (1022 - ez)) by (apply Z.pow_le_mono_r; lia).
      replace (1023 - ez) with (1 + (1022 - ez)) by lia.
      rewrite Z.pow_add_r by lia. rewrite Z.pow_1_r. lia.
Qed.

End Integral.

(** ** Exact integers *)

Section ExactIntegers.

Lemma toZ_denotes (m : positive) (e V : Z) :
  denotes (Zpos m) e V -> toZ (S754_finite false m e) = Some V.
Proof.
  unfold denotes, toZ. cbn [cond_Zopp].
  intros [[He HV]|[He HV]].
  - destruct (Z.leb_spec 0 e); [|lia]. congruence.
  - destruct (Z.leb_spec 0 e); [lia|].
    assert (Hp : 0 < 2 ^ (- e)) by (apply Z.pow_pos_nonneg; lia).
    rewrite HV, Z.mod_mul, Z.div_mul by lia. reflexivity.
Qed.

Lemma pow2_split (a b : Z) : 0 <= a -> 0 <= b -> 2 ^ (a + b) = 2 ^ a * 2 ^ b.
Proof. intros. apply Z.pow_add_r; assumption. Qed.

Lemma two53_eq : ofZ (2 ^ 53) = S754_finite false 4503599627370496 1.
Proof. vm_compute. reflexivity. Qed.

(** Rounding a magnitude of more than 53 digits never yields a Number
    below [2^53]. *)
Lemma bra_large (mx ex : Z) (lx : location) :
  0 < mx -> 54 <= Zdigits2 mx + ex ->
  SFcompare (binary_round_aux prec emax false mx ex lx) (ofZ (2 ^ 53)) <> Some Lt.
Proof.
  intros Hm Hmag.
  destruct (bra_shape false mx ex lx Hm) as (m3 & e3 & H1 & H2 & H3 & H4 & H5); [lia|].
  rewrite H5, two53_eq.
  destruct (e3 <=? 971); [|discriminate].
  cbn [SFcompare].
  destruct (Z.compare_spec e3 1) as [E|E|E]; try discriminate; [|lia].
  assert (HD : Zdigits2 m3 = 53) by lia.
  pose proof (Zdigits2_bounds m3 H1) as [Hlb _]. rewrite HD in Hlb.
  change (2 ^ (53 - 1)) with 4503599627370496 in Hlb.
  rewrite Pos.compare_cont_spec; cbn [Pos.switch_Eq].
  destruct (Pos.compare_spec (Z.to_pos m3) 4503599627370496); try discriminate.
  lia.
Qed.

(** A product or sum whose exact value is an integer below [2^53] is
    computed exactly. *)
Lemma bra_int_exact (mx ex V : Z) :
  0 < mx -> denotes mx ex V ->
  SFcompare (binary_round_aux prec emax false mx ex loc_Exact) (ofZ (2 ^ 53)) = Some Lt ->
  toZ (binary_round_aux prec emax false mx ex loc_Exact) = Some V.
Proof.
  intros Hm Hden Hlt.
  destruct (Z_le_gt_dec 54 (Zdigits2 mx + ex)) as [Hbig|Hsmall].
  { exfalso. exact (bra_large mx ex loc_Exact Hm Hbig Hlt). }
  pose proof (Zdigits2_pos mx Hm) as HD.
  set (n := Z.max 0 (fexp prec emax (Zdigits2 mx + ex) - ex)).
  assert (Hn : 0 <= n) by (unfold n; lia).
  assert (Hp : 0 < 2 ^ n) by (apply Z.pow_pos_nonneg; lia).
  assert (Hn' : n = 0 \/ (ex < 0 /\ n <= - ex)) by (unfold n; rewrite fexp_eq; lia).
  assert (Hsplit : mx = (mx / 2 ^ n) * 2 ^ n /\ denotes (mx / 2 ^ n) (ex + n) V).
  { destruct Hn' as [Hz|[Hneg Hle]].
    - rewrite Hz, Z.pow_0_r, Z.div_1_r, Z.add_0_r. split; [lia|assumption].
    - destruct Hden as [[He _]|[_ HV]]; [lia|].
      assert (E : mx = V * 2 ^ (- ex - n) * 2 ^ n).
      { rewrite <- Z.mul_assoc, <- pow2_split by lia.
        replace (- ex - n + n) with (- ex) by lia. assumption. }
      assert (Q : mx / 2 ^ n = V * 2 ^ (- ex - n))
        by (rewrite E at 1; apply Z.div_mul; lia).
      rewrite Q. split; [assumption|].
      unfold denotes.
      destruct (Z.eq_dec (ex + n) 0) as [Ez|Enz].
      + left. split; [lia|]. rewrite Ez, Z.pow_0_r.
        replace (- ex - n) with 0 by lia. rewrite Z.pow_0_r. lia.
      + right. split; [lia|]. f_equal; f_equal; lia. }
  destruct Hsplit as [Hmx Hden'].
  assert (Hm1 : 0 < mx / 2 ^ n) by nia.
  rewrite bra_exact; [|assumption|].
  - fold n.
    destruct (Z.leb_spec (ex + n) 971) as [_|Hov]; [|unfold n in Hov; rewrite fexp_eq in Hov; lia].
    apply toZ_denotes.
    rewrite Z2Pos.id by assumption. assumption.
  - fold n. rewrite Hmx. apply Z.mod_mul. lia.
Qed.

Lemma binary_round_integral (p : positive) :
  binary_round prec emax false p 0 = S754_infinity false
  \/ exists m e V, binary_round prec emax false p 0 = S754_finite false m e
                   /\ denotes (Zpos m) e V.
Proof.
  unfold binary_round.
  change (Zpos (digits2_pos p)) with (Zdigits2 (Zpos p)).
  pose proof (Zdigits2_pos (Zpos p) ltac:(lia)) as HD.
  destruct (shl_align_spec p 0 (fexp prec emax (Zdigits2 (Zpos p) + 0))) as [Hv He].
  destruct (shl_align p 0 _) as [mz ez]. cbn [fst snd] in *.
  rewrite Z.add_0_r, fexp_eq in He.
  assert (Hez : ez <= 0) by lia.
  assert (Hdg : Zdigits2 (Zpos mz) + ez = Zdigits2 (Zpos p)).
  { rewrite Hv, Zdigits2_mul_pow2 by lia. lia. }
  destruct (Z_le_gt_dec (Zdigits2 (Zpos p)) 53) as [Hsmall|Hbig].
  - right.
    assert (Hn : Z.max 0 (fexp prec emax (Zdigits2 (Zpos mz) + ez) - ez) = 0)
      by (rewrite Hdg, fexp_eq; lia).
    rewrite bra_exact; [|lia|rewrite Hn, Z.pow_0_r; apply Z.mod_1_r].
    rewrite Hn, Z.pow_0_r, Z.div_1_r, Z.add_0_r.
    destruct (Z.leb_spec ez 971); [|lia].
    exists mz, ez, (Zpos p). split; [reflexivity|].
    unfold denotes.
    destruct (Z.eq_dec ez 0) as [->|Hnz].
    + left. split; [lia|]. rewrite Hv. change (0 - 0) with 0.
      rewrite !Z.pow_0_r. lia.
    + right. split; [lia|]. rewrite Hv. f_equal; f_equal; lia.
  - destruct (bra_shape false (Zpos mz) ez loc_Exact) as (m3 & e3 & H1 & H2 & H3 & H4 & H5);
      [lia|lia|].
    rewrite H5. rewrite Hdg, fexp_eq in H3.
    destruct (e3 <=? 971); [right|left; reflexivity].
    exists (Z.to_pos m3), e3, (m3 * 2 ^ e3). split; [reflexivity|].
    left. split; [lia|]. rewrite Z2Pos.id by assumption. reflexivity.
Qed.

(** [Math.round] of a non-negative Number is integral. *)
Lemma Math_round_integral (x : number) :
  nonneg x = true ->
  (exists s, Math_round x = S754_zero s)
  \/ Math_round x = S754_infinity false
  \/ exists m e V, Math_round x = S754_finite false m e /\ denotes (Zpos m) e V.
Proof.
  intros Hx.
  destruct (nonneg_cases x Hx) as [[s ->]|[->|(m & e & ->)]].
  { left. exists s. reflexivity. }
  { right; left. reflexivity. }
  unfold Math_round.
  destruct (Z.leb_spec 0 e) as [He|He].
  { right; right. exists m, e, (Zpos m * 2 ^ e). split; [reflexivity|left; lia]. }
  assert (Hp : 0 < 2 ^ (- e)) by (apply Z.pow_pos_nonneg; lia).
  destruct (Z.eqb_spec (Zpos m mod 2 ^ (- e)) 0) as [Hmod|Hmod].
  { right; right. exists m, e, (Zpos m / 2 ^ (- e)). split; [reflexivity|right].
    split; [lia|].
    pose proof (Z.div_mod (Zpos m) (2 ^ (- e))) as E. rewrite Hmod in E. lia. }
  cbn [cond_Zopp].
  set (q := (2 * Zpos m + 2 ^ (- e)) / 2 ^ (1 - e)).
  assert (Hq : 0 <= q).
  { unfold q. apply Z.div_pos; [lia|apply Z.pow_pos_nonneg; lia]. }
  destruct q as [|q|q]; try lia.
  { left. exists false. reflexivity. }
  right. unfold ofZ. cbn [binary_normalize].
  destruct (binary_round_integral q) as [E|(m' & e' & V & E & HV)]; rewrite E.
  - left. reflexivity.
  - right. exists m', e', V. split; [reflexivity|assumption].
Qed.

Lemma ten_thousand_eq : ofZ 10000 = S754_finite false 5497558138880000 (-39).
Proof. vm_compute. reflexivity. Qed.

(** Snapping to the grid of 10,000: below [2^53] the product is exact. *)
Lemma snap_multiple (x : number) :
  nonneg x = true ->
  SFcompare (mul (Math_round x) (ofZ 10000)) (ofZ (2 ^ 53)) = Some Lt ->
  exists N, toZ (mul (Math_round x) (ofZ 10000)) = Some (10000 * N).
Proof.
  intros Hx.
  destruct (Math_round_integral x Hx) as [[s ->]|[->|(m & e & V & -> & HV)]].
  - intros _. exists 0. rewrite ten_thousand_eq. reflexivity.
  - rewrite ten_thousand_eq. discriminate.
  - rewrite ten_thousand_eq. unfold mul, SFmul. cbn [xorb].
    rewrite Pos2Z.inj_mul.
    intros Hlt. exists V.
    apply bra_int_exact; [lia| |assumption].
    change (Zpos 5497558138880000) with (10000 * 2 ^ 39).
    unfold denotes in *.
    destruct HV as [[He HV]|[He HV]].
    + destruct (Z_le_gt_dec 39 e) as [Hge|Hlt'].
      * left. split; [lia|]. rewrite HV.
        replace e with (39 + (e + -39)) at 1 by lia.
        rewrite pow2_split by lia. lia.
      * right. split; [lia|]. rewrite HV.
        replace (- (e + -39)) with (39 - e) by lia.
        replace 39 with (e + (39 - e)) at 1 by lia.
        rewrite pow2_split by lia. lia.
    + right. split; [lia|]. rewrite HV.
      replace (- (e + -39)) with (- e + 39) by lia.
      rewrite pow2_split by lia. lia.
Qed.

End ExactIntegers.

(** * The engine *)

(** ** Coverage sizing *)

Section CoverageSizing.

Variables income im df ra : number.
Hypothesis income_nonneg : nonneg income = true.
Hypothesis im_pos : pos_finite im = true.
Hypothesis df_pos : pos_finite df = true.
Hypothesis ra_pos : pos_finite ra = true.

Let snapped : number :=
  mul (Math_round (div (mul (mul (mul income im) df) ra) (ofZ 10000))) (ofZ 10000).
Let floored : number := Math_max snapped MIN_COVERAGE.
Let cap : number := mul income INCOME_CAP_MULTIPLIER.

Lemma snapped_nonneg : nonneg snapped = true.
Proof.
  unfold snapped.
  apply mul_nonneg; [|reflexivity].
  apply Math_round_nonneg.
  apply div_nonneg; [|reflexivity].
  repeat apply mul_nonneg; assumption.
Qed.

Lemma cap_nonneg : nonneg cap = true.
Proof. unfold cap. apply mul_nonneg; [assumption|reflexivity]. Qed.

Lemma floored_not_nan : is_nan floored = false.
Proof.
  unfold floored.
  pose proof (nonneg_not_nan _ snapped_nonneg) as Hs.
  destruct (Math_max_cases snapped MIN_COVERAGE Hs eq_refl) as [E|E]; rewrite E;
    [assumption|reflexivity].
Qed.

Lemma floored_ge_min : leb MIN_COVERAGE floored = true.
Proof.
  unfold floored. apply Math_max_ge_r; [|reflexivity].
  apply nonneg_not_nan, snapped_nonneg.
Qed.

Lemma calculateCoverage_eq : calculateCoverage income im df ra = Math_min floored cap.
Proof. reflexivity. Qed.

Lemma calculateCoverage_le_cap : leb (calculateCoverage income im df ra) cap = true.
Proof.
  rewrite calculateCoverage_eq.
  apply Math_min_le_r; [apply floored_not_nan|apply nonneg_not_nan, cap_nonneg].
Qed.

Lemma calculateCoverage_cap_wins :
  ltb cap MIN_COVERAGE = true -> calculateCoverage income im df ra = cap.
Proof.
  intros Hlt. rewrite calculateCoverage_eq.
  apply Math_min_gt.
  assert (H1 : SFcompare cap MIN_COVERAGE = Some Lt).
  { unfold ltb, SFltb in Hlt.
    destruct (SFcompare cap MIN_COVERAGE) as [[ | | ]|]; try discriminate; reflexivity. }
  assert (H2 : SFcompare MIN_COVERAGE floored = Some Lt
               \/ SFcompare MIN_COVERAGE floored = Some Eq).
  { pose proof floored_ge_min as H. unfold leb, SFleb in H.
    destruct (SFcompare MIN_COVERAGE floored) as [[ | | ]|]; try discriminate; auto. }
  pose proof (SFcompare_lt_le_trans _ _ _ H1 H2) as H3.
  rewrite SFcompare_swap, H3. reflexivity.
Qed.

Lemma calculateCoverage_floor :
  leb MIN_COVERAGE cap = true ->
  leb MIN_COVERAGE (calculateCoverage income im df ra) = true.
Proof.
  intros Hcap. rewrite calculateCoverage_eq.
  destruct (Math_min_cases floored cap floored_not_nan
              (nonneg_not_nan _ cap_nonneg)) as [E|E]; rewrite E.
  - apply floored_ge_min.
  - assumption.
Qed.

Lemma calculateCoverage_uncapped :
  calculateCoverage income im df ra <> cap ->
  calculateCoverage income im df ra = MIN_COVERAGE
  \/ calculateCoverage income im df ra = snapped.
Proof.
  rewrite calculateCoverage_eq. intros Hne.
  destruct (Math_min_cases floored cap floored_not_nan
              (nonneg_not_nan _ cap_nonneg)) as [E|E]; [|congruence].
  rewrite E. unfold floored.
  destruct (Math_max_cases snapped MIN_COVERAGE
              (nonneg_not_nan _ snapped_nonneg) eq_refl); auto.
Qed.

End CoverageSizing.

Section Profiles.

Lemma valid_profile_inv (p : UserProfile) :
  valid_profile p = true ->
  is_integer (age p) = true /\ leb (ofZ 18) (age p) = true
  /\ leb (age p) (ofZ 100) = true
  /\ is_integer (income p) = true /\ leb (ofZ 0) (income p) = true
  /\ is_integer (dependents p) = true /\ leb (ofZ 0) (dependents p) = true.
Proof.
  unfold valid_profile. intros H.
  do 6 (apply andb_prop in H as [H ?]). repeat split; assumption.
Qed.

Lemma getIncomeMultiplier_pos_finite (a : number) :
  pos_finite (getIncomeMultiplier a) = true.
Proof.
  unfold getIncomeMultiplier.
  destruct (ltb a (ofZ 30)); [reflexivity|].
  destruct (ltb a (ofZ 40)); [reflexivity|].
  destruct (ltb a (ofZ 50)); reflexivity.
Qed.

Lemma RISK_ADJUSTMENTS_pos_finite (r : RiskTolerance) :
  pos_finite (RISK_ADJUSTMENTS r) = true.
Proof. destruct r; reflexivity. Qed.

End Profiles.

(** ** Age bands *)

Section AgeBands.

Lemma ages_complete (a : Z) : 18 <= a <= 100 -> In a ages.
Proof.
  intros H. unfold ages.
  replace a with (Z.of_nat (Z.to_nat a)) by lia.
  apply in_map, in_seq. lia.
Qed.

Lemma age_band_at (a : Z) :
  In a ages ->
  getIncomeMultiplier (ofZ a) = ofZ (spec_multiplier a)
  /\ determineTerm (ofZ a) = ofZ (spec_term a).
Proof.
  intros H. vm_compute in H.
  repeat (destruct H as [<-|H]; [split; vm_compute; reflexivity|]).
  contradiction.
Qed.

Lemma spec_term_values (a : Z) : In (spec_term a) [10; 15; 20; 30].
Proof.
  unfold spec_term.
  destruct (a <? 35); [simpl; auto|].
  destruct (a <? 45); [simpl; auto|].
  destruct (a <? 55); simpl; auto.
Qed.

Lemma spec_term_antitone (a b : Z) : a <= b -> spec_term b <= spec_term a.
Proof.
  intros H. unfold spec_term.
  destruct (Z.ltb_spec a 35), (Z.ltb_spec a 45), (Z.ltb_spec a 55),
    (Z.ltb_spec b 35), (Z.ltb_spec b 45), (Z.ltb_spec b 55); lia.
Qed.

Lemma term_leb (s t : Z) :
  In s [10; 15; 20; 30] -> In t [10; 15; 20; 30] -> s <= t ->
  leb (ofZ s) (ofZ t) = true.
Proof.
  simpl. intros Hs Ht Hle.
  repeat (destruct Hs as [<-|Hs]; [|]); try contradiction;
    repeat (destruct Ht as [<-|Ht]; [|]); try contradiction;
    try lia; vm_compute; reflexivity.
Qed.

End AgeBands.

(** ** Valid ages as Numbers *)

Section ValidAges.

(** An integer of at most 53 digits is a Number, with a normalised mantissa. *)
Lemma ofZ_small (q : positive) :
  Zdigits2 (Zpos q) <= 53 ->
  exists mz : positive,
    ofZ (Zpos q) = S754_finite false mz (Zdigits2 (Zpos q) - 53)
    /\ Zpos mz = Zpos q * 2 ^ (53 - Zdigits2 (Zpos q)).
Proof.
  intros Hsmall.
  unfold ofZ. cbn [binary_normalize]. unfold binary_round.
  change (Zpos (digits2_pos q)) with (Zdigits2 (Zpos q)).
  pose proof (Zdigits2_pos (Zpos q) ltac:(lia)) as HD.
  destruct (shl_align_spec q 0 (fexp prec emax (Zdigits2 (Zpos q) + 0))) as [Hv He].
  destruct (shl_align q 0 _) as [mz ez]. cbn [fst snd] in *.
  rewrite Z.add_0_r, fexp_eq in He.
  assert (Hez : ez = Zdigits2 (Zpos q) - 53) by lia. clear He. subst ez.
  replace (0 - (Zdigits2 (Zpos q) - 53)) with (53 - Zdigits2 (Zpos q)) in Hv by lia.
  assert (Hdg : Zdigits2 (Zpos mz) = 53)
    by (rewrite Hv, Zdigits2_mul_pow2 by lia; lia).
  assert (Hn : Z.max 0 (fexp prec emax (Zdigits2 (Zpos mz) + (Zdigits2 (Zpos q) - 53))
                        - (Zdigits2 (Zpos q) - 53)) = 0)
    by (rewrite Hdg, fexp_eq; lia).
  rewrite bra_exact; [|lia|rewrite Hn, Z.pow_0_r; apply Z.mod_1_r].
  rewrite Hn, Z.pow_0_r, Z.div_1_r, Z.add_0_r.
  destruct (Z.leb_spec (Zdigits2 (Zpos q) - 53) 971); [|lia].
  exists mz. split; [reflexivity|assumption].
Qed.

Lemma eighteen_eq : ofZ 18 = S754_finite false 5066549580791808 (-48).
Proof. vm_compute. reflexivity. Qed.

Lemma hundred_eq : ofZ 100 = S754_finite false 7036874417766400 (-46).
Proof. vm_compute. reflexivity. Qed.

Lemma scaled_range (c a x lo hi : Z) :
  0 < c -> x = c * a -> c * lo <= x -> x < c * hi -> lo <= a < hi.
Proof.
  intros Hc -> Hlo Hhi. split.
  - apply (Z.mul_le_mono_pos_l lo a c Hc). assumption.
  - apply (Z.mul_lt_mono_pos_l c a hi Hc). assumption.
Qed.

(** The valid ages, as Numbers, are the integers 18 to 100. *)
Lemma valid_age_ofZ (x : number) :
  is_integer x = true -> leb (ofZ 18) x = true -> leb x (ofZ 100) = true ->
  exists a : Z, 18 <= a <= 100 /\ x = ofZ a.
Proof.
  intros Hi Hlo Hhi.
  destruct x as [s|s| |s m e]; try discriminate.
  assert (s = false) as -> by (destruct s; [discriminate|reflexivity]).
  destruct (integer_shape false m e Hi) as [HD He].
  rewrite eighteen_eq in Hlo. rewrite hundred_eq in Hhi.
  unfold leb, SFleb in Hlo, Hhi. cbn [SFcompare] in Hlo, Hhi.
  rewrite Pos.compare_cont_spec in Hlo, Hhi. cbn [Pos.switch_Eq] in Hlo, Hhi.
  assert (Hlo' : -48 < e \/ (e = -48 /\ 5066549580791808 <= Zpos m)).
  { destruct (Z.compare_spec (-48) e) as [E|E|E]; try discriminate; [right|left; exact E].
    split; [symmetry; exact E|].
    apply Pos2Z.pos_le_pos. intros Hc. rewrite Hc in Hlo. discriminate. }
  assert (Hhi' : e < -46 \/ (e = -46 /\ Zpos m <= 7036874417766400)).
  { destruct (Z.compare_spec e (-46)) as [E|E|E]; try discriminate; [right|left; exact E].
    split; [exact E|].
    apply Pos2Z.pos_le_pos. intros Hc. rewrite Hc in Hhi. discriminate. }
  clear Hlo Hhi.
  assert (Hneg : e < 0) by (clear - Hhi'; lia).
  assert (Hmod : Zpos m mod 2 ^ (- e) = 0).
  { unfold is_integer, toZ in Hi. apply andb_prop in Hi as [_ Hi].
    destruct (Z.leb_spec 0 e); [lia|].
    destruct (Z.eqb_spec (Zpos m mod 2 ^ (- e)) 0); [assumption|discriminate]. }
  clear Hi.
  pose proof (Zdigits2_bounds (Zpos m) ltac:(lia)) as [Hlb Hub]. rewrite HD in Hlb, Hub.
  assert (Hp : 0 < 2 ^ (- e)) by (apply Z.pow_pos_nonneg; lia).
  pose proof (Z.div_mod (Zpos m) (2 ^ (- e)) ltac:(lia)) as Hdiv.
  rewrite Hmod, Z.add_0_r in Hdiv. clear Hmod.
  set (a := Zpos m / 2 ^ (- e)) in *. clearbody a.
  assert (Hcases : 18 <= a < 101 /\ 0 < a).
  { assert (Ee : e = -48 \/ e = -47 \/ e = -46) by (clear - Hlo' Hhi'; lia).
    destruct Ee as [->|[->| ->]].
    - destruct Hlo' as [Hc|[_ Hlo']]; [clear - Hc; lia|].
      pose proof (scaled_range _ _ _ 18 32 Hp Hdiv Hlo' Hub) as Hr.
      clear - Hr. lia.
    - pose proof (scaled_range _ _ _ 32 64 Hp Hdiv Hlb Hub) as Hr.
      clear - Hr. lia.
    - destruct Hhi' as [Hc|[_ Hhi']]; [clear - Hc; lia|].
      assert (Hhi'' : Zpos m < 2 ^ (- -46) * 101)
        by (apply (Z.le_lt_trans _ _ _ Hhi'); reflexivity).
      pose proof (scaled_range _ _ _ 64 101 Hp Hdiv Hlb Hhi'') as Hr.
      clear - Hr. lia. }
  destruct Hcases as [Hr Ha].
  exists a. split; [clear - Hr; lia|].
  destruct a as [|q|q]; try (clear - Ha; lia).
  assert (Hdq : Zdigits2 (Zpos q) = 53 + e).
  { assert (Zdigits2 (Zpos m) = Zdigits2 (Zpos q) + (- e)).
    { rewrite Hdiv, Z.mul_comm. apply Zdigits2_mul_pow2; clear - Hneg; lia. }
    clear - H HD. lia. }
  destruct (ofZ_small q ltac:(clear - Hdq Hneg; lia)) as (mz & -> & Hmz).
  rewrite Hdq in *.
  replace (53 - (53 + e)) with (- e) in Hmz by (clear; lia).
  f_equal; [|clear; lia].
  apply Pos2Z.inj. rewrite Hmz, Hdiv. apply Z.mul_comm.
Qed.

Lemma ages_order_check :
  forallb (fun a => forallb (fun b => implb (leb (ofZ a) (ofZ b)) (a <=? b)) ages) ages
  = true.
Proof. vm_compute. reflexivity. Qed.

Lemma ages_order (a b : Z) :
  18 <= a <= 100 -> 18 <= b <= 100 -> leb (ofZ a) (ofZ b) = true -> a <= b.
Proof.
  intros Ha Hb Hle.
  pose proof ages_order_check as H.
  rewrite forallb_forall in H. specialize (H a (ages_complete a Ha)).
  rewrite forallb_forall in H. specialize (H b (ages_complete b Hb)).
  rewrite Hle in H. cbn [implb] in H. apply Z.leb_le. assumption.
Qed.

End ValidAges.

(** * Monotonicity of the arithmetic *)

(** ** Magnitudes and the order on Numbers *)

Section Magnitudes.

Lemma pow2_pos (k : Z) : 0 <= k -> 0 < 2 ^ k.
Proof. intros H. apply Z.pow_pos_nonneg; lia. Qed.

Lemma pow2_add (a b : Z) : 0 <= a -> 0 <= b -> 2 ^ a * 2 ^ b = 2 ^ (a + b).
Proof. intros Ha Hb. rewrite Z.pow_add_r by assumption. reflexivity. Qed.

Lemma pow2_le (a b : Z) : 0 <= a <= b -> 2 ^ a <= 2 ^ b.
Proof. intros H. apply Z.pow_le_mono_r; lia. Qed.

Lemma pow2_lt (a b : Z) : 0 <= a < b -> 2 ^ a < 2 ^ b.
Proof. intros H. apply Z.pow_lt_mono_r; lia. Qed.

Lemma pow2_succ (a : Z) : 0 <= a -> 2 ^ (a + 1) = 2 * 2 ^ a.
Proof. intros H. rewrite Z.pow_add_r by lia. rewrite Z.pow_1_r. ring. Qed.

Lemma canon_inv (s : bool) (m : positive) (e : Z) :
  is_number (S754_finite s m e) = true ->
  0 < Zdigits2 (Zpos m) <= 53 /\ -1074 <= e <= 971
  /\ (Zdigits2 (Zpos m) = 53 \/ e = -1074).
Proof.
  unfold is_number, valid_binary, bounded, canonical_mantissa.
  rewrite fexp_eq.
  change (Zpos (digits2_pos m)) with (Zdigits2 (Zpos m)).
  change (emax - prec) with 971.
  intros H. apply andb_prop in H as [Hc He].
  apply Z.eqb_eq in Hc. apply Z.leb_le in He.
  pose proof (Zdigits2_pos (Zpos m) ltac:(lia)).
  lia.
Qed.

Lemma canon_intro (s : bool) (m : positive) (e : Z) :
  Zdigits2 (Zpos m) <= 53 -> -1074 <= e <= 971 ->
  (Zdigits2 (Zpos m) = 53 \/ e = -1074) ->
  is_number (S754_finite s m e) = true.
Proof.
  unfold is_number, valid_binary, bounded, canonical_mantissa.
  rewrite fexp_eq.
  change (Zpos (digits2_pos m)) with (Zdigits2 (Zpos m)).
  change (emax - prec) with 971.
  intros Hd He Hc. apply andb_true_intro. split.
  - apply Z.eqb_eq. lia.
  - apply Z.leb_le. lia.
Qed.

Lemma proper_cases (x : number) :
  proper x = true ->
  (exists s, x = S754_zero s) \/ x = S754_infinity false
  \/ exists m e, x = S754_finite false m e /\ is_number (S754_finite false m e) = true.
Proof.
  unfold proper. intros H. apply andb_prop in H as [Hn Hc].
  destruct (nonneg_cases x Hn) as [[s ->]|[->|(m & e & ->)]].
  - left. exists s. reflexivity.
  - right; left. reflexivity.
  - right; right. exists m, e. split; [reflexivity|assumption].
Qed.

Lemma proper_nonneg (x : number) : proper x = true -> nonneg x = true.
Proof. unfold proper. intros H. apply andb_prop in H as [H _]. exact H. Qed.

Lemma proper_not_nan (x : number) : proper x = true -> is_nan x = false.
Proof. intros H. apply nonneg_not_nan, proper_nonneg, H. Qed.

(** The magnitude of a canonical positive Number lies between the powers of
    two its digits and exponent give. *)
Lemma ord_finite_bounds (m : positive) (e : Z) :
  is_number (S754_finite false m e) = true ->
  0 < ord (S754_finite false m e) < 2 ^ 2098
  /\ 2 ^ (Zdigits2 (Zpos m) - 1) * 2 ^ (e + 1074) <= ord (S754_finite false m e)
  /\ ord (S754_finite false m e) < 2 ^ Zdigits2 (Zpos m) * 2 ^ (e + 1074).
Proof.
  intros Hc. destruct (canon_inv _ _ _ Hc) as (Hd & He & _).
  pose proof (Zdigits2_bounds (Zpos m) ltac:(lia)) as [Hlo Hhi].
  cbn [ord].
  assert (Hp : 0 < 2 ^ (e + 1074)) by (apply pow2_pos; lia).
  assert (Hup : Zpos m * 2 ^ (e + 1074) < 2 ^ Zdigits2 (Zpos m) * 2 ^ (e + 1074))
    by (apply Z.mul_lt_mono_pos_r; assumption).
  split; [split|split].
  - apply Z.mul_pos_pos; [lia|assumption].
  - apply Z.lt_le_trans with (1 := Hup).
    rewrite pow2_add by lia. apply pow2_le. lia.
  - apply Z.mul_le_mono_nonneg_r; [lia|assumption].
  - assumption.
Qed.

Lemma ord_range (x : number) : proper x = true -> 0 <= ord x <= 2 ^ 2098.
Proof.
  intros H. destruct (proper_cases x H) as [[s ->]|[->|(m & e & -> & Hc)]].
  - cbn [ord]. split; [lia|apply Z.pow_nonneg; lia].
  - cbn [ord]. split; [apply Z.pow_nonneg; lia|lia].
  - pose proof (ord_finite_bounds m e Hc). lia.
Qed.

Lemma ord_finite_lt (m1 m2 : positive) (e1 e2 : Z) :
  is_number (S754_finite false m1 e1) = true ->
  is_number (S754_finite false m2 e2) = true ->
  e1 < e2 ->
  ord (S754_finite false m1 e1) < ord (S754_finite false m2 e2).
Proof.
  intros H1 H2 Hlt.
  destruct (canon_inv _ _ _ H1) as (Hd1 & He1 & _).
  destruct (canon_inv _ _ _ H2) as (Hd2 & He2 & Hn2).
  destruct (ord_finite_bounds m1 e1 H1) as (_ & _ & Hu).
  destruct (ord_finite_bounds m2 e2 H2) as (_ & Hl & _).
  assert (Hd : Zdigits2 (Zpos m2) = 53) by lia.
  rewrite Hd in Hl.
  apply Z.lt_le_trans with (1 := Hu).
  apply Z.le_trans with (2 := Hl).
  rewrite !pow2_add by lia. apply pow2_le. lia.
Qed.

(** On proper Numbers the comparison of the runtime is the comparison of
    magnitudes. *)
Lemma SFcompare_ord (x y : number) :
  proper x = true -> proper y = true ->
  SFcompare x y = Some (ord x ?= ord y).
Proof.
  intros Hx Hy.
  destruct (proper_cases x Hx) as [[sx ->]|[->|(m1 & e1 & -> & H1)]];
    destruct (proper_cases y Hy) as [[sy ->]|[->|(m2 & e2 & -> & H2)]].
  - reflexivity.
  - reflexivity.
  - pose proof (ord_finite_bounds m2 e2 H2) as [[Hp _] _].
    cbn [SFcompare]. f_equal. symmetry. apply Z.compare_lt_iff. exact Hp.
  - reflexivity.
  - reflexivity.
  - pose proof (ord_finite_bounds m2 e2 H2) as [[_ Hp] _].
    cbn [SFcompare]. f_equal. symmetry. apply Z.compare_gt_iff. exact Hp.
  - pose proof (ord_finite_bounds m1 e1 H1) as [[Hp _] _].
    cbn [SFcompare]. f_equal. symmetry. apply Z.compare_gt_iff. exact Hp.
  - pose proof (ord_finite_bounds m1 e1 H1) as [[_ Hp] _].
    cbn [SFcompare]. f_equal. symmetry. apply Z.compare_lt_iff. exact Hp.
  - cbn [SFcompare]. f_equal.
    destruct (Z.compare_spec e1 e2) as [He|He|He].
    + subst e2. rewrite Pos.compare_cont_spec. cbn [Pos.switch_Eq].
      destruct (canon_inv _ _ _ H1) as (_ & He1 & _).
      assert (Hp : 0 < 2 ^ (e1 + 1074)) by (apply pow2_pos; lia).
      cbn [ord]. symmetry.
      destruct (Pos.compare_spec m1 m2) as [E|E|E].
      * subst m2. apply Z.compare_refl.
      * apply Z.compare_lt_iff. apply Z.mul_lt_mono_pos_r; [assumption|lia].
      * apply Z.compare_gt_iff. apply Z.mul_lt_mono_pos_r; [assumption|lia].
    + symmetry. apply Z.compare_lt_iff. apply ord_finite_lt; assumption.
    + symmetry. apply Z.compare_gt_iff. apply ord_finite_lt; assumption.
Qed.

Lemma leb_ord (x y : number) :
  proper x = true -> proper y = true ->
  leb x y = true <-> ord x <= ord y.
Proof.
  intros Hx Hy. unfold leb, SFleb. rewrite (SFcompare_ord x y Hx Hy).
  destruct (Z.compare_spec (ord x) (ord y)); split; intros; try lia;
    try reflexivity; discriminate.
Qed.

Lemma ltb_ord (x y : number) :
  proper x = true -> proper y = true ->
  ltb x y = true <-> ord x < ord y.
Proof.
  intros Hx Hy. unfold ltb, SFltb. rewrite (SFcompare_ord x y Hx Hy).
  destruct (Z.compare_spec (ord x) (ord y)); split; intros; try lia;
    try reflexivity; discriminate.
Qed.

Lemma Math_max_ord (x y : number) :
  proper x = true -> proper y = true ->
  ord (Math_max x y) = Z.max (ord x) (ord y) /\ proper (Math_max x y) = true.
Proof.
  intros Hx Hy. unfold Math_max.
  rewrite (proper_not_nan x Hx), (proper_not_nan y Hy). cbn [orb].
  rewrite (SFcompare_ord x y Hx Hy).
  destruct (Z.compare_spec (ord x) (ord y)) as [E|E|E].
  - destruct (is_neg_zero x); split; try assumption; lia.
  - split; [lia|assumption].
  - split; [lia|assumption].
Qed.

Lemma Math_min_ord (x y : number) :
  proper x = true -> proper y = true ->
  ord (Math_min x y) = Z.min (ord x) (ord y) /\ proper (Math_min x y) = true.
Proof.
  intros Hx Hy. unfold Math_min.
  rewrite (proper_not_nan x Hx), (proper_not_nan y Hy). cbn [orb].
  rewrite (SFcompare_ord x y Hx Hy).
  destruct (Z.compare_spec (ord x) (ord y)) as [E|E|E].
  - destruct (is_neg_zero y); split; try assumption; lia.
  - split; [lia|assumption].
  - split; [lia|assumption].
Qed.

End Magnitudes.

(** ** Rounding to nearest as a function of the exact quotient *)

Section Nearest.

Lemma loc_of_scale (r B k : Z) : 0 < k -> loc_of (r * k) (B * k) = loc_of r B.
Proof.
  intros Hk. unfold loc_of.
  destruct (Z.eqb_spec r 0) as [->|Hr]; [reflexivity|].
  destruct (Z.eqb_spec (r * k) 0) as [E|_]; [nia|].
  f_equal.
  destruct (Z.compare_spec (2 * r) B) as [E|E|E];
    destruct (Z.compare_spec (2 * (r * k)) (B * k)) as [F|F|F];
    try reflexivity; exfalso; nia.
Qed.

Lemma rne_scale (A B k : Z) : 0 < B -> 0 < k -> rne (A * k) (B * k) = rne A B.
Proof.
  intros HB Hk. unfold rne.
  rewrite Z.div_mul_cancel_r, Z.mul_mod_distr_r, loc_of_scale by lia.
  reflexivity.
Qed.

Lemma rne_exact (k B : Z) : 0 < B -> rne (k * B) B = k.
Proof.
  intros HB. unfold rne. rewrite Z.div_mul, Z.mod_mul by lia. reflexivity.
Qed.

Lemma rne_near (A B : Z) : A / B <= rne A B <= A / B + 1.
Proof. apply rne_bounds. Qed.

Lemma rne_mono (A A' B : Z) : 0 < B -> A <= A' -> rne A B <= rne A' B.
Proof.
  intros HB Hle.
  pose proof (Z.div_le_mono A A' B HB Hle) as Hq.
  destruct (Z.eq_dec (A / B) (A' / B)) as [E|NE].
  - assert (Hr : A mod B <= A' mod B).
    { rewrite (Z.mod_eq A B), (Z.mod_eq A' B), E by lia. lia. }
    pose proof (Z.mod_pos_bound A B HB) as H1.
    pose proof (Z.mod_pos_bound A' B HB) as H2.
    unfold rne, loc_of. rewrite <- E.
    destruct (Z.eqb_spec (A mod B) 0) as [Z1|Z1];
      destruct (Z.eqb_spec (A' mod B) 0) as [Z2|Z2];
      cbn [round_nearest_even];
      try destruct (Z.compare_spec (2 * (A mod B)) B);
      try destruct (Z.compare_spec (2 * (A' mod B)) B);
      try destruct (Z.even (A / B)); lia.
  - pose proof (rne_near A B). pose proof (rne_near A' B). lia.
Qed.

Lemma rne_le (A B K : Z) : 0 < B -> A <= K * B -> rne A B <= K.
Proof.
  intros HB H. rewrite <- (rne_exact K B HB). apply rne_mono; assumption.
Qed.

Lemma rne_ge (A B K : Z) : 0 < B -> K * B <= A -> K <= rne A B.
Proof.
  intros HB H. rewrite <- (rne_exact K B HB). apply rne_mono; assumption.
Qed.

Lemma rep_init (A B : Z) :
  rep A B (shr_record_of_loc (A / B) (loc_of (A mod B) B)).
Proof.
  split; [apply shr_record_of_loc_m|].
  destruct (loc_of (A mod B) B) as [|[ | | ]]; reflexivity.
Qed.

Lemma shr_1_spec (m : Z) (rb sb : bool) :
  0 <= m ->
  shr_1 (Build_shr_record m rb sb) = Build_shr_record (m / 2) (Z.odd m) (rb || sb).
Proof.
  intros Hm.
  pose proof (shr_1_m (Build_shr_record m rb sb) Hm) as E. cbn [shr_m] in E.
  rewrite <- E. destruct m as [|[p|p|]|p]; try lia; reflexivity.
Qed.

Lemma rep_shr_1 (A B : Z) (r : shr_record) :
  0 <= A -> 0 < B -> rep A B r -> rep A (B * 2) (shr_1 r).
Proof.
  intros HA HB [Hm Hl]. destruct r as [m rb sb]. cbn [shr_m] in Hm.
  assert (Hm0 : 0 <= m) by (rewrite Hm; apply Z.div_pos; lia).
  rewrite shr_1_spec by assumption. split.
  - cbn [shr_m]. rewrite Hm, Z.div_div by lia. reflexivity.
  - pose proof (Z.mod_pos_bound A B HB) as HR.
    assert (HR' : A mod (B * 2) = A mod B + B * (m mod 2))
      by (rewrite Hm; apply Z.rem_mul_r; lia).
    rewrite HR', Zmod_odd.
    assert (Hs : (rb || sb)%bool = negb (A mod B =? 0)).
    { unfold loc_of in Hl.
      destruct rb, sb, (A mod B =? 0); cbn in Hl |- *; congruence. }
    rewrite Hs. unfold loc_of.
    destruct (Z.odd m); destruct (Z.eqb_spec (A mod B) 0) as [Z1|Z1];
      cbn [negb loc_of_shr_record];
      match goal with
      | |- context [?x =? 0] => destruct (Z.eqb_spec x 0); try lia
      end;
      try reflexivity;
      match goal with
      | |- context [?x ?= ?y] => destruct (Z.compare_spec x y); try lia
      end;
      reflexivity.
Qed.

Lemma rep_iter (n : positive) :
  forall (A B : Z) (r : shr_record),
    0 <= A -> 0 < B -> rep A B r -> rep A (B * 2 ^ Zpos n) (iter_pos shr_1 n r).
Proof.
  assert (Hnn : forall k, 0 < 2 ^ Zpos k) by (intros; apply Z.pow_pos_nonneg; lia).
  induction n as [n IH|n IH|]; intros A B r HA HB Hr; cbn [iter_pos].
  - pose proof (Hnn n).
    replace (B * 2 ^ Zpos n~1) with (B * 2 * 2 ^ Zpos n * 2 ^ Zpos n)
      by (rewrite pow2_xI; ring).
    apply IH; [assumption|nia|].
    apply IH; [assumption|lia|].
    apply rep_shr_1; assumption.
  - pose proof (Hnn n).
    replace (B * 2 ^ Zpos n~0) with (B * 2 ^ Zpos n * 2 ^ Zpos n)
      by (rewrite pow2_xO; ring).
    apply IH; [assumption|nia|].
    apply IH; assumption.
  - rewrite Z.pow_1_r. apply rep_shr_1; assumption.
Qed.

(** Rounding the quotient [A / B] at exponent [ex], given with the location
    of its remainder: the mantissa is the integer nearest to the quotient
    once shifted to the target exponent. *)
Lemma bra_rne (sx : bool) (A B ex : Z) :
  0 <= A -> 0 < B ->
  binary_round_aux prec emax sx (A / B) ex (loc_of (A mod B) B)
  = finish_round sx
      (rne A (B * 2 ^ Z.max 0 (fexp prec emax (Zdigits2 (A / B) + ex) - ex)))
      (ex + Z.max 0 (fexp prec emax (Zdigits2 (A / B) + ex) - ex)).
Proof.
  intros HA HB.
  assert (Hq : 0 <= A / B) by (apply Z.div_pos; lia).
  rewrite bra_unfold by assumption. f_equal.
  unfold shr_fexp, shr.
  pose proof (rep_init A B) as Hr.
  destruct (fexp prec emax (Zdigits2 (A / B) + ex) - ex) as [|p|p]; cbn [fst].
  - cbn [Z.max]. rewrite Z.pow_0_r, Z.mul_1_r.
    destruct Hr as [-> ->]. reflexivity.
  - replace (Z.max 0 (Zpos p)) with (Zpos p) by lia.
    destruct (rep_iter p A B _ HA HB Hr) as [-> ->]. reflexivity.
  - replace (Z.max 0 (Zneg p)) with 0 by lia. rewrite Z.pow_0_r, Z.mul_1_r.
    destruct Hr as [-> ->]. reflexivity.
Qed.

End Nearest.

(** ** The magnitude of a rounded result *)

Section RoundedMagnitude.

Lemma Zdigits2_nonneg (m : Z) : 0 <= m -> 0 <= Zdigits2 m.
Proof.
  intros H. destruct (Z.eq_dec m 0) as [->|]; [simpl; lia|].
  pose proof (Zdigits2_pos m ltac:(lia)). lia.
Qed.

Lemma Zdigits2_mono0 (a b : Z) : 0 <= a <= b -> Zdigits2 a <= Zdigits2 b.
Proof.
  intros [Ha Hab]. destruct (Z.eq_dec a 0) as [->|].
  - apply Zdigits2_nonneg. lia.
  - apply Zdigits2_mono; lia.
Qed.

Lemma Zdigits2_eq (m k : Z) : 0 < k -> 2 ^ (k - 1) <= m < 2 ^ k -> Zdigits2 m = k.
Proof.
  intros Hk [Hl Hu].
  assert (0 < 2 ^ (k - 1)) by (apply pow2_pos; lia).
  pose proof (Zdigits2_le m k ltac:(lia) Hu).
  pose proof (Zdigits2_ge m (k - 1) ltac:(lia) Hl).
  lia.
Qed.

Lemma ord_finish (m2 e1 : Z) :
  0 <= m2 <= 2 ^ 53 -> -1074 <= e1 -> (e1 = -1074 \/ 2 ^ 52 <= m2) ->
  ord (finish_round false m2 e1) = Z.min (m2 * 2 ^ (e1 + 1074)) (2 ^ 2098)
  /\ proper (finish_round false m2 e1) = true.
Proof.
  intros [Hm0 Hm] He Hn.
  assert (HT : 0 < 2 ^ 2098) by (apply pow2_pos; lia).
  assert (Hp : 0 < 2 ^ (e1 + 1074)) by (apply pow2_pos; lia).
  unfold finish_round. rewrite fexp_eq.
  change (emax - prec) with 971.
  destruct (Z.eq_dec m2 0) as [->|Hnz].
  { cbn [Zdigits2]. rewrite Z.div_0_l by (apply Z.pow_nonzero; lia).
    cbn [ord]. split; [rewrite Z.mul_0_l; lia|reflexivity]. }
  assert (Hpos : 0 < m2) by lia.
  pose proof (Zdigits2_pos m2 Hpos) as Hd0.
  destruct (Z.eq_dec m2 (2 ^ 53)) as [E|NE].
  - assert (Hd : Zdigits2 m2 = 54)
      by (apply Zdigits2_eq; [lia|rewrite E; split; [reflexivity|apply pow2_lt; lia]]).
    rewrite Hd.
    replace (Z.max 0 (Z.max (54 + e1 - 53) (-1074) - e1)) with 1 by lia.
    rewrite E. change (2 ^ 53 / 2 ^ 1) with (Zpos (2 ^ 52)).
    destruct (Z.leb_spec (e1 + 1) 971) as [Hle|Hgt].
    + cbn [ord]. split.
      * change (Zpos (2 ^ 52)) with (2 ^ 52).
        replace (e1 + 1 + 1074) with (e1 + 1074 + 1) by lia.
        rewrite pow2_succ by lia.
        replace (2 ^ 52 * (2 * 2 ^ (e1 + 1074))) with (2 ^ 53 * 2 ^ (e1 + 1074))
          by (change (2 ^ 53) with (2 ^ 52 * 2); ring).
        rewrite Z.min_l; [reflexivity|].
        rewrite pow2_add by lia. apply pow2_le. lia.
      * unfold proper. apply andb_true_intro. split; [reflexivity|].
        apply canon_intro; [vm_compute; discriminate|lia|left; reflexivity].
    + cbn [ord]. split; [|reflexivity].
      rewrite Z.min_r; [reflexivity|].
      rewrite pow2_add by lia. apply pow2_le. lia.
  - assert (Hlt : m2 < 2 ^ 53) by lia.
    pose proof (Zdigits2_le m2 53 Hpos Hlt) as Hd.
    replace (Z.max 0 (Z.max (Zdigits2 m2 + e1 - 53) (-1074) - e1)) with 0 by lia.
    rewrite Z.pow_0_r, Z.div_1_r, Z.add_0_r.
    destruct m2 as [|p|p]; try lia.
    destruct (Z.leb_spec e1 971) as [Hle|Hgt].
    + cbn [ord]. split.
      * rewrite Z.min_l; [reflexivity|].
        apply Z.lt_le_incl.
        apply Z.lt_le_trans with (2 ^ 53 * 2 ^ (e1 + 1074)).
        -- apply Z.mul_lt_mono_pos_r; assumption.
        -- rewrite pow2_add by lia. apply pow2_le. lia.
      * unfold proper. apply andb_true_intro. split; [reflexivity|].
        apply canon_intro; [assumption|lia|].
        destruct Hn as [->|Hn]; [right; reflexivity|left].
        apply Zdigits2_eq; [lia|split; assumption].
    + cbn [ord]. split; [|reflexivity].
      destruct Hn as [->|Hn]; [lia|].
      rewrite Z.min_r; [reflexivity|].
      apply Z.le_trans with (2 ^ 52 * 2 ^ (e1 + 1074)).
      * rewrite pow2_add by lia. apply pow2_le. lia.
      * apply Z.mul_le_mono_nonneg_r; lia.
Qed.

Lemma round53_scale (P Q c : Z) :
  0 < Q -> 0 < c -> round53 (P * c) (Q * c) = round53 P Q.
Proof.
  intros HQ Hc. unfold round53.
  rewrite Z.div_mul_cancel_r by lia.
  set (k := Z.max (Zdigits2 (P / Q) - 53) 0).
  assert (Hk : 0 < 2 ^ k) by (apply pow2_pos; unfold k; lia).
  replace (Q * c * 2 ^ k) with (Q * 2 ^ k * c) by ring.
  rewrite rne_scale by nia. reflexivity.
Qed.

Lemma round53_ext (P Q P' Q' : Z) :
  0 < Q -> 0 < Q' -> P * Q' = P' * Q -> round53 P Q = round53 P' Q'.
Proof.
  intros HQ HQ' E.
  rewrite <- (round53_scale P Q Q'), <- (round53_scale P' Q' Q) by assumption.
  rewrite E. f_equal. ring.
Qed.

Lemma round53_mono_same (P P' Q : Z) :
  0 <= P <= P' -> 0 < Q -> round53 P Q <= round53 P' Q.
Proof.
  intros [HP Hle] HQ. unfold round53.
  assert (Hq : 0 <= P / Q) by (apply Z.div_pos; lia).
  assert (Hqq : P / Q <= P' / Q) by (apply Z.div_le_mono; lia).
  pose proof (Zdigits2_mono0 (P / Q) (P' / Q) (conj Hq Hqq)) as Hd.
  pose proof (Zdigits2_nonneg (P / Q) Hq) as Hd0.
  set (d := Zdigits2 (P / Q)) in *. set (d' := Zdigits2 (P' / Q)) in *.
  set (k := Z.max (d - 53) 0). set (k' := Z.max (d' - 53) 0).
  assert (Hk : 0 < 2 ^ k) by (apply pow2_pos; unfold k; lia).
  assert (Hk' : 0 < 2 ^ k') by (apply pow2_pos; unfold k'; lia).
  apply Z.min_le_compat_r.
  destruct (Z.eq_dec k k') as [E|NE].
  - rewrite <- E. apply Z.mul_le_mono_nonneg_r; [lia|].
    apply rne_mono; [nia|assumption].
  - assert (Hkk : k + 1 <= k') by (unfold k, k' in *; lia).
    assert (Hd' : d' = k' + 53) by (unfold k, k' in *; lia).
    apply Z.le_trans with (2 ^ 53 * 2 ^ k).
    + apply Z.mul_le_mono_nonneg_r; [lia|].
      apply rne_le; [nia|].
      (* P < 2^d * Q <= 2^53 * 2^k * Q *)
      assert (Hlt : P / Q < 2 ^ d).
      { destruct (Z.eq_dec (P / Q) 0) as [Z0|NZ].
        - rewrite Z0. apply pow2_pos. assumption.
        - apply (Zdigits2_bounds (P / Q)). lia. }
      assert (HPlt : P < 2 ^ d * Q).
      { pose proof (Z.mul_succ_div_gt P Q HQ). nia. }
      assert (H2d : 2 ^ d <= 2 ^ 53 * 2 ^ k).
      { rewrite pow2_add by (unfold k; lia). apply pow2_le. unfold k. lia. }
      apply Z.le_trans with (2 ^ d * Q); [lia|].
      replace (2 ^ 53 * (Q * 2 ^ k)) with (2 ^ 53 * 2 ^ k * Q) by ring.
      apply Z.mul_le_mono_nonneg_r; lia.
    + apply Z.le_trans with (2 ^ 52 * 2 ^ k').
      * rewrite !pow2_add by (unfold k, k'; lia). apply pow2_le.
        unfold k, k' in *; lia.
      * apply Z.mul_le_mono_nonneg_r; [lia|].
        apply rne_ge; [nia|].
        assert (Hq' : 0 < P' / Q).
        { destruct (Z.eq_dec (P' / Q) 0) as [Z0|NZ]; [|lia].
          exfalso. unfold d' in Hd'. rewrite Z0 in Hd'. cbn [Zdigits2] in Hd'.
          unfold k' in Hd'. lia. }
        pose proof (Zdigits2_bounds (P' / Q) Hq') as [Hlo _].
        fold d' in Hlo. rewrite Hd' in Hlo.
        replace (k' + 53 - 1) with (52 + k') in Hlo by lia.
        rewrite <- pow2_add in Hlo by (unfold k'; lia).
        pose proof (Z.mul_div_le P' Q HQ) as Hfl.
        replace (2 ^ 52 * (Q * 2 ^ k')) with (Q * (2 ^ 52 * 2 ^ k')) by ring.
        apply Z.le_trans with (Q * (P' / Q)); [|assumption].
        apply Z.mul_le_mono_nonneg_l; lia.
Qed.

Lemma round53_mono (P Q P' Q' : Z) :
  0 <= P -> 0 < Q -> 0 < Q' -> P * Q' <= P' * Q ->
  round53 P Q <= round53 P' Q'.
Proof.
  intros HP HQ HQ' Hle.
  rewrite <- (round53_scale P Q Q'), <- (round53_scale P' Q' Q) by assumption.
  replace (Q' * Q) with (Q * Q') by ring.
  apply round53_mono_same; [|nia].
  split; [nia|assumption].
Qed.

Lemma round53_zero (Q : Z) : 0 < Q -> round53 0 Q = 0.
Proof.
  intros HQ. unfold round53. rewrite Z.div_0_l by lia. cbn [Zdigits2].
  change (Z.max (0 - 53) 0) with 0. rewrite Z.pow_0_r, Z.mul_1_r.
  replace (rne 0 Q) with 0 by (symmetry; exact (rne_exact 0 Q HQ)).
  reflexivity.
Qed.

Lemma round53_range (P Q : Z) : 0 <= P -> 0 < Q -> 0 <= round53 P Q <= 2 ^ 2098.
Proof.
  intros HP HQ. split.
  - rewrite <- (round53_zero Q HQ). apply round53_mono_same; lia.
  - unfold round53. apply Z.le_min_r.
Qed.

End RoundedMagnitude.

Section RoundedValue.

Lemma quotient_bounds (A B : Z) :
  0 <= A -> 0 < B ->
  0 <= A / B /\ A / B * B <= A /\ A < 2 ^ Zdigits2 (A / B) * B
  /\ (0 < A / B -> 2 ^ (Zdigits2 (A / B) - 1) * B <= A).
Proof.
  intros HA HB.
  assert (Hq : 0 <= A / B) by (apply Z.div_pos; lia).
  pose proof (Z.mul_div_le A B HB) as Hlo.
  pose proof (Z.mul_succ_div_gt A B HB) as Hhi.
  split; [assumption|]. split; [lia|]. split.
  - destruct (Z.eq_dec (A / B) 0) as [E|NE].
    + rewrite E in *. cbn [Zdigits2]. lia.
    + pose proof (Zdigits2_bounds (A / B) ltac:(lia)) as [_ Hu].
      apply Z.lt_le_trans with (1 := Hhi).
      rewrite (Z.mul_comm B). apply Z.mul_le_mono_nonneg_r; lia.
  - intros Hpos. pose proof (Zdigits2_bounds (A / B) Hpos) as [Hl _].
    apply Z.le_trans with (A / B * B); [|lia].
    apply Z.mul_le_mono_nonneg_r; lia.
Qed.

(** The magnitude of the rounded quotient [A / B] at exponent [ex] is the
    rounding of its exact value; the result is a proper Number. The
    quotient must come with full precision: its exponent is not above the
    one rounding aims at. *)
Lemma bra_ord (A B ex : Z) :
  0 <= A -> 0 < B ->
  ex <= fexp prec emax (Zdigits2 (A / B) + ex) ->
  ord (binary_round_aux prec emax false (A / B) ex (loc_of (A mod B) B))
  = round53 (A * 2 ^ Z.max 0 (ex + 1074)) (B * 2 ^ Z.max 0 (- (ex + 1074)))
  /\ proper (binary_round_aux prec emax false (A / B) ex (loc_of (A mod B) B)) = true.
Proof.
  intros HA HB Hprec.
  rewrite bra_rne by assumption.
  destruct (quotient_bounds A B HA HB) as (Hq & Hlo & Hhi & Hnorm).
  pose proof (Zdigits2_nonneg (A / B) Hq) as Hd0.
  assert (Hdz : A / B = 0 -> Zdigits2 (A / B) = 0) by (intros ->; reflexivity).
  rewrite fexp_eq in *.
  set (mx := A / B) in *. set (d := Zdigits2 mx) in *.
  set (t := ex + 1074).
  set (k := Z.max (d + t - 53) 0).
  assert (Hk0 : 0 <= k) by (unfold k; lia).
  assert (Hn : Z.max 0 (Z.max (d + ex - 53) (-1074) - ex) = k - t)
    by (unfold k, t; lia).
  assert (Hnt : 0 <= k - t) by (unfold k, t in *; lia).
  assert (He : ex + (k - t) = k - 1074) by (unfold t; lia).
  rewrite Hn, He.
  assert (Hkp : 0 < 2 ^ k) by (apply pow2_pos; assumption).
  assert (Hnp : 0 < 2 ^ (k - t)) by (apply pow2_pos; assumption).
  assert (Hmz : mx = 0 -> t <= 0) by (intros Z0; specialize (Hdz Z0); unfold t; lia).
  assert (HBn : 0 < B * 2 ^ (k - t)) by (apply Z.mul_pos_pos; assumption).
  (* the rounded mantissa *)
  assert (Hfin : ord (finish_round false (rne A (B * 2 ^ (k - t))) (k - 1074))
                 = Z.min (rne A (B * 2 ^ (k - t)) * 2 ^ (k - 1074 + 1074)) (2 ^ 2098)
                 /\ proper (finish_round false (rne A (B * 2 ^ (k - t))) (k - 1074)) = true).
  { apply ord_finish.
    - split.
      + apply rne_ge; [assumption|lia].
      + apply rne_le; [assumption|].
        apply Z.le_trans with (2 ^ d * B); [lia|].
        replace (2 ^ 53 * (B * 2 ^ (k - t))) with (2 ^ 53 * 2 ^ (k - t) * B) by ring.
        apply Z.mul_le_mono_nonneg_r; [lia|].
        rewrite pow2_add by lia. apply pow2_le. unfold k, t in *. lia.
    - lia.
    - destruct (Z.eq_dec k 0) as [Z0|NZ]; [left; lia|right].
      assert (Hk : k = d + t - 53) by (unfold k in *; lia).
      assert (Hpos : 0 < mx).
      { destruct (Z.eq_dec mx 0) as [Z0|]; [|lia].
        specialize (Hdz Z0). specialize (Hmz Z0). lia. }
      apply rne_ge; [assumption|].
      apply Z.le_trans with (2 ^ (d - 1) * B); [|auto].
      replace (2 ^ 52 * (B * 2 ^ (k - t))) with (2 ^ 52 * 2 ^ (k - t) * B) by ring.
      apply Z.mul_le_mono_nonneg_r; [lia|].
      rewrite pow2_add by lia. apply pow2_le. lia. }
  destruct Hfin as [Hord Hproper]. split; [|assumption].
  rewrite Hord. replace (k - 1074 + 1074) with k by lia.
  unfold round53.
  (* the digits of the value *)
  assert (HD : Z.max (Zdigits2 (A * 2 ^ Z.max 0 t / (B * 2 ^ Z.max 0 (- t))) - 53) 0 = k).
  { destruct (Z_le_gt_dec 0 t) as [Ht|Ht].
    - replace (Z.max 0 t) with t by lia. replace (Z.max 0 (- t)) with 0 by lia.
      rewrite Z.pow_0_r, Z.mul_1_r.
      assert (Htp : 0 < 2 ^ t) by (apply pow2_pos; assumption).
      destruct (Z.eq_dec mx 0) as [Z0|NZ].
      + specialize (Hmz Z0). assert (t = 0) by lia.
        replace t with 0 by lia. rewrite Z.pow_0_r, Z.mul_1_r.
        fold mx. rewrite Z0. cbn [Zdigits2].
        specialize (Hdz Z0). unfold k. lia.
      + assert (Hpos : 0 < mx) by lia. specialize (Hnorm Hpos).
        pose proof (Zdigits2_pos mx Hpos) as Hdp. fold d in Hdp.
        assert (Hdd : Zdigits2 (A * 2 ^ t / B) = d + t).
        { apply Zdigits2_eq; [lia|]. split.
          - apply Z.div_le_lower_bound; [assumption|].
            replace (d + t - 1) with (d - 1 + t) by lia.
            rewrite <- pow2_add by lia.
            replace (B * (2 ^ (d - 1) * 2 ^ t)) with (2 ^ (d - 1) * B * 2 ^ t) by ring.
            apply Z.mul_le_mono_nonneg_r; lia.
          - apply Z.div_lt_upper_bound; [assumption|].
            rewrite <- pow2_add by lia.
            replace (B * (2 ^ d * 2 ^ t)) with (2 ^ d * B * 2 ^ t) by ring.
            apply Z.mul_lt_mono_pos_r; assumption. }
        rewrite Hdd. unfold k. lia.
    - replace (Z.max 0 t) with 0 by lia. replace (Z.max 0 (- t)) with (- t) by lia.
      rewrite Z.pow_0_r, Z.mul_1_r.
      assert (Htp : 0 < 2 ^ (- t)) by (apply pow2_pos; lia).
      rewrite <- Z.div_div by lia. fold mx.
      destruct (Z_le_gt_dec (2 ^ (- t)) mx) as [Hbig|Hsmall].
      + rewrite Zdigits2_div_pow2 by lia. fold d. unfold k. lia.
      + rewrite Z.div_small by lia. cbn [Zdigits2].
        assert (d <= - t).
        { destruct (Z.eq_dec mx 0) as [Z0|NZ]; [specialize (Hdz Z0); lia|].
          apply Zdigits2_le; lia. }
        unfold k. lia. }
  rewrite HD. f_equal. f_equal.
  (* the same quotient on both sides *)
  destruct (Z_le_gt_dec 0 t) as [Ht|Ht].
  - replace (Z.max 0 t) with t by lia. replace (Z.max 0 (- t)) with 0 by lia.
    rewrite Z.pow_0_r, Z.mul_1_r.
    assert (Htp : 0 < 2 ^ t) by (apply pow2_pos; assumption).
    replace (B * 2 ^ k) with (B * 2 ^ (k - t) * 2 ^ t).
    + rewrite rne_scale by assumption. reflexivity.
    + rewrite <- Z.mul_assoc, pow2_add by lia. f_equal. f_equal. lia.
  - replace (Z.max 0 t) with 0 by lia. replace (Z.max 0 (- t)) with (- t) by lia.
    rewrite Z.pow_0_r, Z.mul_1_r.
    rewrite <- Z.mul_assoc, pow2_add by lia.
    f_equal. f_equal. f_equal. lia.
Qed.

End RoundedValue.

(** ** The operations on magnitudes *)

Section Operations.

Lemma pow2_eq (a b : Z) : a = b -> 2 ^ a = 2 ^ b.
Proof. intros ->. reflexivity. Qed.

Lemma digits_mul_ge (m1 m2 : positive) :
  Zdigits2 (Zpos m1) + Zdigits2 (Zpos m2) - 1 <= Zdigits2 (Zpos m1 * Zpos m2).
Proof.
  pose proof (Zdigits2_bounds (Zpos m1) ltac:(lia)) as [H1 _].
  pose proof (Zdigits2_bounds (Zpos m2) ltac:(lia)) as [H2 _].
  pose proof (Zdigits2_pos (Zpos m1) ltac:(lia)) as D1.
  pose proof (Zdigits2_pos (Zpos m2) ltac:(lia)) as D2.
  assert (H : 2 ^ (Zdigits2 (Zpos m1) - 1 + (Zdigits2 (Zpos m2) - 1))
              <= Zpos m1 * Zpos m2).
  { rewrite <- pow2_add by lia.
    apply Z.mul_le_mono_nonneg; try assumption; apply Z.pow_nonneg; lia. }
  pose proof (Zdigits2_ge (Zpos m1 * Zpos m2)
                (Zdigits2 (Zpos m1) - 1 + (Zdigits2 (Zpos m2) - 1)) ltac:(lia) H).
  lia.
Qed.

Lemma mul_ord_finite (m1 m2 : positive) (e1 e2 : Z) :
  is_number (S754_finite false m1 e1) = true ->
  is_number (S754_finite false m2 e2) = true ->
  ord (mul (S754_finite false m1 e1) (S754_finite false m2 e2))
  = round53 (ord (S754_finite false m1 e1) * ord (S754_finite false m2 e2)) (2 ^ 1074)
  /\ proper (mul (S754_finite false m1 e1) (S754_finite false m2 e2)) = true.
Proof.
  intros H1 H2.
  destruct (canon_inv _ _ _ H1) as (Hd1 & He1 & Hn1).
  destruct (canon_inv _ _ _ H2) as (Hd2 & He2 & Hn2).
  unfold mul, SFmul. cbn [xorb ord]. rewrite Pos2Z.inj_mul.
  pose proof (digits_mul_ge m1 m2) as HD.
  set (A := Zpos m1 * Zpos m2) in *.
  assert (HA : 0 < A) by (unfold A; lia).
  pose proof (bra_ord A 1 (e1 + e2) ltac:(lia) ltac:(lia)) as Hb.
  rewrite Z.div_1_r, Z.mod_1_r in Hb. change (loc_of 0 1) with loc_Exact in Hb.
  destruct Hb as [Ho Hp]; [rewrite fexp_eq; lia|].
  split; [|assumption]. rewrite Ho.
  set (t := e1 + e2 + 1074).
  apply round53_ext.
  - rewrite Z.mul_1_l. apply pow2_pos. lia.
  - apply pow2_pos. lia.
  - assert (E : 2 ^ Z.max 0 t * 2 ^ 1074
                = 2 ^ (e1 + 1074) * 2 ^ (e2 + 1074) * 2 ^ Z.max 0 (- t)).
    { rewrite !pow2_add by lia. apply pow2_eq. unfold t. lia. }
    transitivity (A * (2 ^ Z.max 0 t * 2 ^ 1074)); [ring|].
    rewrite E. unfold A. ring.
Qed.

Lemma new_location_loc_of (B r : Z) :
  0 < B -> 0 <= r < B -> new_location B r = loc_of r B.
Proof.
  intros HB Hr. unfold new_location, new_location_even, new_location_odd, loc_of.
  destruct (Z.even B) eqn:Ev; [reflexivity|].
  destruct (Z.eqb_spec r 0) as [|NZ]; [reflexivity|]. f_equal.
  assert (Hodd : Z.odd B = true) by (rewrite <- Z.negb_even, Ev; reflexivity).
  apply Z.odd_spec in Hodd as [j Hj].
  destruct (Z.compare_spec (2 * r + 1) B); destruct (Z.compare_spec (2 * r) B);
    try reflexivity; lia.
Qed.

Lemma div_ord_finite (m1 m2 : positive) (e1 e2 : Z) :
  is_number (S754_finite false m1 e1) = true ->
  is_number (S754_finite false m2 e2) = true ->
  ord (div (S754_finite false m1 e1) (S754_finite false m2 e2))
  = round53 (ord (S754_finite false m1 e1) * 2 ^ 1074) (ord (S754_finite false m2 e2))
  /\ proper (div (S754_finite false m1 e1) (S754_finite false m2 e2)) = true.
Proof.
  intros H1 H2.
  destruct (canon_inv _ _ _ H1) as (Hd1 & He1 & Hn1).
  destruct (canon_inv _ _ _ H2) as (Hd2 & He2 & Hn2).
  pose proof (Zdigits2_bounds (Zpos m1) ltac:(lia)) as [Hl1 Hu1].
  pose proof (Zdigits2_bounds (Zpos m2) ltac:(lia)) as [Hl2 Hu2].
  unfold div, SFdiv, SFdiv_core_binary. cbn [xorb ord].
  rewrite fexp_eq.
  set (d1 := Zdigits2 (Zpos m1)) in *. set (d2 := Zdigits2 (Zpos m2)) in *.
  set (e' := Z.min (Z.max (d1 + e1 - (d2 + e2) - 53) (-1074)) (e1 - e2)).
  set (s := e1 - e2 - e').
  assert (Hs : 0 <= s) by (unfold s, e'; lia).
  assert (Hsp : 0 < 2 ^ s) by (apply pow2_pos; assumption).
  set (m' := match s with Zpos _ => Z.shiftl (Zpos m1) s | Z0 => Zpos m1 | Zneg _ => 0 end).
  assert (Hm' : m' = Zpos m1 * 2 ^ s).
  { unfold m'. destruct s as [|p|p] eqn:Es; [rewrite Z.pow_0_r; lia| |lia].
    apply Z.shiftl_mul_pow2. lia. }
  clearbody m'.
  assert (Hm'0 : 0 < m') by (rewrite Hm'; apply Z.mul_pos_pos; lia).
  pose proof (Z.mod_pos_bound m' (Zpos m2) ltac:(lia)) as Hr.
  assert (Hde : Z.div_eucl m' (Zpos m2) = (m' / Zpos m2, m' mod Zpos m2)).
  { unfold Z.div, Z.modulo. destruct (Z.div_eucl m' (Zpos m2)). reflexivity. }
  rewrite Hde, new_location_loc_of by lia.
  (* the quotient has full precision *)
  assert (Hprec : e' <= fexp prec emax (Zdigits2 (m' / Zpos m2) + e')).
  { rewrite fexp_eq.
    assert (Hq0 : 0 <= m' / Zpos m2) by (apply Z.div_pos; lia).
    pose proof (Zdigits2_nonneg _ Hq0) as Hdq.
    destruct (Z_le_gt_dec e' (-1074)) as [|Hbig]; [lia|].
    assert (H53 : 53 <= d1 + s - d2) by (unfold s, e' in *; lia).
    assert (Hq : 2 ^ (d1 - 1 + s - d2) <= m' / Zpos m2).
    { apply Z.div_le_lower_bound; [lia|].
      apply Z.le_trans with (2 ^ d2 * 2 ^ (d1 - 1 + s - d2)).
      - apply Z.mul_le_mono_nonneg_r; [apply Z.pow_nonneg; lia|lia].
      - rewrite pow2_add by lia. replace (d2 + (d1 - 1 + s - d2)) with (d1 - 1 + s) by lia.
        rewrite <- pow2_add by lia. rewrite Hm'.
        apply Z.mul_le_mono_nonneg_r; lia. }
    pose proof (Zdigits2_ge (m' / Zpos m2) (d1 - 1 + s - d2) ltac:(lia) Hq). lia. }
  destruct (bra_ord m' (Zpos m2) e' ltac:(lia) ltac:(lia) Hprec) as [Ho Hp].
  split; [|assumption]. rewrite Ho.
  set (t := e' + 1074).
  apply round53_ext.
  - apply Z.mul_pos_pos; [lia|apply pow2_pos; lia].
  - apply Z.mul_pos_pos; [lia|apply pow2_pos; lia].
  - assert (E : 2 ^ s * 2 ^ Z.max 0 t * 2 ^ (e2 + 1074)
                = 2 ^ (e1 + 1074) * 2 ^ 1074 * 2 ^ Z.max 0 (- t)).
    { rewrite !pow2_add by lia. apply pow2_eq. unfold t, s. lia. }
    rewrite Hm'.
    transitivity (Zpos m1 * Zpos m2 * (2 ^ s * 2 ^ Z.max 0 t * 2 ^ (e2 + 1074))); [ring|].
    rewrite E. ring.
Qed.

Lemma binary_round_ord (p : positive) (e : Z) :
  ord (binary_round prec emax false p e)
  = round53 (Zpos p * 2 ^ Z.max 0 (e + 1074)) (2 ^ Z.max 0 (- (e + 1074)))
  /\ proper (binary_round prec emax false p e) = true.
Proof.
  unfold binary_round.
  change (Zpos (digits2_pos p)) with (Zdigits2 (Zpos p)).
  pose proof (Zdigits2_pos (Zpos p) ltac:(lia)) as HD.
  destruct (shl_align_spec p e (fexp prec emax (Zdigits2 (Zpos p) + e))) as [Hv He].
  destruct (shl_align p e _) as [mz ez]. cbn [fst snd] in *.
  rewrite fexp_eq in He.
  assert (Hdz : Zdigits2 (Zpos mz) + ez = Zdigits2 (Zpos p) + e).
  { rewrite Hv, Zdigits2_mul_pow2 by lia. lia. }
  pose proof (bra_ord (Zpos mz) 1 ez ltac:(lia) ltac:(lia)) as Hb.
  rewrite Z.div_1_r, Z.mod_1_r in Hb. change (loc_of 0 1) with loc_Exact in Hb.
  destruct Hb as [Ho Hp]; [rewrite Hdz, fexp_eq; lia|].
  split; [|assumption]. rewrite Ho.
  apply round53_ext.
  - rewrite Z.mul_1_l. apply pow2_pos. lia.
  - apply pow2_pos. lia.
  - assert (E : 2 ^ (e - ez) * 2 ^ Z.max 0 (ez + 1074) * 2 ^ Z.max 0 (- (e + 1074))
                = 2 ^ Z.max 0 (e + 1074) * 2 ^ Z.max 0 (- (ez + 1074))).
    { rewrite !pow2_add by lia. apply pow2_eq. lia. }
    rewrite Hv.
    transitivity (Zpos p * (2 ^ (e - ez) * 2 ^ Z.max 0 (ez + 1074)
                            * 2 ^ Z.max 0 (- (e + 1074)))); [ring|].
    rewrite E. ring.
Qed.

(** A proper Number is its own rounding. *)
Lemma round53_id (x : number) :
  proper x = true -> x <> S754_infinity false -> round53 (ord x) 1 = ord x.
Proof.
  intros Hx Hinf.
  destruct (proper_cases x Hx) as [[s ->]|[->|(m & e & -> & Hc)]].
  - cbn [ord]. apply round53_zero. lia.
  - congruence.
  - destruct (canon_inv _ _ _ Hc) as (Hd & He & Hn).
    pose proof (ord_finite_bounds m e Hc) as [[_ Hlt] _].
    cbn [ord] in *. unfold round53. rewrite Z.div_1_r.
    rewrite Zdigits2_mul_pow2 by lia.
    set (k := Z.max (Zdigits2 (Zpos m) + (e + 1074) - 53) 0).
    assert (Hk : 0 <= k) by (unfold k; lia).
    assert (Hkp : 0 < 2 ^ k) by (apply pow2_pos; assumption).
    assert (E : Zpos m * 2 ^ (e + 1074) = Zpos m * 2 ^ (e + 1074 - k) * (1 * 2 ^ k)).
    { rewrite Z.mul_1_l, <- Z.mul_assoc, pow2_add by (unfold k; lia).
      f_equal. apply pow2_eq. lia. }
    rewrite E at 1. rewrite rne_exact by lia.
    rewrite <- Z.mul_assoc, pow2_add by (unfold k; lia).
    replace (e + 1074 - k + k) with (e + 1074) by lia.
    apply Z.min_l. lia.
Qed.

End Operations.

(** ** Monotone steps *)

Section Monotone.

Lemma proper_inf_or_below (x : number) :
  proper x = true -> x = S754_infinity false \/ ord x < 2 ^ 2098.
Proof.
  intros Hx. destruct (proper_cases x Hx) as [[s ->]|[->|(m & e & -> & Hc)]].
  - right. cbn [ord]. apply pow2_pos. lia.
  - left. reflexivity.
  - right. apply (ord_finite_bounds m e Hc).
Qed.

Lemma ord_pos_finite (y : number) :
  proper y = true -> pos_finite y = true -> 0 < ord y.
Proof.
  intros Hy Hp. destruct (pos_finite_cases y Hp) as (m & e & ->).
  unfold proper in Hy. apply andb_prop in Hy as [_ Hc].
  apply (ord_finite_bounds m e Hc).
Qed.

Lemma pos_finite_number (y : number) :
  proper y = true -> pos_finite y = true ->
  exists m e, y = S754_finite false m e /\ is_number (S754_finite false m e) = true.
Proof.
  intros Hy Hp. destruct (pos_finite_cases y Hp) as (m & e & ->).
  unfold proper in Hy. apply andb_prop in Hy as [_ Hc]. eauto.
Qed.

Lemma mul_ord (x y : number) :
  proper x = true -> x <> S754_infinity false ->
  proper y = true -> pos_finite y = true ->
  ord (mul x y) = round53 (ord x * ord y) (2 ^ 1074) /\ proper (mul x y) = true.
Proof.
  intros Hx Hinf Hy Hp.
  destruct (pos_finite_number y Hy Hp) as (m2 & e2 & -> & H2).
  destruct (proper_cases x Hx) as [[s ->]|[->|(m1 & e1 & -> & H1)]].
  - cbn [mul SFmul ord]. rewrite Z.mul_0_l, round53_zero by (apply pow2_pos; lia).
    split; reflexivity.
  - congruence.
  - apply mul_ord_finite; assumption.
Qed.

Lemma mul_inf (y : number) :
  pos_finite y = true -> mul (S754_infinity false) y = S754_infinity false.
Proof. intros Hp. destruct (pos_finite_cases y Hp) as (m & e & ->). reflexivity. Qed.

Lemma mul_proper (x y : number) :
  proper x = true -> proper y = true -> pos_finite y = true ->
  proper (mul x y) = true.
Proof.
  intros Hx Hy Hp.
  destruct (proper_inf_or_below x Hx) as [->|Hlt].
  - rewrite mul_inf by assumption. reflexivity.
  - apply mul_ord; try assumption. intros ->. cbn [ord] in Hlt. lia.
Qed.

Lemma mul_mono (x x' y y' : number) :
  proper x = true -> proper x' = true ->
  proper y = true -> pos_finite y = true ->
  proper y' = true -> pos_finite y' = true ->
  ord x <= ord x' -> ord y <= ord y' ->
  ord (mul x y) <= ord (mul x' y').
Proof.
  intros Hx Hx' Hy Hp Hy' Hp' Hle Hley.
  assert (HU : 0 < 2 ^ 1074) by (apply pow2_pos; lia).
  destruct (proper_inf_or_below x' Hx') as [->|Hlt'].
  - rewrite (mul_inf y') by assumption.
    apply (ord_range (mul x y)). apply mul_proper; assumption.
  - assert (Hni' : x' <> S754_infinity false) by (intros ->; cbn [ord] in Hlt'; lia).
    assert (Hni : x <> S754_infinity false) by (intros ->; cbn [ord] in Hle; lia).
    destruct (mul_ord x y Hx Hni Hy Hp) as [-> _].
    destruct (mul_ord x' y' Hx' Hni' Hy' Hp') as [-> _].
    pose proof (ord_range x Hx). pose proof (ord_range x' Hx').
    pose proof (ord_pos_finite y Hy Hp). pose proof (ord_pos_finite y' Hy' Hp').
    apply round53_mono; try assumption.
    + apply Z.mul_nonneg_nonneg; lia.
    + apply Z.mul_le_mono_nonneg_r; [lia|].
      apply Z.mul_le_mono_nonneg; lia.
Qed.

Lemma div_ord (x c : number) :
  proper x = true -> x <> S754_infinity false ->
  proper c = true -> pos_finite c = true ->
  ord (div x c) = round53 (ord x * 2 ^ 1074) (ord c) /\ proper (div x c) = true.
Proof.
  intros Hx Hinf Hc Hp.
  destruct (pos_finite_number c Hc Hp) as (m2 & e2 & -> & H2).
  destruct (proper_cases x Hx) as [[s ->]|[->|(m1 & e1 & -> & H1)]].
  - pose proof (ord_finite_bounds m2 e2 H2) as [[Hpos _] _].
    cbn [div SFdiv]. rewrite Z.mul_0_l, round53_zero by assumption.
    split; reflexivity.
  - congruence.
  - apply div_ord_finite; assumption.
Qed.

Lemma div_inf (c : number) :
  pos_finite c = true -> div (S754_infinity false) c = S754_infinity false.
Proof. intros Hp. destruct (pos_finite_cases c Hp) as (m & e & ->). reflexivity. Qed.

Lemma div_proper (x c : number) :
  proper x = true -> proper c = true -> pos_finite c = true ->
  proper (div x c) = true.
Proof.
  intros Hx Hc Hp.
  destruct (proper_inf_or_below x Hx) as [->|Hlt].
  - rewrite div_inf by assumption. reflexivity.
  - apply div_ord; try assumption. intros ->. cbn [ord] in Hlt. lia.
Qed.

Lemma div_mono (x x' c : number) :
  proper x = true -> proper x' = true ->
  proper c = true -> pos_finite c = true ->
  ord x <= ord x' ->
  ord (div x c) <= ord (div x' c).
Proof.
  intros Hx Hx' Hc Hp Hle.
  assert (HU : 0 < 2 ^ 1074) by (apply pow2_pos; lia).
  destruct (proper_inf_or_below x' Hx') as [->|Hlt'].
  - rewrite (div_inf c) by assumption.
    apply (ord_range (div x c)). apply div_proper; assumption.
  - assert (Hni' : x' <> S754_infinity false) by (intros ->; cbn [ord] in Hlt'; lia).
    assert (Hni : x <> S754_infinity false) by (intros ->; cbn [ord] in Hle; lia).
    destruct (div_ord x c Hx Hni Hc Hp) as [-> _].
    destruct (div_ord x' c Hx' Hni' Hc Hp) as [-> _].
    pose proof (ord_range x Hx). pose proof (ord_pos_finite c Hc Hp).
    apply round53_mono; try assumption.
    + apply Z.mul_nonneg_nonneg; lia.
    + apply Z.mul_le_mono_nonneg_r; [lia|].
      apply Z.mul_le_mono_nonneg_r; lia.
Qed.

End Monotone.

(** ** [Math.round] and addition on magnitudes *)

Section RoundHalfUp.

Lemma round_half_up_exact (j : Z) : round_half_up (j * 2 ^ 1074) = j * 2 ^ 1074.
Proof.
  unfold round_half_up.
  change (2 ^ 1075) with (2 * 2 ^ 1074).
  assert (HU : 0 < 2 ^ 1074) by (apply pow2_pos; lia).
  set (U := 2 ^ 1074) in *.
  replace (2 * (j * U) + U) with ((2 * j + 1) * U) by ring.
  rewrite Z.div_mul_cancel_r by lia.
  replace ((2 * j + 1) / 2) with j; [reflexivity|].
  apply Z.div_unique with 1; lia.
Qed.

Lemma round_half_up_mono (o o' : Z) : o <= o' -> round_half_up o <= round_half_up o'.
Proof.
  intros H. unfold round_half_up.
  assert (HU : 0 < 2 ^ 1074) by (apply pow2_pos; lia).
  assert (HV : 0 < 2 ^ 1075) by (apply pow2_pos; lia).
  set (U := 2 ^ 1074) in *. set (V := 2 ^ 1075) in *.
  apply Z.mul_le_mono_nonneg_r; [lia|].
  apply Z.div_le_mono; lia.
Qed.

Lemma ofZ_ord_small (q : positive) :
  Zdigits2 (Zpos q) <= 53 ->
  ord (ofZ (Zpos q)) = Zpos q * 2 ^ 1074 /\ proper (ofZ (Zpos q)) = true.
Proof.
  intros Hq. destruct (ofZ_small q Hq) as (mz & -> & Hmz).
  pose proof (Zdigits2_pos (Zpos q) ltac:(lia)) as Hd.
  cbn [ord]. split.
  - rewrite Hmz, <- Z.mul_assoc, pow2_add by lia. f_equal. apply pow2_eq. lia.
  - unfold proper. apply andb_true_intro. split; [reflexivity|].
    assert (Hdz : Zdigits2 (Zpos mz) = 53)
      by (rewrite Hmz, Zdigits2_mul_pow2 by lia; lia).
    apply canon_intro; lia.
Qed.

Lemma Math_round_ord (x : number) :
  proper x = true -> x <> S754_infinity false ->
  ord (Math_round x) = round_half_up (ord x) /\ proper (Math_round x) = true.
Proof.
  intros Hx Hinf.
  destruct (proper_cases x Hx) as [[s ->]|[->|(m & e & -> & Hc)]].
  - cbn [Math_round ord]. split; [|reflexivity].
    symmetry. exact (round_half_up_exact 0).
  - congruence.
  - destruct (canon_inv _ _ _ Hc) as (Hd & He & Hn).
    pose proof (Zdigits2_bounds (Zpos m) ltac:(lia)) as [_ Hu].
    unfold Math_round. cbn [cond_Zopp].
    destruct (Z.leb_spec 0 e) as [Hpos|Hneg].
    { split; [|assumption]. cbn [ord].
      replace (Zpos m * 2 ^ (e + 1074)) with (Zpos m * 2 ^ e * 2 ^ 1074)
        by (rewrite <- Z.mul_assoc, pow2_add by lia; reflexivity).
      symmetry. apply round_half_up_exact. }
    assert (Hp : 0 < 2 ^ (- e)) by (apply pow2_pos; lia).
    destruct (Z.eqb_spec (Zpos m mod 2 ^ (- e)) 0) as [Hmod|Hmod].
    { split; [|assumption]. cbn [ord].
      pose proof (Z.div_mod (Zpos m) (2 ^ (- e)) ltac:(lia)) as E.
      rewrite Hmod, Z.add_0_r in E.
      replace (Zpos m * 2 ^ (e + 1074)) with (Zpos m / 2 ^ (- e) * 2 ^ 1074).
      - symmetry. apply round_half_up_exact.
      - rewrite E at 2. rewrite (Z.mul_comm (2 ^ (- e))), <- Z.mul_assoc, pow2_add by lia.
        f_equal. apply pow2_eq. lia. }
    set (q := (2 * Zpos m + 2 ^ (- e)) / 2 ^ (1 - e)).
    assert (Hhalf : round_half_up (ord (S754_finite false m e)) = q * 2 ^ 1074).
    { cbn [ord]. unfold round_half_up. f_equal. unfold q.
      assert (Hs : 0 < 2 ^ (e + 1074)) by (apply pow2_pos; lia).
      replace (2 * (Zpos m * 2 ^ (e + 1074)) + 2 ^ 1074)
        with ((2 * Zpos m + 2 ^ (- e)) * 2 ^ (e + 1074)).
      - replace (2 ^ 1075) with (2 ^ (1 - e) * 2 ^ (e + 1074))
          by (rewrite pow2_add by lia; apply pow2_eq; lia).
        apply Z.div_mul_cancel_r; [apply Z.pow_nonzero; lia|lia].
      - rewrite Z.mul_add_distr_r, (pow2_add (- e)) by lia.
        replace (- e + (e + 1074)) with 1074 by lia. ring. }
    rewrite Hhalf.
    assert (Hq0 : 0 <= q) by (apply Z.div_pos; [lia|apply pow2_pos; lia]).
    assert (Hq53 : q < 2 ^ 53).
    { apply Z.div_lt_upper_bound; [apply pow2_pos; lia|].
      assert (H2 : 2 ^ (1 - e) = 2 * 2 ^ (- e))
        by (replace (1 - e) with (- e + 1) by lia; apply pow2_succ; lia).
      rewrite H2.
      assert (Hm53 : Zpos m < 2 ^ 53)
        by (apply Z.lt_le_trans with (1 := Hu); apply pow2_le; lia).
      assert (2 * Zpos m < 2 * 2 ^ 53) by lia.
      assert (2 <= 2 ^ (- e)) by (change 2 with (2 ^ 1) at 1; apply pow2_le; lia).
      assert (2 * 2 ^ 53 <= 2 ^ (- e) * 2 ^ 53)
        by (apply Z.mul_le_mono_nonneg_r; [apply Z.pow_nonneg|]; lia).
      nia. }
    destruct q as [|p|p] eqn:Eq; [split; reflexivity| |lia].
    apply ofZ_ord_small. apply Zdigits2_le; lia.
Qed.

Lemma Math_round_proper (x : number) : proper x = true -> proper (Math_round x) = true.
Proof.
  intros Hx. destruct (proper_inf_or_below x Hx) as [->|Hlt]; [reflexivity|].
  apply Math_round_ord; [assumption|]. intros ->. cbn [ord] in Hlt. lia.
Qed.

Lemma Math_round_mono (x x' : number) :
  proper x = true -> proper x' = true -> ord x <= ord x' ->
  ord (Math_round x) <= ord (Math_round x').
Proof.
  intros Hx Hx' Hle.
  destruct (proper_inf_or_below x' Hx') as [->|Hlt'].
  - apply (ord_range (Math_round x)). apply Math_round_proper. assumption.
  - assert (Hni' : x' <> S754_infinity false) by (intros ->; cbn [ord] in Hlt'; lia).
    assert (Hni : x <> S754_infinity false) by (intros ->; cbn [ord] in Hle; lia).
    destruct (Math_round_ord x Hx Hni) as [-> _].
    destruct (Math_round_ord x' Hx' Hni') as [-> _].
    apply round_half_up_mono. assumption.
Qed.

Lemma add_ord_finite (m1 m2 : positive) (e1 e2 : Z) :
  is_number (S754_finite false m1 e1) = true ->
  is_number (S754_finite false m2 e2) = true ->
  ord (add (S754_finite false m1 e1) (S754_finite false m2 e2))
  = round53 (ord (S754_finite false m1 e1) + ord (S754_finite false m2 e2)) 1
  /\ proper (add (S754_finite false m1 e1) (S754_finite false m2 e2)) = true.
Proof.
  intros H1 H2.
  destruct (canon_inv _ _ _ H1) as (_ & He1 & _).
  destruct (canon_inv _ _ _ H2) as (_ & He2 & _).
  unfold add, SFadd. cbn [cond_Zopp ord].
  destruct (shl_align_spec m1 e1 (Z.min e1 e2)) as [Hv1 Hs1].
  destruct (shl_align_spec m2 e2 (Z.min e1 e2)) as [Hv2 Hs2].
  rewrite Hs1 in Hv1. rewrite Hs2 in Hv2.
  set (a := fst (shl_align m1 e1 (Z.min e1 e2))) in *.
  set (b := fst (shl_align m2 e2 (Z.min e1 e2))) in *.
  set (ez := Z.min e1 e2) in *.
  replace (Z.min e1 ez) with ez in Hv1 by (unfold ez; lia).
  replace (Z.min e2 ez) with ez in Hv2 by (unfold ez; lia).
  change (Zpos a + Zpos b) with (Zpos (a + b)). cbn [binary_normalize].
  destruct (binary_round_ord (a + b) ez) as [Ho Hp].
  split; [|assumption]. rewrite Ho.
  replace (Z.max 0 (ez + 1074)) with (ez + 1074) by (unfold ez; lia).
  replace (Z.max 0 (- (ez + 1074))) with 0 by (unfold ez; lia).
  rewrite Z.pow_0_r. f_equal.
  rewrite Pos2Z.inj_add, Hv1, Hv2, Z.mul_add_distr_r.
  rewrite <- !Z.mul_assoc, !pow2_add by (unfold ez; lia).
  f_equal; f_equal; apply pow2_eq; lia.
Qed.

Lemma add_ord (x y : number) :
  proper x = true -> pos_finite x = true ->
  proper y = true -> y <> S754_infinity false ->
  ord (add x y) = round53 (ord x + ord y) 1 /\ proper (add x y) = true.
Proof.
  intros Hx Hp Hy Hinf.
  destruct (pos_finite_number x Hx Hp) as (m1 & e1 & -> & H1).
  destruct (proper_cases y Hy) as [[s ->]|[->|(m2 & e2 & -> & H2)]].
  - cbn [add SFadd]. split; [|assumption].
    change (ord (S754_zero s)) with 0. rewrite Z.add_0_r.
    symmetry. apply round53_id; [assumption|discriminate].
  - congruence.
  - apply add_ord_finite; assumption.
Qed.

Lemma add_mono (x y y' : number) :
  proper x = true -> pos_finite x = true ->
  proper y = true -> proper y' = true -> y' <> S754_infinity false ->
  ord y <= ord y' ->
  ord (add x y) <= ord (add x y').
Proof.
  intros Hx Hp Hy Hy' Hni' Hle.
  assert (Hni : y <> S754_infinity false).
  { intros ->. destruct (proper_inf_or_below y' Hy') as [|Hlt]; [congruence|].
    cbn [ord] in Hle. lia. }
  destruct (add_ord x y Hx Hp Hy Hni) as [-> _].
  destruct (add_ord x y' Hx Hp Hy' Hni') as [-> _].
  pose proof (ord_range x Hx). pose proof (ord_range y Hy).
  apply round53_mono_same; lia.
Qed.

End RoundHalfUp.

(** ** The order of coverage *)

Section CoverageOrder.

Lemma ord_le_of_leb (x y : number) :
  proper x = true -> proper y = true -> leb x y = true -> ord x <= ord y.
Proof. intros Hx Hy H. apply (leb_ord x y Hx Hy). exact H. Qed.

Lemma leb_of_ord_le (x y : number) :
  proper x = true -> proper y = true -> ord x <= ord y -> leb x y = true.
Proof. intros Hx Hy H. apply (leb_ord x y Hx Hy). exact H. Qed.

Lemma integer_proper (x : number) :
  is_integer x = true -> leb (ofZ 0) x = true ->
  proper x = true /\ x <> S754_infinity false.
Proof.
  intros Hi Hle. split.
  - unfold proper. rewrite (leb_zero_nonneg x Hle).
    unfold is_integer in Hi. apply andb_prop in Hi as [Hc _]. exact Hc.
  - intros ->. discriminate Hi.
Qed.

Lemma getIncomeMultiplier_proper (a : number) : proper (getIncomeMultiplier a) = true.
Proof.
  unfold getIncomeMultiplier.
  destruct (ltb a (ofZ 30)); [reflexivity|].
  destruct (ltb a (ofZ 40)); [reflexivity|].
  destruct (ltb a (ofZ 50)); reflexivity.
Qed.

Lemma RISK_ADJUSTMENTS_proper (r : RiskTolerance) : proper (RISK_ADJUSTMENTS r) = true.
Proof. destruct r; reflexivity. Qed.

Lemma RISK_ADJUSTMENTS_order (r : RiskTolerance) :
  ord (RISK_ADJUSTMENTS high) <= ord (RISK_ADJUSTMENTS r)
  /\ ord (RISK_ADJUSTMENTS r) <= ord (RISK_ADJUSTMENTS low).
Proof.
  destruct r; split; apply ord_le_of_leb; reflexivity.
Qed.

Lemma quarter_proper (d : number) :
  is_integer d = true -> leb (ofZ 0) d = true ->
  proper (mul d DEPENDENT_MULTIPLIER) = true
  /\ mul d DEPENDENT_MULTIPLIER <> S754_infinity false.
Proof.
  intros Hi Hle. destruct (integer_proper d Hi Hle) as [Hp Hinf]. split.
  - apply mul_proper; [assumption|reflexivity|reflexivity].
  - destruct (proper_cases d Hp) as [[s ->]|[->|(m & e & -> & Hc)]].
    + rewrite DEPENDENT_MULTIPLIER_eq. destruct s; discriminate.
    + congruence.
    + destruct (integer_shape false m e Hi) as [HD He].
      rewrite quarter_exact by assumption. discriminate.
Qed.

Lemma dependentsFactor_proper (d : number) :
  is_integer d = true -> leb (ofZ 0) d = true ->
  proper (add (ofZ 1) (mul d DEPENDENT_MULTIPLIER)) = true.
Proof.
  intros Hi Hle. destruct (quarter_proper d Hi Hle) as [Hp Hinf].
  apply add_ord; [reflexivity|reflexivity|assumption|assumption].
Qed.

Lemma dependentsFactor_mono (d d' : number) :
  is_integer d = true -> leb (ofZ 0) d = true ->
  is_integer d' = true -> leb (ofZ 0) d' = true ->
  ord d <= ord d' ->
  ord (add (ofZ 1) (mul d DEPENDENT_MULTIPLIER))
  <= ord (add (ofZ 1) (mul d' DEPENDENT_MULTIPLIER)).
Proof.
  intros Hi Hle Hi' Hle' Hdd.
  destruct (integer_proper d Hi Hle) as [Hp _].
  destruct (integer_proper d' Hi' Hle') as [Hp' _].
  destruct (quarter_proper d Hi Hle) as [Hq _].
  destruct (quarter_proper d' Hi' Hle') as [Hq' Hinf'].
  apply add_mono; try assumption; try reflexivity.
  apply mul_mono; try assumption; reflexivity.
Qed.

Lemma calculateCoverage_proper (income im df ra : number) :
  proper income = true ->
  proper im = true -> pos_finite im = true ->
  proper df = true -> pos_finite df = true ->
  proper ra = true -> pos_finite ra = true ->
  proper (calculateCoverage income im df ra) = true.
Proof.
  intros Hi Him Pim Hdf Pdf Hra Pra. unfold calculateCoverage.
  apply Math_min_ord.
  - apply Math_max_ord; [|reflexivity].
    apply mul_proper; [|reflexivity|reflexivity].
    apply Math_round_proper. apply div_proper; [|reflexivity|reflexivity].
    repeat apply mul_proper; assumption.
  - apply mul_proper; [assumption|reflexivity|reflexivity].
Qed.

(** Coverage grows with the income, the income multiplier, the dependents
    factor and the risk adjustment. *)
Lemma calculateCoverage_mono (income income' im im' df df' ra ra' : number) :
  proper income = true -> proper income' = true ->
  proper im = true -> pos_finite im = true ->
  proper im' = true -> pos_finite im' = true ->
  proper df = true -> pos_finite df = true ->
  proper df' = true -> pos_finite df' = true ->
  proper ra = true -> pos_finite ra = true ->
  proper ra' = true -> pos_finite ra' = true ->
  ord income <= ord income' -> ord im <= ord im' ->
  ord df <= ord df' -> ord ra <= ord ra' ->
  ord (calculateCoverage income im df ra) <= ord (calculateCoverage income' im' df' ra').
Proof.
  intros Hi Hi' Him Pim Him' Pim' Hdf Pdf Hdf' Pdf' Hra Pra Hra' Pra' Li Lm Ld Lr.
  unfold calculateCoverage.
  set (c1 := mul (mul (mul income im) df) ra).
  set (c1' := mul (mul (mul income' im') df') ra').
  assert (P1 : proper c1 = true) by (unfold c1; repeat apply mul_proper; assumption).
  assert (P1' : proper c1' = true) by (unfold c1'; repeat apply mul_proper; assumption).
  assert (L1 : ord c1 <= ord c1').
  { unfold c1, c1'.
    apply mul_mono; try assumption; try (repeat apply mul_proper; assumption).
    apply mul_mono; try assumption; try (repeat apply mul_proper; assumption).
    apply mul_mono; assumption. }
  set (c4 := mul (Math_round (div c1 (ofZ 10000))) (ofZ 10000)).
  set (c4' := mul (Math_round (div c1' (ofZ 10000))) (ofZ 10000)).
  assert (P2 : proper (div c1 (ofZ 10000)) = true)
    by (apply div_proper; [assumption|reflexivity|reflexivity]).
  assert (P2' : proper (div c1' (ofZ 10000)) = true)
    by (apply div_proper; [assumption|reflexivity|reflexivity]).
  assert (P4 : proper c4 = true)
    by (apply mul_proper; [apply Math_round_proper; assumption|reflexivity|reflexivity]).
  assert (P4' : proper c4' = true)
    by (apply mul_proper; [apply Math_round_proper; assumption|reflexivity|reflexivity]).
  assert (L4 : ord c4 <= ord c4').
  { unfold c4, c4'.
    apply mul_mono; try reflexivity; try (apply Math_round_proper; assumption).
    apply Math_round_mono; try assumption.
    apply div_mono; try assumption; reflexivity. }
  assert (PM : proper MIN_COVERAGE = true) by reflexivity.
  destruct (Math_max_ord c4 MIN_COVERAGE P4 PM) as [E5 P5].
  destruct (Math_max_ord c4' MIN_COVERAGE P4' PM) as [E5' P5'].
  assert (PC : proper (mul income INCOME_CAP_MULTIPLIER) = true)
    by (apply mul_proper; [assumption|reflexivity|reflexivity]).
  assert (PC' : proper (mul income' INCOME_CAP_MULTIPLIER) = true)
    by (apply mul_proper; [assumption|reflexivity|reflexivity]).
  assert (LC : ord (mul income INCOME_CAP_MULTIPLIER)
               <= ord (mul income' INCOME_CAP_MULTIPLIER))
    by (apply mul_mono; try assumption; reflexivity).
  destruct (Math_min_ord _ _ P5 PC) as [-> _].
  destruct (Math_min_ord _ _ P5' PC') as [-> _].
  rewrite E5, E5'. lia.
Qed.

End CoverageOrder.

(** ** Snapping to the grid of 10,000 *)

Section Snap.

Lemma toZ_of_ord (x : number) (V : Z) :
  proper x = true -> x <> S754_infinity false -> ord x = V * 2 ^ 1074 ->
  toZ x = Some V.
Proof.
  intros Hx Hinf Ho.
  assert (HU : 0 < 2 ^ 1074) by (apply pow2_pos; lia).
  destruct (proper_cases x Hx) as [[s ->]|[->|(m & e & -> & Hc)]].
  - cbn [ord] in Ho. cbn [toZ]. f_equal.
    symmetry in Ho. apply Z.mul_eq_0_l in Ho; lia.
  - congruence.
  - destruct (canon_inv _ _ _ Hc) as (_ & He & _).
    cbn [ord] in Ho. apply toZ_denotes. unfold denotes.
    assert (Hs : 0 < 2 ^ (e + 1074)) by (apply pow2_pos; lia).
    destruct (Z_le_gt_dec 0 e) as [Hpos|Hneg].
    + left. split; [assumption|].
      apply (Z.mul_reg_r _ _ (2 ^ 1074)); [lia|].
      rewrite <- Ho, <- Z.mul_assoc, pow2_add by lia. reflexivity.
    + right. split; [lia|].
      apply (Z.mul_reg_r _ _ (2 ^ (e + 1074))); [lia|].
      rewrite Ho, <- Z.mul_assoc, pow2_add by lia.
      f_equal. apply pow2_eq. lia.
Qed.

(** A magnitude of at most 53 significant bits is its own rounding. *)
Lemma round53_exact (A s : Z) :
  0 < A -> Zdigits2 A <= 53 -> 0 <= s -> Zdigits2 A + s <= 2098 ->
  round53 (A * 2 ^ s) 1 = A * 2 ^ s.
Proof.
  intros HA Hd Hs Hmax.
  pose proof (Zdigits2_pos A HA) as Hd0.
  pose proof (Zdigits2_bounds A HA) as [_ Hu].
  unfold round53. rewrite Z.div_1_r, Zdigits2_mul_pow2 by lia.
  set (k := Z.max (Zdigits2 A + s - 53) 0).
  assert (Hk : 0 <= k <= s) by (unfold k; lia).
  assert (Hkp : 0 < 2 ^ k) by (apply pow2_pos; lia).
  assert (E : A * 2 ^ s = A * 2 ^ (s - k) * (1 * 2 ^ k)).
  { rewrite Z.mul_1_l, <- Z.mul_assoc, pow2_add by lia. f_equal. apply pow2_eq. lia. }
  rewrite E at 1. rewrite rne_exact by lia.
  rewrite <- Z.mul_assoc, pow2_add by lia.
  replace (s - k + k) with s by lia.
  apply Z.min_l.
  apply Z.lt_le_incl.
  apply Z.lt_le_trans with (2 ^ Zdigits2 A * 2 ^ s).
  - apply Z.mul_lt_mono_pos_r; [apply pow2_pos; lia|assumption].
  - rewrite pow2_add by lia. apply pow2_le. lia.
Qed.

Lemma ord_ten_thousand : ord (ofZ 10000) = 10000 * 2 ^ 1074.
Proof. reflexivity. Qed.

Lemma ord_last_exact :
  ord (ofZ 144115188075860000) = 144115188075860000 * 2 ^ 1074.
Proof. reflexivity. Qed.

Lemma ord_next_number :
  ord (ofZ 144115188075860032) = 144115188075860032 * 2 ^ 1074.
Proof. reflexivity. Qed.

(** Snapping to the grid of 10,000: the product [round(x) * 10000] is exact
    up to 144115188075860000. Since [10000 = 625 * 2^4], a product below
    [2^57] leaves 53 bits for [round(x) * 625]; the one multiple of 10000
    from [2^57] to the bound is [14411518807586 * 10000], whose half
    [7205759403793 * 625] still fits 53 bits. *)
Lemma snap_multiple_wide (x : number) :
  proper x = true ->
  leb (mul (Math_round x) (ofZ 10000)) (ofZ 144115188075860000) = true ->
  exists N, toZ (mul (Math_round x) (ofZ 10000)) = Some (10000 * N).
Proof.
  intros Hx Hle.
  assert (HU : 0 < 2 ^ 1074) by (apply pow2_pos; lia).
  assert (Hbig : 144115188075860000 * 2 ^ 1074 < 2 ^ 2098).
  { apply Z.lt_trans with (2 ^ 58 * 2 ^ 1074).
    - apply Z.mul_lt_mono_pos_r; [assumption|reflexivity].
    - rewrite pow2_add by lia. apply pow2_lt. lia. }
  pose proof (Math_round_proper x Hx) as HR.
  assert (HS : proper (mul (Math_round x) (ofZ 10000)) = true)
    by (apply mul_proper; [assumption|reflexivity|reflexivity]).
  apply (leb_ord (mul (Math_round x) (ofZ 10000)) (ofZ 144115188075860000) HS eq_refl)
    in Hle.
  rewrite ord_last_exact in Hle.
  assert (Hxi : x <> S754_infinity false).
  { intros ->.
    change (mul (Math_round (S754_infinity false)) (ofZ 10000))
      with (S754_infinity false) in Hle.
    cbn [ord] in Hle. lia. }
  destruct (Math_round_ord x Hx Hxi) as [HoR _].
  pose proof (ord_range x Hx) as [Hx0 _].
  unfold round_half_up in HoR.
  set (q := (2 * ord x + 2 ^ 1074) / 2 ^ 1075) in *.
  assert (Hq : 0 <= q) by (apply Z.div_pos; [lia|apply pow2_pos; lia]).
  assert (HRi : Math_round x <> S754_infinity false).
  { intros E. rewrite E, (mul_inf (ofZ 10000) eq_refl) in Hle.
    cbn [ord] in Hle. lia. }
  destruct (mul_ord (Math_round x) (ofZ 10000) HR HRi eq_refl eq_refl) as [HoS _].
  rewrite HoR, ord_ten_thousand in HoS.
  replace (q * 2 ^ 1074 * (10000 * 2 ^ 1074)) with (q * 10000 * 2 ^ 1074 * 2 ^ 1074)
    in HoS by ring.
  rewrite <- (Z.mul_1_l (2 ^ 1074)) in HoS at 3.
  rewrite round53_scale in HoS by lia.
  set (S := mul (Math_round x) (ofZ 10000)) in *.
  assert (HSi : S <> S754_infinity false).
  { intros E. rewrite E in Hle. cbn [ord] in Hle. lia. }
  exists q. rewrite (Z.mul_comm 10000 q).
  apply toZ_of_ord; [assumption|assumption|].
  rewrite HoS.
  destruct (Z.eq_dec q 0) as [->|Hnz].
  { apply round53_zero. lia. }
  (* the quotient is at most 14411518807586 *)
  assert (Hw : q <= 14411518807586).
  { destruct (Z_le_gt_dec q 14411518807586) as [|Hgt]; [assumption|exfalso].
    assert (Hm : round53 (144115188075860032 * 2 ^ 1074) 1
                 <= round53 (q * 10000 * 2 ^ 1074) 1).
    { apply round53_mono_same; [|lia]. split.
      - apply Z.mul_nonneg_nonneg; lia.
      - apply Z.mul_le_mono_nonneg_r; lia. }
    rewrite <- ord_next_number, (round53_id (ofZ 144115188075860032) eq_refl) in Hm
      by discriminate.
    rewrite ord_next_number, <- HoS in Hm.
    assert (144115188075860032 * 2 ^ 1074 <= 144115188075860000 * 2 ^ 1074)
      by (eapply Z.le_trans; eassumption).
    apply Z.mul_le_mono_pos_r in H; [|assumption]. apply H. reflexivity. }
  destruct (Z_le_gt_dec q 14411518807585) as [Hlow|Hlast].
  - assert (HA : 0 < q * 625) by lia.
    assert (HA53 : q * 625 < 2 ^ 53).
    { apply Z.le_lt_trans with (14411518807585 * 625); [|reflexivity].
      apply Z.mul_le_mono_nonneg_r; [discriminate|assumption]. }
    replace (q * 10000 * 2 ^ 1074) with (q * 625 * 2 ^ 1078).
    + apply round53_exact; [assumption| |lia|].
      * apply Zdigits2_le; assumption.
      * pose proof (Zdigits2_le (q * 625) 53 HA HA53). lia.
    + change (2 ^ 1078) with (16 * 2 ^ 1074). ring.
  - assert (Eq : q = 14411518807586) by lia.
    rewrite Eq.
    change (14411518807586 * 10000 * 2 ^ 1074)
      with (4503599627370625 * 2 ^ 1079).
    apply round53_exact; [reflexivity| |discriminate|].
    + apply Zdigits2_le; reflexivity.
    + pose proof (Zdigits2_le 4503599627370625 53 eq_refl eq_refl). lia.
Qed.

End Snap.

(** * The claims of the specification *)

Section Claims.

Variable host_pow : number -> number -> number.
Variables Number_toString toLocaleString : number -> string.
Variable toFixed : number -> number -> string.

Local Abbreviation run p l :=
  (result (calculateRecommendation host_pow Number_toString toLocaleString toFixed p) l).

Lemma run_coverage (p : UserProfile) (l : Log) :
  coverage (recommendation (run p l))
  = calculateCoverage (income p) (getIncomeMultiplier (age p))
      (add (ofZ 1) (mul (dependents p) DEPENDENT_MULTIPLIER))
      (RISK_ADJUSTMENTS (riskTolerance p)).
Proof. reflexivity. Qed.

Lemma run_factors (p : UserProfile) (l : Log) :
  factors (run p l)
  = {| incomeMultiplier := getIncomeMultiplier (age p);
       dependentsFactor := add (ofZ 1) (mul (dependents p) DEPENDENT_MULTIPLIER);
       riskAdjustment := RISK_ADJUSTMENTS (riskTolerance p) |}.
Proof. reflexivity. Qed.

(** C1. Coverage sizing applies the floor before the cap. For every valid
    profile the response reports the income multiplier of the age band, the
    dependents factor [1 + dependents * 0.25] and the risk adjustment of the
    risk tolerance, and with these factors of the profile the coverage is
    [min (max (round (income * incomeMultiplier * dependentsFactor *
    riskAdjustment / 10000) * 10000, 100000), income * 30)]; hence it never
    exceeds [income * 30], and when [income * 30 < 100000] the cap wins and
    the coverage is exactly [income * 30]. *)
Theorem coverage_floor_then_cap (p : UserProfile) (l : Log) :
  valid_profile p = true ->
  exists a : Z,
    18 <= a <= 100 /\ age p = ofZ a
    /\ incomeMultiplier (factors (run p l)) = ofZ (spec_multiplier a)
    /\ dependentsFactor (factors (run p l)) = spec_dependents_factor (dependents p)
    /\ riskAdjustment (factors (run p l)) = spec_risk_adjustment (riskTolerance p)
    /\ coverage (recommendation (run p l))
       = spec_coverage (income p) (ofZ (spec_multiplier a))
           (spec_dependents_factor (dependents p))
           (spec_risk_adjustment (riskTolerance p))
    /\ leb (coverage (recommendation (run p l))) (mul (income p) (ofZ 30)) = true
    /\ (ltb (mul (income p) (ofZ 30)) (ofZ 100000) = true ->
        coverage (recommendation (run p l)) = mul (income p) (ofZ 30)).
Proof.
  intros Hv.
  destruct (valid_profile_inv p Hv) as (Hai & Halo & Hahi & _ & Hinc & Hdi & Hd).
  pose proof (leb_zero_nonneg _ Hinc) as Hnn.
  pose proof (getIncomeMultiplier_pos_finite (age p)) as Him.
  pose proof (dependentsFactor_pos_finite _ Hdi Hd) as Hdf.
  pose proof (RISK_ADJUSTMENTS_pos_finite (riskTolerance p)) as Hra.
  destruct (valid_age_ofZ (age p) Hai Halo Hahi) as (a & Ha & Hage).
  destruct (age_band_at a (ages_complete a Ha)) as [Hm _].
  exists a. rewrite run_coverage, run_factors.
  cbn [incomeMultiplier dependentsFactor riskAdjustment].
  split; [exact Ha|split; [exact Hage|]].
  split; [rewrite Hage; exact Hm|].
  split; [reflexivity|].
  split; [destruct (riskTolerance p); reflexivity|].
  split; [|split].
  - rewrite <- Hm, <- Hage. destruct (riskTolerance p); reflexivity.
  - apply calculateCoverage_le_cap; assumption.
  - apply calculateCoverage_cap_wins; assumption.
Qed.

(** C2. The age-band tables hold for every age in [18, 100]: the income
    multiplier is 15 below 30, 12 from 30 to 39, 10 from 40 to 49 and 8 from
    50 on; the term is 30 years below 35, 20 from 35 to 44, 15 from 45 to 54
    and 10 from 55 on, so it is one of 10, 15, 20, 30 and never increases
    with age. *)
Theorem age_band_tables (x : number) :
  is_integer x = true -> leb (ofZ 18) x = true -> leb x (ofZ 100) = true ->
  exists a : Z,
    18 <= a <= 100 /\ x = ofZ a
    /\ getIncomeMultiplier x = ofZ (spec_multiplier a)
    /\ determineTerm x = ofZ (spec_term a)
    /\ In (spec_term a) [10; 15; 20; 30]
    /\ forall y : number,
         is_integer y = true -> leb (ofZ 18) y = true -> leb y (ofZ 100) = true ->
         leb x y = true ->
         leb (determineTerm y) (determineTerm x) = true.
Proof.
  intros Hi Hlo Hhi.
  destruct (valid_age_ofZ x Hi Hlo Hhi) as (a & Ha & ->).
  destruct (age_band_at a (ages_complete a Ha)) as [Hm Ht].
  exists a. repeat split; try assumption; try lia.
  - apply spec_term_values.
  - intros y Hyi Hylo Hyhi Hle.
    destruct (valid_age_ofZ y Hyi Hylo Hyhi) as (b & Hb & ->).
    destruct (age_band_at b (ages_complete b Hb)) as [_ Htb].
    rewrite Ht, Htb.
    apply term_leb; try apply spec_term_values.
    apply spec_term_antitone. apply ages_order; assumption.
Qed.

(** C3. Policy-type classification is first-match-wins: Whole Life when the
    risk tolerance is low and income exceeds 150000; otherwise Universal Life
    when the risk tolerance is medium, income exceeds 200000 and age is below
    50; otherwise Term Life. In particular low risk with an income of 200000
    is Whole Life. *)
Theorem policy_type_first_match (p : UserProfile) (l : Log) :
  ((riskTolerance p = low /\ gtb (income p) (ofZ 150000) = true) ->
   type (recommendation (run p l)) = "Whole Life"%string)
  /\ (~ (riskTolerance p = low /\ gtb (income p) (ofZ 150000) = true) ->
      (riskTolerance p = medium /\ gtb (income p) (ofZ 200000) = true
       /\ ltb (age p) (ofZ 50) = true) ->
      type (recommendation (run p l)) = "Universal Life"%string)
  /\ (~ (riskTolerance p = low /\ gtb (income p) (ofZ 150000) = true) ->
      ~ (riskTolerance p = medium /\ gtb (income p) (ofZ 200000) = true
         /\ ltb (age p) (ofZ 50) = true) ->
      type (recommendation (run p l)) = "Term Life"%string)
  /\ (riskTolerance p = low -> income p = ofZ 200000 ->
      type (recommendation (run p l)) = "Whole Life"%string).
Proof.
  change (type (recommendation (run p l))) with (determineInsuranceType p).
  unfold determineInsuranceType.
  destruct (riskTolerance p);
    destruct (gtb (income p) (ofZ 150000)) eqn:E1;
    destruct (gtb (income p) (ofZ 200000)) eqn:E2;
    destruct (ltb (age p) (ofZ 50)) eqn:E3;
    cbn [andb]; repeat split; intros;
    try reflexivity;
    try (exfalso; intuition congruence);
    try (subst; match goal with H : income p = _ |- _ => rewrite H in * end;
         vm_compute in E1; discriminate).
Qed.

Lemma premium_scenario (v : number) :
  In v (neighbours (pow_int (decimal 1045 1000) 10)) ->
  Math_round
    (mul (mul (mul (mul (mul (div (ofZ 1350000) (ofZ 1000)) (decimal 5 10)) v)
                   (decimal 10 10)) (decimal 10 10)) (decimal 10 10))
  = ofZ 1048.
Proof.
  intros H. vm_compute in H.
  destruct H as [<-|[<-|[<-|[]]]]; vm_compute; reflexivity.
Qed.

(** C4. End to end on age 35, income 75000, 2 dependents, medium risk, with
    a host power accurate to one unit in the last place: incomeMultiplier 12,
    dependentsFactor 1.5, riskAdjustment 1.0, coverage 1350000, term 20, type
    Term Life, and monthlyPremium 1048, the rounding of
    [1350 * 0.5 * 1.045^10]. *)
Theorem scenario_35_75000_2_medium (l : Log) :
  pow_accurate host_pow (decimal 1045 1000) 10 ->
  incomeMultiplier (factors (run (profile 35 75000 2 medium) l)) = ofZ 12
  /\ dependentsFactor (factors (run (profile 35 75000 2 medium) l)) = decimal 15 10
  /\ riskAdjustment (factors (run (profile 35 75000 2 medium) l)) = decimal 10 10
  /\ coverage (recommendation (run (profile 35 75000 2 medium) l)) = ofZ 1350000
  /\ term (recommendation (run (profile 35 75000 2 medium) l)) = ofZ 20
  /\ type (recommendation (run (profile 35 75000 2 medium) l)) = "Term Life"%string
  /\ monthlyPremium (recommendation (run (profile 35 75000 2 medium) l)) = ofZ 1048
  /\ monthlyPremium (recommendation (run (profile 35 75000 2 medium) l))
     = Math_round (mul (mul (ofZ 1350) (decimal 5 10))
                       (host_pow (decimal 1045 1000) (ofZ 10))).
Proof.
  intros Hacc. unfold pow_accurate in Hacc.
  assert (Hp : monthlyPremium (recommendation (run (profile 35 75000 2 medium) l))
               = Math_round
                   (mul (mul (mul (mul (mul (div (ofZ 1350000) (ofZ 1000)) (decimal 5 10))
                                            (host_pow (decimal 1045 1000) (ofZ 10)))
                                       (decimal 10 10)) (decimal 10 10)) (decimal 10 10)))
    by reflexivity.
  repeat split; try reflexivity.
  - rewrite Hp. apply premium_scenario. exact Hacc.
  - rewrite Hp.
    set (v := host_pow (decimal 1045 1000) (ofZ 10)) in *. clearbody v.
    vm_compute in Hacc.
    destruct Hacc as [<-|[<-|[<-|[]]]]; vm_compute; reflexivity.
Qed.

(** C5, as the code has it. The floor of 100000 holds for every valid
    profile whose cap [income * 30] is itself at least 100000. *)
Theorem coverage_floor_when_cap_allows (p : UserProfile) (l : Log) :
  valid_profile p = true ->
  leb (ofZ 100000) (mul (income p) (ofZ 30)) = true ->
  leb (ofZ 100000) (coverage (recommendation (run p l))) = true.
Proof.
  intros Hv Hcap.
  destruct (valid_profile_inv p Hv) as (_ & _ & _ & _ & Hinc & Hdi & Hd).
  rewrite run_coverage.
  apply calculateCoverage_floor;
    auto using leb_zero_nonneg, getIncomeMultiplier_pos_finite,
      dependentsFactor_pos_finite, RISK_ADJUSTMENTS_pos_finite.
Qed.

(** C6, as the code has it. For every valid profile whose coverage is not
    the cap [income * 30] and is at most 144115188075860000, the coverage is
    an exact multiple of 10000. The bound is the last multiple of 10000
    before 144115188075870000, the first one that is not a Number. *)
Theorem coverage_multiple_when_uncapped (p : UserProfile) (l : Log) :
  valid_profile p = true ->
  coverage (recommendation (run p l)) <> mul (income p) (ofZ 30) ->
  leb (coverage (recommendation (run p l))) (ofZ 144115188075860000) = true ->
  exists N : Z, toZ (coverage (recommendation (run p l))) = Some (10000 * N).
Proof.
  intros Hv Hne Hle.
  destruct (valid_profile_inv p Hv) as (_ & _ & _ & Hii & Hinc & Hdi & Hd).
  pose proof (leb_zero_nonneg _ Hinc) as Hnn.
  pose proof (getIncomeMultiplier_pos_finite (age p)) as Him.
  pose proof (dependentsFactor_pos_finite _ Hdi Hd) as Hdf.
  pose proof (RISK_ADJUSTMENTS_pos_finite (riskTolerance p)) as Hra.
  rewrite run_coverage in *.
  destruct (calculateCoverage_uncapped _ _ _ _ Hnn Him Hdf Hra Hne) as [E|E];
    rewrite E in *.
  - exists 10. reflexivity.
  - apply snap_multiple_wide; [|exact Hle].
    destruct (integer_proper _ Hii Hinc) as [Hip _].
    apply div_proper; [|reflexivity|reflexivity].
    apply mul_proper;
      [|apply RISK_ADJUSTMENTS_proper|assumption].
    apply mul_proper;
      [|apply dependentsFactor_proper; assumption|assumption].
    apply mul_proper;
      [assumption|apply getIncomeMultiplier_proper|assumption].
Qed.

(** C7, at the failing input. On the valid profile age 25, income 1, no
    dependents, high risk tolerance, the coverage is 30 and the monthly
    premium is 0, with any host. *)
Theorem premium_zero_at_income_one (l : Log) :
  valid_profile (profile 25 1 0 high) = true
  /\ gtb (income (profile 25 1 0 high)) (ofZ 0) = true
  /\ coverage (recommendation (run (profile 25 1 0 high) l)) = ofZ 30
  /\ monthlyPremium (recommendation (run (profile 25 1 0 high) l)) = ofZ 0
  /\ gtb (monthlyPremium (recommendation (run (profile 25 1 0 high) l))) (ofZ 0) = false.
Proof. repeat split; vm_compute; reflexivity. Qed.


(** C9. The ML entry point is a pass-through: it resolves to exactly the
    response of the rules engine. *)
Theorem getMLRecommendation_pass_through (p : UserProfile) (l : Log) :
  result (getMLRecommendation host_pow Number_toString toLocaleString toFixed p) l
  = Fulfilled (run p l).
Proof. reflexivity. Qed.

(** C10. Health data never influences a result: [adjustForHealthFactors] is
    the identity on the recommendation whatever the health data, and the
    health factor of premium pricing is the constant 1.0. *)
Theorem health_data_ignored
    (HealthData : Type) (r : RecommendationResponse) (h : HealthData)
    (a t : number) (ty : string) :
  adjustForHealthFactors r h = r
  /\ healthFactor (getPremiumFactors host_pow a t ty) = decimal 10 10
  /\ decimal 10 10 = ofZ 1.
Proof. repeat split. Qed.

End Claims.

(** * Closed instances *)

(** C1 at the profile of the first scenario, where neither the floor nor the
    cap binds and the coverage is 1350000, and at a low income, where the cap
    of 30000 is below the floor. *)
Lemma coverage_floor_then_cap_witness :
  valid_profile (profile 35 75000 2 medium) = true
  /\ valid_profile (profile 25 1000 0 medium) = true
  /\ toZ (coverage (recommendation (ref_run (profile 35 75000 2 medium)))) = Some 1350000
  /\ toZ (coverage (recommendation (ref_run (profile 25 1000 0 medium)))) = Some 30000
  /\ (exists a : Z,
        18 <= a <= 100 /\ ofZ 35 = ofZ a
        /\ incomeMultiplier (factors (ref_run (profile 35 75000 2 medium)))
           = ofZ (spec_multiplier a)
        /\ dependentsFactor (factors (ref_run (profile 35 75000 2 medium)))
           = spec_dependents_factor (ofZ 2)
        /\ riskAdjustment (factors (ref_run (profile 35 75000 2 medium)))
           = spec_risk_adjustment medium
        /\ coverage (recommendation (ref_run (profile 35 75000 2 medium)))
           = spec_coverage (ofZ 75000) (ofZ (spec_multiplier a))
               (spec_dependents_factor (ofZ 2)) (spec_risk_adjustment medium)
        /\ leb (coverage (recommendation (ref_run (profile 35 75000 2 medium))))
               (mul (ofZ 75000) (ofZ 30)) = true
        /\ (ltb (mul (ofZ 75000) (ofZ 30)) (ofZ 100000) = true ->
            coverage (recommendation (ref_run (profile 35 75000 2 medium)))
            = mul (ofZ 75000) (ofZ 30)))
  /\ (exists a : Z,
        18 <= a <= 100 /\ ofZ 25 = ofZ a
        /\ incomeMultiplier (factors (ref_run (profile 25 1000 0 medium)))
           = ofZ (spec_multiplier a)
        /\ dependentsFactor (factors (ref_run (profile 25 1000 0 medium)))
           = spec_dependents_factor (ofZ 0)
        /\ riskAdjustment (factors (ref_run (profile 25 1000 0 medium)))
           = spec_risk_adjustment medium
        /\ coverage (recommendation (ref_run (profile 25 1000 0 medium)))
           = spec_coverage (ofZ 1000) (ofZ (spec_multiplier a))
               (spec_dependents_factor (ofZ 0)) (spec_risk_adjustment medium)
        /\ leb (coverage (recommendation (ref_run (profile 25 1000 0 medium))))
               (mul (ofZ 1000) (ofZ 30)) = true
        /\ (ltb (mul (ofZ 1000) (ofZ 30)) (ofZ 100000) = true ->
            coverage (recommendation (ref_run (profile 25 1000 0 medium)))
            = mul (ofZ 1000) (ofZ 30))).
Proof.
  do 4 (split; [reflexivity|]).
  split.
  - exact (coverage_floor_then_cap ref_pow ref_toString ref_toLocaleString ref_toFixed
             (profile 35 75000 2 medium) [] eq_refl).
  - exact (coverage_floor_then_cap ref_pow ref_toString ref_toLocaleString ref_toFixed
             (profile 25 1000 0 medium) [] eq_refl).
Defined.

(** C2 at age 35, the first age of the 20-year band. *)
Lemma age_band_tables_witness :
  is_integer (ofZ 35) = true /\ leb (ofZ 18) (ofZ 35) = true
  /\ leb (ofZ 35) (ofZ 100) = true
  /\ exists a : Z,
       18 <= a <= 100 /\ ofZ 35 = ofZ a
       /\ getIncomeMultiplier (ofZ 35) = ofZ (spec_multiplier a)
       /\ determineTerm (ofZ 35) = ofZ (spec_term a)
       /\ In (spec_term a) [10; 15; 20; 30]
       /\ forall y : number,
            is_integer y = true -> leb (ofZ 18) y = true -> leb y (ofZ 100) = true ->
            leb (ofZ 35) y = true ->
            leb (determineTerm y) (determineTerm (ofZ 35)) = true.
Proof.
  split; [reflexivity|split; [reflexivity|split; [reflexivity|]]].
  exact (age_band_tables (ofZ 35) eq_refl eq_refl eq_refl).
Defined.

(** C3 at low risk tolerance and an income of 200000. *)
Lemma policy_type_first_match_witness :
  type (recommendation (ref_run (profile 40 200000 0 low))) = "Whole Life"%string.
Proof.
  apply (policy_type_first_match ref_pow ref_toString ref_toLocaleString ref_toFixed
           (profile 40 200000 0 low) []); reflexivity.
Defined.

(** C4 with the reference host, whose power is correctly rounded. *)
Lemma scenario_35_75000_2_medium_witness :
  pow_accurate ref_pow (decimal 1045 1000) 10
  /\ monthlyPremium (recommendation (ref_run (profile 35 75000 2 medium))) = ofZ 1048.
Proof.
  assert (H : pow_accurate ref_pow (decimal 1045 1000) 10)
    by (right; left; vm_compute; reflexivity).
  split; [exact H|].
  apply (scenario_35_75000_2_medium ref_pow ref_toString ref_toLocaleString ref_toFixed [] H).
Defined.

(** C5 fails where the cap is below the floor: with no income the coverage
    is 0, and with an income of 3333 it is 99990, whatever the host. *)
Lemma coverage_floor_counterexample :
  valid_profile (profile 25 0 0 medium) = true
  /\ valid_profile (profile 25 3333 0 medium) = true
  /\ forall (host_pow : number -> number -> number)
            (Number_toString toLocaleString : number -> string)
            (toFixed : number -> number -> string) (l : Log),
       coverage (recommendation (result
         (calculateRecommendation host_pow Number_toString toLocaleString toFixed
            (profile 25 0 0 medium)) l)) = ofZ 0
       /\ leb (ofZ 100000) (ofZ 0) = false
       /\ coverage (recommendation (result
            (calculateRecommendation host_pow Number_toString toLocaleString toFixed
               (profile 25 3333 0 medium)) l)) = ofZ 99990
       /\ leb (ofZ 100000) (ofZ 99990) = false.
Proof.
  split; [reflexivity|split; [reflexivity|]].
  intros. repeat split; vm_compute; reflexivity.
Qed.

(** C5 as amended, at the profile of the first scenario. *)
Lemma coverage_floor_when_cap_allows_witness :
  valid_profile (profile 35 75000 2 medium) = true
  /\ leb (ofZ 100000) (mul (ofZ 75000) (ofZ 30)) = true
  /\ leb (ofZ 100000) (coverage (recommendation (ref_run (profile 35 75000 2 medium))))
     = true.
Proof.
  split; [reflexivity|split; [reflexivity|]].
  exact (coverage_floor_when_cap_allows ref_pow ref_toString ref_toLocaleString ref_toFixed
           (profile 35 75000 2 medium) [] eq_refl eq_refl).
Defined.

(** C6 fails when the cap clips the coverage (30 for an income of 1; 100020
    for an income of 3334 with eight dependents and low risk tolerance, above
    the floor), and where multiples of 10000 stop being Numbers: at age 45
    with an income of 14411518807587000 the cap does not bind and the
    coverage is 144115188075870016, the Number nearest to 144115188075870000;
    so it is with an income of [2^60]. *)
Lemma coverage_multiple_counterexample :
  valid_profile (profile 25 1 0 high) = true
  /\ valid_profile (profile 25 3334 8 low) = true
  /\ valid_profile (profile 45 14411518807587000 0 medium) = true
  /\ valid_profile (profile 25 (2 ^ 60) 0 medium) = true
  /\ forall (host_pow : number -> number -> number)
            (Number_toString toLocaleString : number -> string)
            (toFixed : number -> number -> string) (l : Log),
       toZ (coverage (recommendation (result
         (calculateRecommendation host_pow Number_toString toLocaleString toFixed
            (profile 25 1 0 high)) l))) = Some 30
       /\ toZ (coverage (recommendation (result
            (calculateRecommendation host_pow Number_toString toLocaleString toFixed
               (profile 25 3334 8 low)) l))) = Some 100020
       /\ toZ (coverage (recommendation (result
            (calculateRecommendation host_pow Number_toString toLocaleString toFixed
               (profile 45 14411518807587000 0 medium)) l))) = Some 144115188075870016
       /\ toZ (mul (ofZ 14411518807587000) (ofZ 30)) = Some 432345564227609984
       /\ toZ (coverage (recommendation (result
            (calculateRecommendation host_pow Number_toString toLocaleString toFixed
               (profile 25 (2 ^ 60) 0 medium)) l))) = Some 17293822569102710784
       /\ toZ (mul (ofZ (2 ^ 60)) (ofZ 30)) = Some 34587645138205409280
       /\ 30 mod 10000 = 30 /\ 100020 mod 10000 = 20
       /\ 144115188075870016 mod 10000 = 16
       /\ 17293822569102710784 mod 10000 = 784.
Proof.
  do 4 (split; [reflexivity|]).
  intros. repeat split; vm_compute; reflexivity.
Qed.

(** C6 as amended, at the bound: at age 45 with an income of
    14411518807586000 the coverage is 144115188075860000. *)
Lemma coverage_multiple_when_uncapped_witness :
  valid_profile (profile 45 14411518807586000 0 medium) = true
  /\ coverage (recommendation (ref_run (profile 45 14411518807586000 0 medium)))
     <> mul (ofZ 14411518807586000) (ofZ 30)
  /\ leb (coverage (recommendation (ref_run (profile 45 14411518807586000 0 medium))))
         (ofZ 144115188075860000) = true
  /\ toZ (coverage (recommendation (ref_run (profile 45 14411518807586000 0 medium))))
     = Some 144115188075860000
  /\ exists N : Z,
       toZ (coverage (recommendation (ref_run (profile 45 14411518807586000 0 medium))))
       = Some (10000 * N).
Proof.
  assert (Hne : coverage (recommendation (ref_run (profile 45 14411518807586000 0 medium)))
                <> mul (ofZ 14411518807586000) (ofZ 30))
    by (vm_compute; discriminate).
  split; [reflexivity|split; [exact Hne|split; [reflexivity|split; [reflexivity|]]]].
  exact (coverage_multiple_when_uncapped ref_pow ref_toString ref_toLocaleString ref_toFixed
           (profile 45 14411518807586000 0 medium) [] eq_refl Hne eq_refl).
Defined.


(** * Further properties of the engine *)

(** ** Whole Numbers *)

Section WholeNumbers.

Lemma denotes_pos (m e V : Z) : 0 < m -> denotes m e V -> 0 < V.
Proof.
  intros Hm [[He HV]|[He HV]].
  - subst V. apply Z.mul_pos_pos; [assumption|apply Z.pow_pos_nonneg; lia].
  - assert (0 < 2 ^ (- e)) by (apply Z.pow_pos_nonneg; lia). nia.
Qed.

Lemma denotes_of_toZ (m : positive) (e V : Z) :
  toZ (S754_finite false m e) = Some V -> denotes (Zpos m) e V.
Proof.
  unfold toZ, denotes. cbn [cond_Zopp].
  destruct (Z.leb_spec 0 e) as [He|He].
  - intros [= <-]. left. split; [assumption|reflexivity].
  - assert (Hp : 0 < 2 ^ (- e)) by (apply Z.pow_pos_nonneg; lia).
    destruct (Z.eqb_spec (Zpos m mod 2 ^ (- e)) 0) as [Hmod|]; [|discriminate].
    intros [= <-]. right. split; [assumption|].
    pose proof (Z.div_mod (Zpos m) (2 ^ (- e)) ltac:(lia)) as E.
    rewrite Hmod in E. lia.
Qed.

Lemma denotes_mul (m1 e1 V1 m2 e2 V2 : Z) :
  denotes m1 e1 V1 -> denotes m2 e2 V2 -> denotes (m1 * m2) (e1 + e2) (V1 * V2).
Proof.
  unfold denotes.
  intros [[H1 ->]|[H1 ->]] [[H2 ->]|[H2 ->]].
  - left. split; [lia|]. rewrite pow2_split by lia. ring.
  - destruct (Z_le_gt_dec 0 (e1 + e2)) as [H|H].
    + left. split; [assumption|].
      replace e1 with ((e1 + e2) + (- e2)) at 1 by lia.
      rewrite pow2_split by lia. ring.
    + right. split; [lia|].
      replace (- e2) with (e1 + (- (e1 + e2))) at 1 by lia.
      rewrite pow2_split by lia. ring.
  - destruct (Z_le_gt_dec 0 (e1 + e2)) as [H|H].
    + left. split; [assumption|].
      replace e2 with ((e1 + e2) + (- e1)) at 1 by lia.
      rewrite pow2_split by lia. ring.
    + right. split; [lia|].
      replace (- e1) with (e2 + (- (e1 + e2))) at 1 by lia.
      rewrite pow2_split by lia. ring.
  - right. split; [lia|].
    replace (- (e1 + e2)) with (- e1 + - e2) by lia.
    rewrite pow2_split by lia. ring.
Qed.

(** Rounding an integer of at most 53 digits changes nothing. *)
Lemma bra_small_exact (mx ex V : Z) :
  0 < mx -> denotes mx ex V -> Zdigits2 mx + ex <= 53 ->
  exists m e, binary_round_aux prec emax false mx ex loc_Exact = S754_finite false m e
              /\ denotes (Zpos m) e V.
Proof.
  intros Hm Hden Hsmall.
  pose proof (Zdigits2_pos mx Hm) as HD.
  set (n := Z.max 0 (fexp prec emax (Zdigits2 mx + ex) - ex)).
  assert (Hn : 0 <= n) by (unfold n; lia).
  assert (Hp : 0 < 2 ^ n) by (apply Z.pow_pos_nonneg; lia).
  assert (Hn' : n = 0 \/ (ex < 0 /\ n <= - ex)) by (unfold n; rewrite fexp_eq; lia).
  assert (Hsplit : mx = (mx / 2 ^ n) * 2 ^ n /\ denotes (mx / 2 ^ n) (ex + n) V).
  { destruct Hn' as [Hz|[Hneg Hle]].
    - rewrite Hz, Z.pow_0_r, Z.div_1_r, Z.add_0_r. split; [lia|assumption].
    - destruct Hden as [[He _]|[_ HV]]; [lia|].
      assert (E : mx = V * 2 ^ (- ex - n) * 2 ^ n).
      { rewrite <- Z.mul_assoc, <- pow2_split by lia.
        replace (- ex - n + n) with (- ex) by lia. assumption. }
      assert (Q : mx / 2 ^ n = V * 2 ^ (- ex - n))
        by (rewrite E at 1; apply Z.div_mul; lia).
      rewrite Q. split; [assumption|].
      unfold denotes.
      destruct (Z.eq_dec (ex + n) 0) as [Ez|Enz].
      + left. split; [lia|]. rewrite Ez, Z.pow_0_r.
        replace (- ex - n) with 0 by lia. rewrite Z.pow_0_r. lia.
      + right. split; [lia|]. f_equal; f_equal; lia. }
  destruct Hsplit as [Hmx Hden'].
  assert (Hm1 : 0 < mx / 2 ^ n) by nia.
  rewrite bra_exact; [|assumption|fold n; rewrite Hmx; apply Z.mod_mul; lia].
  fold n.
  destruct (Z.leb_spec (ex + n) 971) as [_|Hov];
    [|unfold n in Hov; rewrite fexp_eq in Hov; lia].
  exists (Z.to_pos (mx / 2 ^ n)), (ex + n). split; [reflexivity|].
  rewrite Z2Pos.id by assumption. assumption.
Qed.

Lemma bra_whole (mx ex V : Z) :
  0 < mx -> denotes mx ex V ->
  whole (binary_round_aux prec emax false mx ex loc_Exact).
Proof.
  intros Hm Hden.
  destruct (Z_le_gt_dec (Zdigits2 mx + ex) 53) as [Hsmall|Hbig].
  - destruct (bra_small_exact mx ex V Hm Hden Hsmall) as (m & e & E & HV).
    right; right. exists m, e, V. split; assumption.
  - destruct (bra_shape false mx ex loc_Exact Hm) as (m3 & e3 & H1 & H2 & H3 & H4 & H5);
      [lia|].
    rewrite H5.
    destruct (e3 <=? 971); [|right; left; reflexivity].
    right; right. exists (Z.to_pos m3), e3, (m3 * 2 ^ e3).
    split; [reflexivity|]. left. split; [lia|].
    rewrite Z2Pos.id by assumption. reflexivity.
Qed.

(** The product of whole Numbers is whole. *)
Lemma mul_whole (x y : number) :
  whole x ->
  (exists m e V, y = S754_finite false m e /\ denotes (Zpos m) e V) ->
  whole (mul x y).
Proof.
  intros Hx (my & ey & Vy & -> & Hy).
  destruct Hx as [[s ->]|[->|(mx & ex & Vx & -> & Hx)]].
  - left. exists (xorb s false). reflexivity.
  - right; left. reflexivity.
  - unfold mul, SFmul. cbn [xorb]. rewrite Pos2Z.inj_mul.
    apply (bra_whole _ _ (Vx * Vy)); [lia|].
    apply denotes_mul; assumption.
Qed.

Lemma integer_whole (x : number) :
  is_integer x = true -> nonneg x = true -> whole x.
Proof.
  intros Hi Hn.
  destruct (nonneg_cases x Hn) as [[s ->]|[->|(m & e & ->)]].
  - left. exists s. reflexivity.
  - right; left. reflexivity.
  - right; right.
    unfold is_integer in Hi. apply andb_prop in Hi as [_ Hi].
    destruct (toZ (S754_finite false m e)) as [V|] eqn:E; [|discriminate].
    exists m, e, V. split; [reflexivity|apply denotes_of_toZ; assumption].
Qed.

Lemma whole_toZ (x : number) :
  whole x -> x = S754_infinity false \/ exists n : Z, 0 <= n /\ toZ x = Some n.
Proof.
  intros [[s ->]|[->|(m & e & V & -> & HV)]].
  - right. exists 0. split; [lia|reflexivity].
  - left. reflexivity.
  - right. exists V. split.
    + pose proof (denotes_pos (Zpos m) e V ltac:(lia) HV). lia.
    + apply toZ_denotes. assumption.
Qed.

Lemma whole_nonneg (x : number) : whole x -> nonneg x = true.
Proof.
  intros [[s ->]|[->|(m & e & V & -> & HV)]]; reflexivity.
Qed.

Lemma Math_round_whole (x : number) : nonneg x = true -> whole (Math_round x).
Proof. exact (Math_round_integral x). Qed.

Lemma ofZ_whole_const (x : number) (n : Z) :
  pos_finite x = true -> toZ x = Some n -> 
  exists m e V, x = S754_finite false m e /\ denotes (Zpos m) e V.
Proof.
  intros Hp Hz.
  destruct (pos_finite_cases x Hp) as (m & e & ->).
  exists m, e, n. split; [reflexivity|apply denotes_of_toZ; assumption].
Qed.

End WholeNumbers.


(** ** What the engine returns *)

Section EngineResults.

Variable host_pow : number -> number -> number.
Variables Number_toString toLocaleString : number -> string.
Variable toFixed : number -> number -> string.

Local Abbreviation run p l :=
  (result (calculateRecommendation host_pow Number_toString toLocaleString toFixed p) l).

Lemma ten_thousand_denotes :
  exists m e V, ofZ 10000 = S754_finite false m e /\ denotes (Zpos m) e V.
Proof. apply (ofZ_whole_const (ofZ 10000) 10000); reflexivity. Qed.

Lemma thirty_denotes :
  exists m e V, INCOME_CAP_MULTIPLIER = S754_finite false m e /\ denotes (Zpos m) e V.
Proof. apply (ofZ_whole_const INCOME_CAP_MULTIPLIER 30); reflexivity. Qed.

Lemma MIN_COVERAGE_whole : whole MIN_COVERAGE.
Proof.
  right; right. apply (ofZ_whole_const MIN_COVERAGE 100000); reflexivity.
Qed.

Lemma calculateCoverage_whole (income im df ra : number) :
  is_integer income = true -> nonneg income = true ->
  pos_finite im = true -> pos_finite df = true -> pos_finite ra = true ->
  whole (calculateCoverage income im df ra).
Proof.
  intros Hi Hnn Him Hdf Hra.
  rewrite calculateCoverage_eq.
  set (snapped := mul (Math_round (div (mul (mul (mul income im) df) ra) (ofZ 10000)))
                      (ofZ 10000)).
  assert (Hs : whole snapped).
  { apply mul_whole; [|exact ten_thousand_denotes].
    apply Math_round_whole. apply div_nonneg; [|reflexivity].
    repeat apply mul_nonneg; assumption. }
  assert (Hc : whole (mul income INCOME_CAP_MULTIPLIER)).
  { apply mul_whole; [|exact thirty_denotes]. apply integer_whole; assumption. }
  assert (Hf : whole (Math_max snapped MIN_COVERAGE)).
  { destruct (Math_max_cases snapped MIN_COVERAGE
                (nonneg_not_nan _ (whole_nonneg _ Hs)) eq_refl) as [E|E]; rewrite E;
      [assumption|exact MIN_COVERAGE_whole]. }
  destruct (Math_min_cases (Math_max snapped MIN_COVERAGE) (mul income INCOME_CAP_MULTIPLIER)
              (nonneg_not_nan _ (whole_nonneg _ Hf))
              (nonneg_not_nan _ (whole_nonneg _ Hc))) as [E|E];
    rewrite E; assumption.
Qed.

Lemma valid_coverage_whole (p : UserProfile) :
  valid_profile p = true ->
  whole (calculateCoverage (income p) (getIncomeMultiplier (age p))
           (add (ofZ 1) (mul (dependents p) DEPENDENT_MULTIPLIER))
           (RISK_ADJUSTMENTS (riskTolerance p))).
Proof.
  intros Hv.
  destruct (valid_profile_inv p Hv) as (_ & _ & _ & Hii & Hinc & Hdi & Hd).
  apply calculateCoverage_whole;
    auto using leb_zero_nonneg, getIncomeMultiplier_pos_finite,
      dependentsFactor_pos_finite, RISK_ADJUSTMENTS_pos_finite.
Qed.

(** X1. For every valid profile the coverage is never NaN, negative or
    fractional: it is [+Infinity] or a non-negative integer. *)
Theorem coverage_is_whole (p : UserProfile) (l : Log) :
  valid_profile p = true ->
  nonneg (coverage (recommendation (run p l))) = true
  /\ (coverage (recommendation (run p l)) = S754_infinity false
      \/ exists n : Z, 0 <= n /\ toZ (coverage (recommendation (run p l))) = Some n).
Proof.
  intros Hv. rewrite (run_coverage host_pow Number_toString toLocaleString toFixed p l).
  pose proof (valid_coverage_whole p Hv) as Hw.
  split; [apply whole_nonneg|apply whole_toZ]; assumption.
Qed.

Lemma termFactor_pos_finite (a t : number) (ty : string) :
  pos_finite (termFactor (getPremiumFactors host_pow a t ty)) = true.
Proof.
  unfold getPremiumFactors. cbn [termFactor].
  destruct (eqb t (ofZ 10)); [reflexivity|].
  destruct (eqb t (ofZ 15)); [reflexivity|].
  destruct (eqb t (ofZ 20)); [reflexivity|].
  destruct (eqb t (ofZ 30)); reflexivity.
Qed.

Lemma typeFactor_pos_finite (a t : number) (ty : string) :
  pos_finite (typeFactor (getPremiumFactors host_pow a t ty)) = true.
Proof.
  unfold getPremiumFactors. cbn [typeFactor].
  destruct (String.eqb ty "Term Life"); [reflexivity|].
  destruct (String.eqb ty "Whole Life"); [reflexivity|].
  destruct (String.eqb ty "Universal Life"); reflexivity.
Qed.

Lemma calculatePremium_whole (a c t : number) (ty : string) (r : RiskTolerance) :
  nonneg c = true ->
  pos_finite (Math_pow host_pow (decimal 1045 1000) (sub a (ofZ 25))) = true ->
  whole (calculatePremium host_pow a c t ty r).
Proof.
  intros Hc Hpow.
  unfold calculatePremium.
  apply Math_round_whole.
  pose proof (termFactor_pos_finite a t ty) as Ht.
  pose proof (typeFactor_pos_finite a t ty) as Hy.
  assert (Hbase : nonneg
            (mul (mul (mul (mul (mul (div c (ofZ 1000))
                                     (basePremiumRate (getPremiumFactors host_pow a t ty)))
                                (ageFactor (getPremiumFactors host_pow a t ty)))
                           (termFactor (getPremiumFactors host_pow a t ty)))
                      (typeFactor (getPremiumFactors host_pow a t ty)))
                 (healthFactor (getPremiumFactors host_pow a t ty))) = true).
  { apply mul_nonneg; [|reflexivity].
    apply mul_nonneg; [|assumption].
    apply mul_nonneg; [|assumption].
    apply mul_nonneg; [|exact Hpow].
    apply mul_nonneg; [|reflexivity].
    apply div_nonneg; [assumption|reflexivity]. }
  destruct r; [apply mul_nonneg; [assumption|reflexivity]|assumption
              |apply mul_nonneg; [assumption|reflexivity]].
Qed.

(** X2. For every valid profile, when the host's power [1.045^(age - 25)] is
    positive and finite, the monthly premium is never NaN, negative or
    fractional: it is [+Infinity] or a non-negative integer. *)
Theorem premium_is_whole (p : UserProfile) (l : Log) :
  valid_profile p = true ->
  pos_finite (Math_pow host_pow (decimal 1045 1000) (sub (age p) (ofZ 25))) = true ->
  nonneg (monthlyPremium (recommendation (run p l))) = true
  /\ (monthlyPremium (recommendation (run p l)) = S754_infinity false
      \/ exists n : Z, 0 <= n /\ toZ (monthlyPremium (recommendation (run p l))) = Some n).
Proof.
  intros Hv Hpow.
  change (monthlyPremium (recommendation (run p l)))
    with (calculatePremium host_pow (age p)
            (calculateCoverage (income p) (getIncomeMultiplier (age p))
               (add (ofZ 1) (mul (dependents p) DEPENDENT_MULTIPLIER))
               (RISK_ADJUSTMENTS (riskTolerance p)))
            (determineTerm (age p)) (determineInsuranceType p) (riskTolerance p)).
  assert (Hw : whole (calculatePremium host_pow (age p)
            (calculateCoverage (income p) (getIncomeMultiplier (age p))
               (add (ofZ 1) (mul (dependents p) DEPENDENT_MULTIPLIER))
               (RISK_ADJUSTMENTS (riskTolerance p)))
            (determineTerm (age p)) (determineInsuranceType p) (riskTolerance p))).
  { apply calculatePremium_whole; [|assumption].
    apply whole_nonneg, valid_coverage_whole; assumption. }
  split; [apply whole_nonneg|apply whole_toZ]; assumption.
Qed.

End EngineResults.


Section EngineEdges.

Variable host_pow : number -> number -> number.
Variables Number_toString toLocaleString : number -> string.
Variable toFixed : number -> number -> string.

Local Abbreviation run p l :=
  (result (calculateRecommendation host_pow Number_toString toLocaleString toFixed p) l).

Lemma eqb_zero_cases (x : number) :
  eqb x (ofZ 0) = true -> exists s, x = S754_zero s.
Proof.
  destruct x as [s|[|]| |[|] m e]; try discriminate. intros _. exists s. reflexivity.
Qed.

Lemma mul_zero_l (s : bool) (y : number) :
  pos_finite y = true -> mul (S754_zero s) y = S754_zero s.
Proof.
  intros Hy. destruct (pos_finite_cases y Hy) as (m & e & ->).
  destruct s; reflexivity.
Qed.

(** X3. With an income of zero every valid profile is quoted nothing: the
    coverage is 0 and, when the host's power is positive and finite, so is
    the monthly premium, whatever the age, dependents and risk tolerance. *)
Theorem zero_income_zero_quote (p : UserProfile) (l : Log) :
  valid_profile p = true ->
  eqb (income p) (ofZ 0) = true ->
  pos_finite (Math_pow host_pow (decimal 1045 1000) (sub (age p) (ofZ 25))) = true ->
  eqb (coverage (recommendation (run p l))) (ofZ 0) = true
  /\ eqb (monthlyPremium (recommendation (run p l))) (ofZ 0) = true.
Proof.
  intros Hv Hz Hpow.
  destruct (valid_profile_inv p Hv) as (_ & _ & _ & _ & _ & Hdi & Hd).
  destruct (eqb_zero_cases _ Hz) as [s Hs].
  pose proof (getIncomeMultiplier_pos_finite (age p)) as Him.
  pose proof (dependentsFactor_pos_finite _ Hdi Hd) as Hdf.
  pose proof (RISK_ADJUSTMENTS_pos_finite (riskTolerance p)) as Hra.
  assert (Hcov : calculateCoverage (income p) (getIncomeMultiplier (age p))
                   (add (ofZ 1) (mul (dependents p) DEPENDENT_MULTIPLIER))
                   (RISK_ADJUSTMENTS (riskTolerance p)) = S754_zero s).
  { rewrite calculateCoverage_eq, Hs.
    rewrite !mul_zero_l by (assumption || reflexivity).
    destruct s; reflexivity. }
  change (coverage (recommendation (run p l)))
    with (calculateCoverage (income p) (getIncomeMultiplier (age p))
            (add (ofZ 1) (mul (dependents p) DEPENDENT_MULTIPLIER))
            (RISK_ADJUSTMENTS (riskTolerance p))).
  change (monthlyPremium (recommendation (run p l)))
    with (calculatePremium host_pow (age p)
            (calculateCoverage (income p) (getIncomeMultiplier (age p))
               (add (ofZ 1) (mul (dependents p) DEPENDENT_MULTIPLIER))
               (RISK_ADJUSTMENTS (riskTolerance p)))
            (determineTerm (age p)) (determineInsuranceType p) (riskTolerance p)).
  rewrite Hcov. split; [destruct s; reflexivity|].
  unfold calculatePremium.
  assert (Hu : div (S754_zero s) (ofZ 1000) = S754_zero s) by (destruct s; reflexivity).
  rewrite Hu.
  rewrite (mul_zero_l s (basePremiumRate _)) by reflexivity.
  rewrite (mul_zero_l s (ageFactor _)) by exact Hpow.
  rewrite (mul_zero_l s (termFactor _)) by apply termFactor_pos_finite.
  rewrite (mul_zero_l s (typeFactor _)) by apply typeFactor_pos_finite.
  rewrite (mul_zero_l s (healthFactor _)) by reflexivity.
  destruct (riskTolerance p); try rewrite mul_zero_l by reflexivity;
    destruct s; reflexivity.
Qed.

(** X4. The policy type is always one of the three known types; a high risk
    tolerance always gives Term Life, a low one never Universal Life, a
    medium one never Whole Life, and Universal Life is only ever recommended
    below age 50 with an income above 200000. *)
Theorem policy_type_range (p : UserProfile) (l : Log) :
  (type (recommendation (run p l)) = "Term Life"%string
   \/ type (recommendation (run p l)) = "Whole Life"%string
   \/ type (recommendation (run p l)) = "Universal Life"%string)
  /\ (riskTolerance p = high -> type (recommendation (run p l)) = "Term Life"%string)
  /\ (riskTolerance p = low -> type (recommendation (run p l)) <> "Universal Life"%string)
  /\ (riskTolerance p = medium -> type (recommendation (run p l)) <> "Whole Life"%string)
  /\ (type (recommendation (run p l)) = "Universal Life"%string ->
      ltb (age p) (ofZ 50) = true /\ gtb (income p) (ofZ 200000) = true)
  /\ (type (recommendation (run p l)) = "Whole Life"%string ->
      gtb (income p) (ofZ 150000) = true).
Proof.
  change (type (recommendation (run p l))) with (determineInsuranceType p).
  unfold determineInsuranceType.
  destruct (riskTolerance p);
    destruct (gtb (income p) (ofZ 150000));
    destruct (gtb (income p) (ofZ 200000));
    destruct (ltb (age p) (ofZ 50));
    cbn [andb]; repeat split; auto; intros; try discriminate; try congruence.
Qed.

(** X5. The factor tables of premium pricing are always hit by what the
    engine feeds them: the term chosen for an age and its term factor go
    together band by band (30 years with 0.9, 20 with 1.0, 15 with 1.1, 10
    with 1.2), and the type factor is 1.0, 3.5 or 2.5 according to the type
    chosen for the profile; the defaults of the two switches are never
    what decides. *)
Theorem premium_factors_by_band (p : UserProfile) :
  ((ltb (age p) (ofZ 35) = true
    /\ determineTerm (age p) = ofZ 30
    /\ termFactor (getPremiumFactors host_pow (age p) (determineTerm (age p))
                     (determineInsuranceType p)) = decimal 9 10)
   \/ (ltb (age p) (ofZ 35) = false /\ ltb (age p) (ofZ 45) = true
       /\ determineTerm (age p) = ofZ 20
       /\ termFactor (getPremiumFactors host_pow (age p) (determineTerm (age p))
                        (determineInsuranceType p)) = decimal 10 10)
   \/ (ltb (age p) (ofZ 45) = false /\ ltb (age p) (ofZ 55) = true
       /\ determineTerm (age p) = ofZ 15
       /\ termFactor (getPremiumFactors host_pow (age p) (determineTerm (age p))
                        (determineInsuranceType p)) = decimal 11 10)
   \/ (ltb (age p) (ofZ 55) = false
       /\ determineTerm (age p) = ofZ 10
       /\ termFactor (getPremiumFactors host_pow (age p) (determineTerm (age p))
                        (determineInsuranceType p)) = decimal 12 10))
  /\ ((determineInsuranceType p = "Term Life"%string
       /\ typeFactor (getPremiumFactors host_pow (age p) (determineTerm (age p))
                        (determineInsuranceType p)) = decimal 10 10)
      \/ (determineInsuranceType p = "Whole Life"%string
          /\ typeFactor (getPremiumFactors host_pow (age p) (determineTerm (age p))
                           (determineInsuranceType p)) = decimal 35 10)
      \/ (determineInsuranceType p = "Universal Life"%string
          /\ typeFactor (getPremiumFactors host_pow (age p) (determineTerm (age p))
                           (determineInsuranceType p)) = decimal 25 10)).
Proof.
  split.
  - unfold determineTerm.
    destruct (ltb (age p) (ofZ 35)) eqn:E1; [left; repeat split|right].
    destruct (ltb (age p) (ofZ 45)) eqn:E2; [left; repeat split|right].
    destruct (ltb (age p) (ofZ 55)) eqn:E3; [left; repeat split|right; repeat split].
  - unfold determineInsuranceType.
    destruct (_ && _); [right; left; split; reflexivity|].
    destruct (_ && _); [right; right; split; reflexivity|left; split; reflexivity].
Qed.

End EngineEdges.


(** ** Income multiplier and the options compared *)

Section Options.

Variable host_pow : number -> number -> number.
Variables Number_toString toLocaleString : number -> string.
Variable toFixed : number -> number -> string.

Local Abbreviation run p l :=
  (result (calculateRecommendation host_pow Number_toString toLocaleString toFixed p) l).

Lemma spec_multiplier_values (a : Z) : In (spec_multiplier a) [8; 10; 12; 15].
Proof.
  unfold spec_multiplier.
  destruct (a <? 30); [simpl; auto|].
  destruct (a <? 40); [simpl; auto|].
  destruct (a <? 50); simpl; auto.
Qed.

Lemma spec_multiplier_antitone (a b : Z) :
  a <= b -> spec_multiplier b <= spec_multiplier a.
Proof.
  intros H. unfold spec_multiplier.
  destruct (Z.ltb_spec a 30), (Z.ltb_spec a 40), (Z.ltb_spec a 50),
    (Z.ltb_spec b 30), (Z.ltb_spec b 40), (Z.ltb_spec b 50); lia.
Qed.

Lemma multiplier_leb (s t : Z) :
  In s [8; 10; 12; 15] -> In t [8; 10; 12; 15] -> s <= t ->
  leb (ofZ s) (ofZ t) = true.
Proof.
  simpl. intros Hs Ht Hle.
  repeat (destruct Hs as [<-|Hs]; [|]); try contradiction;
    repeat (destruct Ht as [<-|Ht]; [|]); try contradiction;
    try lia; vm_compute; reflexivity.
Qed.

(** X6. Over the valid ages the income multiplier never increases with age:
    an older applicant is never given a larger multiple of income. *)
Theorem income_multiplier_antitone (x y : number) :
  is_integer x = true -> leb (ofZ 18) x = true -> leb x (ofZ 100) = true ->
  is_integer y = true -> leb (ofZ 18) y = true -> leb y (ofZ 100) = true ->
  leb x y = true ->
  leb (getIncomeMultiplier y) (getIncomeMultiplier x) = true.
Proof.
  intros Hxi Hxlo Hxhi Hyi Hylo Hyhi Hle.
  destruct (valid_age_ofZ x Hxi Hxlo Hxhi) as (a & Ha & ->).
  destruct (valid_age_ofZ y Hyi Hylo Hyhi) as (b & Hb & ->).
  destruct (age_band_at a (ages_complete a Ha)) as [-> _].
  destruct (age_band_at b (ages_complete b Hb)) as [-> _].
  apply multiplier_leb; try apply spec_multiplier_values.
  apply spec_multiplier_antitone. apply ages_order; assumption.
Qed.

Lemma with_riskTolerance_same (p : UserProfile) :
  with_riskTolerance p (riskTolerance p) = p.
Proof. destruct p; reflexivity. Qed.

(** X7. [compareOptions] returns exactly three alternatives, in the order
    Recommended (1), Maximum Protection (2), Budget-Friendly (3): the
    engine's answers for the profile itself, for the profile at low and at
    high risk tolerance. The three share the term, the income multiplier and
    the dependents factor and differ only through the risk adjustment (1.2
    and 0.8 for the last two); Budget-Friendly is always Term Life, Maximum
    Protection is never Universal Life, and an alternative at the profile's
    own risk tolerance repeats the recommended answer. *)
Theorem compareOptions_alternatives (p : UserProfile) (l : Log) :
  result (compareOptions host_pow Number_toString toLocaleString toFixed p) l
  = [ labelled (run p l) "Recommended"%string (ofZ 1);
      labelled (run (with_riskTolerance p low) l) "Maximum Protection"%string (ofZ 2);
      labelled (run (with_riskTolerance p high) l) "Budget-Friendly"%string (ofZ 3) ]
  /\ term (recommendation (run (with_riskTolerance p low) l))
     = term (recommendation (run p l))
  /\ term (recommendation (run (with_riskTolerance p high) l))
     = term (recommendation (run p l))
  /\ incomeMultiplier (factors (run (with_riskTolerance p low) l))
     = incomeMultiplier (factors (run p l))
  /\ incomeMultiplier (factors (run (with_riskTolerance p high) l))
     = incomeMultiplier (factors (run p l))
  /\ dependentsFactor (factors (run (with_riskTolerance p low) l))
     = dependentsFactor (factors (run p l))
  /\ dependentsFactor (factors (run (with_riskTolerance p high) l))
     = dependentsFactor (factors (run p l))
  /\ riskAdjustment (factors (run (with_riskTolerance p low) l)) = decimal 12 10
  /\ riskAdjustment (factors (run (with_riskTolerance p high) l)) = decimal 8 10
  /\ type (recommendation (run (with_riskTolerance p high) l)) = "Term Life"%string
  /\ type (recommendation (run (with_riskTolerance p low) l)) <> "Universal Life"%string
  /\ (riskTolerance p = low -> run (with_riskTolerance p low) l = run p l)
  /\ (riskTolerance p = high -> run (with_riskTolerance p high) l = run p l).
Proof.
  repeat split; try reflexivity.
  - change (type (recommendation (run (with_riskTolerance p low) l)))
      with (determineInsuranceType (with_riskTolerance p low)).
    unfold determineInsuranceType. cbn [riskTolerance with_riskTolerance andb].
    destruct (gtb _ _); discriminate.
  - intros <-. rewrite with_riskTolerance_same. reflexivity.
  - intros <-. rewrite with_riskTolerance_same. reflexivity.
Qed.

End Options.


(** ** Closed instances of the further properties *)

(** X1 at the profile of the first scenario. *)
Lemma coverage_is_whole_witness :
  valid_profile (profile 35 75000 2 medium) = true
  /\ nonneg (coverage (recommendation (ref_run (profile 35 75000 2 medium)))) = true
  /\ (coverage (recommendation (ref_run (profile 35 75000 2 medium))) = S754_infinity false
      \/ exists n : Z,
           0 <= n
           /\ toZ (coverage (recommendation (ref_run (profile 35 75000 2 medium)))) = Some n).
Proof.
  split; [reflexivity|].
  exact (coverage_is_whole ref_pow ref_toString ref_toLocaleString ref_toFixed
           (profile 35 75000 2 medium) [] eq_refl).
Defined.

(** X2 at the profile of the first scenario, with the reference host. *)
Lemma premium_is_whole_witness :
  valid_profile (profile 35 75000 2 medium) = true
  /\ pos_finite (Math_pow ref_pow (decimal 1045 1000) (sub (ofZ 35) (ofZ 25))) = true
  /\ nonneg (monthlyPremium (recommendation (ref_run (profile 35 75000 2 medium)))) = true
  /\ (monthlyPremium (recommendation (ref_run (profile 35 75000 2 medium)))
      = S754_infinity false
      \/ exists n : Z,
           0 <= n
           /\ toZ (monthlyPremium (recommendation (ref_run (profile 35 75000 2 medium))))
              = Some n).
Proof.
  split; [reflexivity|split; [reflexivity|]].
  exact (premium_is_whole ref_pow ref_toString ref_toLocaleString ref_toFixed
           (profile 35 75000 2 medium) [] eq_refl eq_refl).
Defined.

(** X3 at age 60 with three dependents and no income. *)
Lemma zero_income_zero_quote_witness :
  valid_profile (profile 60 0 3 low) = true
  /\ eqb (income (profile 60 0 3 low)) (ofZ 0) = true
  /\ pos_finite (Math_pow ref_pow (decimal 1045 1000) (sub (ofZ 60) (ofZ 25))) = true
  /\ eqb (coverage (recommendation (ref_run (profile 60 0 3 low)))) (ofZ 0) = true
  /\ eqb (monthlyPremium (recommendation (ref_run (profile 60 0 3 low)))) (ofZ 0) = true.
Proof.
  split; [reflexivity|split; [reflexivity|split; [vm_compute; reflexivity|]]].
  apply (zero_income_zero_quote ref_pow ref_toString ref_toLocaleString ref_toFixed
           (profile 60 0 3 low) []); [reflexivity|reflexivity|vm_compute; reflexivity].
Defined.

(** X6 between ages 29 and 30, across the first band boundary. *)
Lemma income_multiplier_antitone_witness :
  is_integer (ofZ 29) = true /\ leb (ofZ 18) (ofZ 29) = true
  /\ leb (ofZ 29) (ofZ 100) = true
  /\ is_integer (ofZ 30) = true /\ leb (ofZ 18) (ofZ 30) = true
  /\ leb (ofZ 30) (ofZ 100) = true
  /\ leb (ofZ 29) (ofZ 30) = true
  /\ leb (getIncomeMultiplier (ofZ 30)) (getIncomeMultiplier (ofZ 29)) = true.
Proof.
  repeat (split; [reflexivity|]).
  exact (income_multiplier_antitone (ofZ 29) (ofZ 30)
           eq_refl eq_refl eq_refl eq_refl eq_refl eq_refl eq_refl).
Defined.

(** * Order properties of the engine *)

(** ** Premium *)

Section PremiumOrder.

Lemma ord_one : ord (ofZ 1) = 2 ^ 1074.
Proof. reflexivity. Qed.

(** Multiplying by a factor of at most one never enlarges, by a factor of
    at least one never shrinks. *)
Lemma mul_shrink (x y : number) :
  proper x = true -> proper y = true -> pos_finite y = true ->
  ord y <= ord (ofZ 1) -> ord (mul x y) <= ord x.
Proof.
  intros Hx Hy Hp Hle. rewrite ord_one in Hle.
  assert (HU : 0 < 2 ^ 1074) by (apply pow2_pos; lia).
  destruct (proper_inf_or_below x Hx) as [->|Hlt].
  - rewrite mul_inf by assumption. lia.
  - assert (Hni : x <> S754_infinity false) by (intros ->; cbn [ord] in Hlt; lia).
    destruct (mul_ord x y Hx Hni Hy Hp) as [-> _].
    pose proof (ord_range x Hx) as [H0 _].
    pose proof (ord_pos_finite y Hy Hp).
    rewrite <- (round53_id x Hx Hni) at 2.
    rewrite <- (round53_scale (ord x) 1 (2 ^ 1074)) by lia.
    rewrite Z.mul_1_l.
    apply round53_mono_same; [|assumption].
    split; [apply Z.mul_nonneg_nonneg; lia|].
    apply Z.mul_le_mono_nonneg_l; assumption.
Qed.

Lemma mul_grow (x y : number) :
  proper x = true -> proper y = true -> pos_finite y = true ->
  ord (ofZ 1) <= ord y -> ord x <= ord (mul x y).
Proof.
  intros Hx Hy Hp Hle. rewrite ord_one in Hle.
  assert (HU : 0 < 2 ^ 1074) by (apply pow2_pos; lia).
  destruct (proper_inf_or_below x Hx) as [->|Hlt].
  - rewrite mul_inf by assumption. lia.
  - assert (Hni : x <> S754_infinity false) by (intros ->; cbn [ord] in Hlt; lia).
    destruct (mul_ord x y Hx Hni Hy Hp) as [-> _].
    pose proof (ord_range x Hx) as [H0 _].
    rewrite <- (round53_id x Hx Hni) at 1.
    rewrite <- (round53_scale (ord x) 1 (2 ^ 1074)) by lia.
    rewrite Z.mul_1_l.
    apply round53_mono_same; [|assumption].
    split; [apply Z.mul_nonneg_nonneg; lia|].
    apply Z.mul_le_mono_nonneg_l; assumption.
Qed.

Lemma termFactor_proper (h : number -> number -> number) (a t : number) (ty : string) :
  proper (termFactor (getPremiumFactors h a t ty)) = true.
Proof.
  unfold getPremiumFactors. cbn [termFactor].
  destruct (eqb t (ofZ 10)); [reflexivity|].
  destruct (eqb t (ofZ 15)); [reflexivity|].
  destruct (eqb t (ofZ 20)); [reflexivity|].
  destruct (eqb t (ofZ 30)); reflexivity.
Qed.

Lemma typeFactor_proper (h : number -> number -> number) (a t : number) (ty : string) :
  proper (typeFactor (getPremiumFactors h a t ty)) = true.
Proof.
  unfold getPremiumFactors. cbn [typeFactor].
  destruct (String.eqb ty "Term Life"); [reflexivity|].
  destruct (String.eqb ty "Whole Life"); [reflexivity|].
  destruct (String.eqb ty "Universal Life"); reflexivity.
Qed.

(** The premium before the risk discount or surcharge and before rounding. *)
Let base (h : number -> number -> number) (a c t : number) (ty : string) : number :=
  mul (mul (mul (mul (mul (div c (ofZ 1000))
                          (basePremiumRate (getPremiumFactors h a t ty)))
                     (ageFactor (getPremiumFactors h a t ty)))
                (termFactor (getPremiumFactors h a t ty)))
           (typeFactor (getPremiumFactors h a t ty)))
      (healthFactor (getPremiumFactors h a t ty)).

Lemma calculatePremium_base
    (h : number -> number -> number) (a c t : number) (ty : string) (r : RiskTolerance) :
  calculatePremium h a c t ty r
  = Math_round match r with
               | high => mul (base h a c t ty) (decimal 95 100)
               | low => mul (base h a c t ty) (decimal 105 100)
               | medium => base h a c t ty
               end.
Proof. reflexivity. Qed.

Lemma base_proper (h : number -> number -> number) (a c t : number) (ty : string) :
  proper c = true ->
  proper (ageFactor (getPremiumFactors h a t ty)) = true ->
  pos_finite (ageFactor (getPremiumFactors h a t ty)) = true ->
  proper (base h a c t ty) = true.
Proof.
  intros Hc Ha Pa. unfold base.
  apply mul_proper; [|reflexivity|reflexivity].
  apply mul_proper; [|apply typeFactor_proper|apply typeFactor_pos_finite].
  apply mul_proper; [|apply termFactor_proper|apply termFactor_pos_finite].
  apply mul_proper; [|assumption|assumption].
  apply mul_proper; [|reflexivity|reflexivity].
  apply div_proper; [assumption|reflexivity|reflexivity].
Qed.

Lemma base_mono
    (h h' : number -> number -> number) (a a' c c' t t' : number) (ty ty' : string) :
  proper c = true -> proper c' = true -> ord c <= ord c' ->
  proper (ageFactor (getPremiumFactors h a t ty)) = true ->
  pos_finite (ageFactor (getPremiumFactors h a t ty)) = true ->
  proper (ageFactor (getPremiumFactors h' a' t' ty')) = true ->
  pos_finite (ageFactor (getPremiumFactors h' a' t' ty')) = true ->
  ord (ageFactor (getPremiumFactors h a t ty))
  <= ord (ageFactor (getPremiumFactors h' a' t' ty')) ->
  ord (termFactor (getPremiumFactors h a t ty))
  <= ord (termFactor (getPremiumFactors h' a' t' ty')) ->
  ord (typeFactor (getPremiumFactors h a t ty))
  <= ord (typeFactor (getPremiumFactors h' a' t' ty')) ->
  ord (base h a c t ty) <= ord (base h' a' c' t' ty').
Proof.
  intros Hc Hc' Lc Ha Pa Ha' Pa' La Lt Ly. unfold base.
  assert (P1 : proper (div c (ofZ 1000)) = true)
    by (apply div_proper; [assumption|reflexivity|reflexivity]).
  assert (P1' : proper (div c' (ofZ 1000)) = true)
    by (apply div_proper; [assumption|reflexivity|reflexivity]).
  assert (L1 : ord (div c (ofZ 1000)) <= ord (div c' (ofZ 1000)))
    by (apply div_mono; try assumption; reflexivity).
  set (u := div c (ofZ 1000)) in *. set (u' := div c' (ofZ 1000)) in *.
  assert (P2 : proper (mul u (basePremiumRate (getPremiumFactors h a t ty))) = true)
    by (apply mul_proper; [assumption|reflexivity|reflexivity]).
  assert (P2' : proper (mul u' (basePremiumRate (getPremiumFactors h' a' t' ty'))) = true)
    by (apply mul_proper; [assumption|reflexivity|reflexivity]).
  assert (L2 : ord (mul u (basePremiumRate (getPremiumFactors h a t ty)))
               <= ord (mul u' (basePremiumRate (getPremiumFactors h' a' t' ty'))))
    by (apply mul_mono; try assumption; reflexivity).
  set (v := mul u _) in *. set (v' := mul u' _) in *.
  assert (P3 : proper (mul v (ageFactor (getPremiumFactors h a t ty))) = true)
    by (apply mul_proper; assumption).
  assert (P3' : proper (mul v' (ageFactor (getPremiumFactors h' a' t' ty'))) = true)
    by (apply mul_proper; assumption).
  assert (L3 : ord (mul v (ageFactor (getPremiumFactors h a t ty)))
               <= ord (mul v' (ageFactor (getPremiumFactors h' a' t' ty'))))
    by (apply mul_mono; assumption).
  set (w := mul v _) in *. set (w' := mul v' _) in *.
  assert (P4 : proper (mul w (termFactor (getPremiumFactors h a t ty))) = true)
    by (apply mul_proper; [assumption|apply termFactor_proper|apply termFactor_pos_finite]).
  assert (P4' : proper (mul w' (termFactor (getPremiumFactors h' a' t' ty'))) = true)
    by (apply mul_proper; [assumption|apply termFactor_proper|apply termFactor_pos_finite]).
  assert (L4 : ord (mul w (termFactor (getPremiumFactors h a t ty)))
               <= ord (mul w' (termFactor (getPremiumFactors h' a' t' ty'))))
    by (apply mul_mono;
        auto using termFactor_proper, termFactor_pos_finite).
  set (x := mul w _) in *. set (x' := mul w' _) in *.
  assert (P5 : proper (mul x (typeFactor (getPremiumFactors h a t ty))) = true)
    by (apply mul_proper; [assumption|apply typeFactor_proper|apply typeFactor_pos_finite]).
  assert (P5' : proper (mul x' (typeFactor (getPremiumFactors h' a' t' ty'))) = true)
    by (apply mul_proper; [assumption|apply typeFactor_proper|apply typeFactor_pos_finite]).
  assert (L5 : ord (mul x (typeFactor (getPremiumFactors h a t ty)))
               <= ord (mul x' (typeFactor (getPremiumFactors h' a' t' ty'))))
    by (apply mul_mono;
        auto using typeFactor_proper, typeFactor_pos_finite).
  apply mul_mono; try assumption; reflexivity.
Qed.

Lemma risk_step_proper (b : number) (r : RiskTolerance) :
  proper b = true ->
  proper match r with
         | high => mul b (decimal 95 100)
         | low => mul b (decimal 105 100)
         | medium => b
         end = true.
Proof.
  intros Hb. destruct r; [|assumption|];
    apply mul_proper; [assumption|reflexivity|reflexivity|assumption|reflexivity|reflexivity].
Qed.

(** The premium grows with the coverage and with each factor. *)
Lemma calculatePremium_mono
    (h h' : number -> number -> number) (a a' c c' t t' : number) (ty ty' : string)
    (r : RiskTolerance) :
  proper c = true -> proper c' = true -> ord c <= ord c' ->
  proper (ageFactor (getPremiumFactors h a t ty)) = true ->
  pos_finite (ageFactor (getPremiumFactors h a t ty)) = true ->
  proper (ageFactor (getPremiumFactors h' a' t' ty')) = true ->
  pos_finite (ageFactor (getPremiumFactors h' a' t' ty')) = true ->
  ord (ageFactor (getPremiumFactors h a t ty))
  <= ord (ageFactor (getPremiumFactors h' a' t' ty')) ->
  ord (termFactor (getPremiumFactors h a t ty))
  <= ord (termFactor (getPremiumFactors h' a' t' ty')) ->
  ord (typeFactor (getPremiumFactors h a t ty))
  <= ord (typeFactor (getPremiumFactors h' a' t' ty')) ->
  ord (calculatePremium h a c t ty r) <= ord (calculatePremium h' a' c' t' ty' r).
Proof.
  intros Hc Hc' Lc Ha Pa Ha' Pa' La Lt Ly.
  rewrite !calculatePremium_base.
  pose proof (base_proper h a c t ty Hc Ha Pa) as Pb.
  pose proof (base_proper h' a' c' t' ty' Hc' Ha' Pa') as Pb'.
  pose proof (base_mono h h' a a' c c' t t' ty ty' Hc Hc' Lc Ha Pa Ha' Pa' La Lt Ly) as Lb.
  apply Math_round_mono; try (apply risk_step_proper; assumption).
  destruct r; [|assumption|]; apply mul_mono; try assumption; reflexivity.
Qed.

(** At equal arguments a high risk tolerance is charged the least and a low
    one the most. *)
Lemma calculatePremium_risk
    (h : number -> number -> number) (a c t : number) (ty : string) (r : RiskTolerance) :
  proper c = true ->
  proper (ageFactor (getPremiumFactors h a t ty)) = true ->
  pos_finite (ageFactor (getPremiumFactors h a t ty)) = true ->
  ord (calculatePremium h a c t ty high) <= ord (calculatePremium h a c t ty r)
  /\ ord (calculatePremium h a c t ty r) <= ord (calculatePremium h a c t ty low).
Proof.
  intros Hc Ha Pa.
  rewrite !calculatePremium_base.
  pose proof (base_proper h a c t ty Hc Ha Pa) as Pb.
  set (b := base h a c t ty) in *.
  assert (Plo : proper (mul b (decimal 105 100)) = true)
    by (apply mul_proper; [assumption|reflexivity|reflexivity]).
  assert (Phi : proper (mul b (decimal 95 100)) = true)
    by (apply mul_proper; [assumption|reflexivity|reflexivity]).
  assert (L1 : ord (mul b (decimal 95 100)) <= ord b).
  { apply mul_shrink; [assumption|reflexivity|reflexivity|].
    apply ord_le_of_leb; reflexivity. }
  assert (L2 : ord b <= ord (mul b (decimal 105 100))).
  { apply mul_grow; [assumption|reflexivity|reflexivity|].
    apply ord_le_of_leb; reflexivity. }
  destruct r; split; apply Math_round_mono; try assumption; lia.
Qed.

Lemma calculatePremium_proper
    (h : number -> number -> number) (a c t : number) (ty : string) (r : RiskTolerance) :
  proper c = true ->
  proper (ageFactor (getPremiumFactors h a t ty)) = true ->
  pos_finite (ageFactor (getPremiumFactors h a t ty)) = true ->
  proper (calculatePremium h a c t ty r) = true.
Proof.
  intros Hc Ha Pa. rewrite calculatePremium_base.
  apply Math_round_proper, risk_step_proper, base_proper; assumption.
Qed.

End PremiumOrder.

(** ** The options compared, and how a quote moves with the profile *)

Section QuoteOrder.

Variable host_pow : number -> number -> number.
Variables Number_toString toLocaleString : number -> string.
Variable toFixed : number -> number -> string.

Local Abbreviation run p l :=
  (result (calculateRecommendation host_pow Number_toString toLocaleString toFixed p) l).

Local Abbreviation power a := (Math_pow host_pow (decimal 1045 1000) (sub a (ofZ 25))).

Lemma run_premium (p : UserProfile) (l : Log) :
  monthlyPremium (recommendation (run p l))
  = calculatePremium host_pow (age p) (coverage (recommendation (run p l)))
      (determineTerm (age p)) (determineInsuranceType p) (riskTolerance p).
Proof. reflexivity. Qed.

Lemma valid_coverage_proper (p : UserProfile) (l : Log) :
  valid_profile p = true -> proper (coverage (recommendation (run p l))) = true.
Proof.
  intros Hv. rewrite (run_coverage host_pow Number_toString toLocaleString toFixed p l).
  destruct (valid_profile_inv p Hv) as (_ & _ & _ & Hii & Hinc & Hdi & Hd).
  destruct (integer_proper _ Hii Hinc) as [Hpi _].
  apply calculateCoverage_proper;
    auto using getIncomeMultiplier_proper, getIncomeMultiplier_pos_finite,
      dependentsFactor_proper, dependentsFactor_pos_finite,
      RISK_ADJUSTMENTS_proper, RISK_ADJUSTMENTS_pos_finite.
Qed.

(** Coverage grows with the income multiplier, the income, the dependents
    and the caution of the applicant. *)
Lemma valid_coverage_mono (p p' : UserProfile) (l l' : Log) :
  valid_profile p = true -> valid_profile p' = true ->
  ord (getIncomeMultiplier (age p)) <= ord (getIncomeMultiplier (age p')) ->
  ord (income p) <= ord (income p') ->
  ord (dependents p) <= ord (dependents p') ->
  ord (RISK_ADJUSTMENTS (riskTolerance p)) <= ord (RISK_ADJUSTMENTS (riskTolerance p')) ->
  ord (coverage (recommendation (run p l))) <= ord (coverage (recommendation (run p' l'))).
Proof.
  intros Hv Hv' La Li Ld Lr.
  rewrite !(run_coverage host_pow Number_toString toLocaleString toFixed).
  destruct (valid_profile_inv p Hv) as (_ & _ & _ & Hii & Hinc & Hdi & Hd).
  destruct (valid_profile_inv p' Hv') as (_ & _ & _ & Hii' & Hinc' & Hdi' & Hd').
  destruct (integer_proper _ Hii Hinc) as [Hpi _].
  destruct (integer_proper _ Hii' Hinc') as [Hpi' _].
  apply calculateCoverage_mono;
    auto using getIncomeMultiplier_proper, getIncomeMultiplier_pos_finite,
      dependentsFactor_proper, dependentsFactor_pos_finite,
      RISK_ADJUSTMENTS_proper, RISK_ADJUSTMENTS_pos_finite, dependentsFactor_mono.
Qed.

Lemma ord_le_refl_of_eq (x y : number) : x = y -> ord x <= ord y.
Proof. intros ->. lia. Qed.

Lemma typeFactor_ge_term
    (h h' : number -> number -> number) (a t a' t' : number) (ty : string) :
  ord (typeFactor (getPremiumFactors h a t "Term Life"))
  <= ord (typeFactor (getPremiumFactors h' a' t' ty)).
Proof.
  unfold getPremiumFactors. cbn [typeFactor].
  destruct (String.eqb ty "Term Life"); [apply ord_le_of_leb; reflexivity|].
  destruct (String.eqb ty "Whole Life"); [apply ord_le_of_leb; reflexivity|].
  destruct (String.eqb ty "Universal Life"); apply ord_le_of_leb; reflexivity.
Qed.

Lemma gtb_mono (x x' k : number) :
  proper x = true -> proper x' = true -> proper k = true ->
  ord x <= ord x' -> gtb x k = true -> gtb x' k = true.
Proof.
  intros Hx Hx' Hk Hle H. unfold gtb in *. fold (ltb k x) in H. fold (ltb k x').
  apply (ltb_ord k x' Hk Hx'). apply (ltb_ord k x Hk Hx) in H. lia.
Qed.

(** The policy type never gets cheaper when the income grows, or when the
    risk tolerance is lowered to [low]. *)
Lemma typeFactor_mono_income (p p' : UserProfile) (a t : number) :
  valid_profile p = true -> valid_profile p' = true ->
  age p = age p' -> riskTolerance p = riskTolerance p' ->
  ord (income p) <= ord (income p') ->
  ord (typeFactor (getPremiumFactors host_pow a t (determineInsuranceType p)))
  <= ord (typeFactor (getPremiumFactors host_pow a t (determineInsuranceType p'))).
Proof.
  intros Hv Hv' Ha Hr Li.
  destruct (valid_profile_inv p Hv) as (_ & _ & _ & Hii & Hinc & _).
  destruct (valid_profile_inv p' Hv') as (_ & _ & _ & Hii' & Hinc' & _).
  destruct (integer_proper _ Hii Hinc) as [Hpi _].
  destruct (integer_proper _ Hii' Hinc') as [Hpi' _].
  unfold determineInsuranceType. rewrite <- Hr, <- Ha.
  destruct (riskTolerance p); cbn [andb].
  - destruct (gtb (income p) (ofZ 150000)) eqn:G.
    + rewrite (gtb_mono (income p) (income p') (ofZ 150000) Hpi Hpi' eq_refl Li G). lia.
    + apply typeFactor_ge_term.
  - destruct (gtb (income p) (ofZ 200000)) eqn:G; cbn [andb].
    + rewrite (gtb_mono (income p) (income p') (ofZ 200000) Hpi Hpi' eq_refl Li G).
      cbn [andb]. lia.
    + apply typeFactor_ge_term.
  - lia.
Qed.

Lemma typeFactor_mono_low (p : UserProfile) (a t : number) :
  valid_profile p = true ->
  ord (typeFactor (getPremiumFactors host_pow a t (determineInsuranceType p)))
  <= ord (typeFactor (getPremiumFactors host_pow a t
                        (determineInsuranceType (with_riskTolerance p low)))).
Proof.
  intros Hv.
  destruct (valid_profile_inv p Hv) as (_ & _ & _ & Hii & Hinc & _).
  destruct (integer_proper _ Hii Hinc) as [Hpi _].
  unfold determineInsuranceType. cbn [with_riskTolerance riskTolerance income age andb].
  destruct (riskTolerance p); cbn [andb].
  - lia.
  - destruct (gtb (income p) (ofZ 200000)) eqn:G; cbn [andb].
    + assert (G' : gtb (income p) (ofZ 150000) = true).
      { unfold gtb in *. fold (ltb (ofZ 200000) (income p)) in G.
        fold (ltb (ofZ 150000) (income p)).
        apply (ltb_ord (ofZ 150000) (income p) eq_refl Hpi).
        apply (ltb_ord (ofZ 200000) (income p) eq_refl Hpi) in G.
        assert (ord (ofZ 150000) <= ord (ofZ 200000))
          by (apply ord_le_of_leb; reflexivity).
        lia. }
      rewrite G'.
      destruct (ltb (age p) (ofZ 50)); [apply ord_le_of_leb; reflexivity|].
      apply typeFactor_ge_term.
    + apply typeFactor_ge_term.
  - apply typeFactor_ge_term.
Qed.

End QuoteOrder.

Section QuoteTheorems.

Variable host_pow : number -> number -> number.
Variables Number_toString toLocaleString : number -> string.
Variable toFixed : number -> number -> string.

Local Abbreviation run p l :=
  (result (calculateRecommendation host_pow Number_toString toLocaleString toFixed p) l).

Local Abbreviation power a := (Math_pow host_pow (decimal 1045 1000) (sub a (ofZ 25))).

Lemma proper_of_pos_finite (x : number) :
  pos_finite x = true -> is_number x = true -> proper x = true.
Proof.
  intros Hp Hn. destruct (pos_finite_cases x Hp) as (m & e & ->).
  unfold proper. rewrite Hn. reflexivity.
Qed.

Lemma termFactor_ge_thirty
    (h h' : number -> number -> number) (a a' t' : number) (ty ty' : string) :
  ord (termFactor (getPremiumFactors h a (ofZ 30) ty))
  <= ord (termFactor (getPremiumFactors h' a' t' ty')).
Proof.
  unfold getPremiumFactors. cbn [termFactor].
  change (eqb (ofZ 30) (ofZ 10)) with false.
  change (eqb (ofZ 30) (ofZ 15)) with false.
  change (eqb (ofZ 30) (ofZ 20)) with false.
  change (eqb (ofZ 30) (ofZ 30)) with true.
  cbn iota.
  destruct (eqb t' (ofZ 10)); [apply ord_le_of_leb; reflexivity|].
  destruct (eqb t' (ofZ 15)); [apply ord_le_of_leb; reflexivity|].
  destruct (eqb t' (ofZ 20)); [apply ord_le_of_leb; reflexivity|].
  destruct (eqb t' (ofZ 30)); apply ord_le_of_leb; reflexivity.
Qed.

(** X8. The alternatives [compareOptions] returns are ordered by coverage as
    their labels say: for every valid profile Budget-Friendly covers at most
    what Recommended covers, and Maximum Protection at least that. *)
Theorem options_ordered_by_coverage (p : UserProfile) (l : Log) :
  valid_profile p = true ->
  exists recommended maximum budget : Alternative.t,
    result (compareOptions host_pow Number_toString toLocaleString toFixed p) l
    = [recommended; maximum; budget]
    /\ leb (coverage (Alternative.recommendation budget))
           (coverage (Alternative.recommendation recommended)) = true
    /\ leb (coverage (Alternative.recommendation recommended))
           (coverage (Alternative.recommendation maximum)) = true.
Proof.
  intros Hv.
  exists (labelled (run p l) "Recommended"%string (ofZ 1)),
         (labelled (run (with_riskTolerance p low) l) "Maximum Protection"%string (ofZ 2)),
         (labelled (run (with_riskTolerance p high) l) "Budget-Friendly"%string (ofZ 3)).
  split; [reflexivity|].
  cbn [labelled Alternative.recommendation].
  assert (Hlo : valid_profile (with_riskTolerance p low) = true) by exact Hv.
  assert (Hhi : valid_profile (with_riskTolerance p high) = true) by exact Hv.
  destruct (RISK_ADJUSTMENTS_order (riskTolerance p)) as [R1 R2].
  split; apply leb_of_ord_le; try (apply valid_coverage_proper; assumption);
    apply valid_coverage_mono; try assumption; try reflexivity.
Qed.

(** X9. The alternatives are ordered by monthly premium as well, when the
    host's power [1.045^(age - 25)] is a positive finite Number:
    Budget-Friendly costs at most what Recommended costs, and Maximum
    Protection at least that. *)
Theorem options_ordered_by_premium (p : UserProfile) (l : Log) :
  valid_profile p = true ->
  pos_finite (power (age p)) = true ->
  is_number (power (age p)) = true ->
  exists recommended maximum budget : Alternative.t,
    result (compareOptions host_pow Number_toString toLocaleString toFixed p) l
    = [recommended; maximum; budget]
    /\ leb (monthlyPremium (Alternative.recommendation budget))
           (monthlyPremium (Alternative.recommendation recommended)) = true
    /\ leb (monthlyPremium (Alternative.recommendation recommended))
           (monthlyPremium (Alternative.recommendation maximum)) = true.
Proof.
  intros Hv Pp Np.
  pose proof (proper_of_pos_finite _ Pp Np) as Hp.
  exists (labelled (run p l) "Recommended"%string (ofZ 1)),
         (labelled (run (with_riskTolerance p low) l) "Maximum Protection"%string (ofZ 2)),
         (labelled (run (with_riskTolerance p high) l) "Budget-Friendly"%string (ofZ 3)).
  split; [reflexivity|].
  cbn [labelled Alternative.recommendation].
  assert (Hlo : valid_profile (with_riskTolerance p low) = true) by exact Hv.
  assert (Hhi : valid_profile (with_riskTolerance p high) = true) by exact Hv.
  destruct (RISK_ADJUSTMENTS_order (riskTolerance p)) as [R1 R2].
  pose proof (valid_coverage_proper host_pow Number_toString toLocaleString toFixed p l Hv)
    as Pc.
  pose proof (valid_coverage_proper host_pow Number_toString toLocaleString toFixed
                (with_riskTolerance p low) l Hlo) as Pclo.
  pose proof (valid_coverage_proper host_pow Number_toString toLocaleString toFixed
                (with_riskTolerance p high) l Hhi) as Pchi.
  assert (Lhi : ord (coverage (recommendation (run (with_riskTolerance p high) l)))
                <= ord (coverage (recommendation (run p l))))
    by (apply valid_coverage_mono; try assumption; reflexivity).
  assert (Llo : ord (coverage (recommendation (run p l)))
                <= ord (coverage (recommendation (run (with_riskTolerance p low) l))))
    by (apply valid_coverage_mono; try assumption; reflexivity).
  rewrite !run_premium.
  cbn [with_riskTolerance age riskTolerance].
  change (determineInsuranceType (with_riskTolerance p high)) with "Term Life"%string.
  set (c := coverage (recommendation (run p l))) in *.
  set (clo := coverage (recommendation (run (with_riskTolerance p low) l))) in *.
  set (chi := coverage (recommendation (run (with_riskTolerance p high) l))) in *.
  set (t := determineTerm (age p)).
  destruct (calculatePremium_risk host_pow (age p) c t (determineInsuranceType p)
              (riskTolerance p) Pc Hp Pp) as [K1 K2].
  split; apply leb_of_ord_le; try (apply calculatePremium_proper; assumption).
  - apply Z.le_trans with (2 := K1).
    apply calculatePremium_mono; try assumption; try reflexivity.
    apply typeFactor_ge_term.
  - apply Z.le_trans with (1 := K2).
    apply calculatePremium_mono; try assumption; try reflexivity.
    apply typeFactor_mono_low. assumption.
Qed.

(** X10. At a given age and risk tolerance the coverage never decreases
    when the income or the number of dependents grows. *)
Theorem coverage_monotone (p p' : UserProfile) (l l' : Log) :
  valid_profile p = true -> valid_profile p' = true ->
  age p = age p' -> riskTolerance p = riskTolerance p' ->
  leb (income p) (income p') = true ->
  leb (dependents p) (dependents p') = true ->
  leb (coverage (recommendation (run p l))) (coverage (recommendation (run p' l'))) = true.
Proof.
  intros Hv Hv' Ha Hr Li Ld.
  destruct (valid_profile_inv p Hv) as (_ & _ & _ & Hii & Hinc & Hdi & Hd).
  destruct (valid_profile_inv p' Hv') as (_ & _ & _ & Hii' & Hinc' & Hdi' & Hd').
  destruct (integer_proper _ Hii Hinc) as [Hpi _].
  destruct (integer_proper _ Hii' Hinc') as [Hpi' _].
  destruct (integer_proper _ Hdi Hd) as [Hpd _].
  destruct (integer_proper _ Hdi' Hd') as [Hpd' _].
  apply leb_of_ord_le; try (apply valid_coverage_proper; assumption).
  apply valid_coverage_mono; try assumption.
  - rewrite Ha. lia.
  - apply ord_le_of_leb; assumption.
  - apply ord_le_of_leb; assumption.
  - rewrite Hr. lia.
Qed.

Lemma getIncomeMultiplier_antitone (x y : number) :
  is_integer x = true -> leb (ofZ 18) x = true -> leb x (ofZ 100) = true ->
  is_integer y = true -> leb (ofZ 18) y = true -> leb y (ofZ 100) = true ->
  leb x y = true ->
  ord (getIncomeMultiplier y) <= ord (getIncomeMultiplier x).
Proof.
  intros Hxi Hxlo Hxhi Hyi Hylo Hyhi Hle.
  destruct (valid_age_ofZ x Hxi Hxlo Hxhi) as (a & Ha & ->).
  destruct (valid_age_ofZ y Hyi Hylo Hyhi) as (b & Hb & ->).
  apply ord_le_of_leb; try apply getIncomeMultiplier_proper.
  destruct (age_band_at a (ages_complete a Ha)) as [-> _].
  destruct (age_band_at b (ages_complete b Hb)) as [-> _].
  apply multiplier_leb; try apply spec_multiplier_values.
  apply spec_multiplier_antitone. apply ages_order; assumption.
Qed.

(** X13. At a given income, number of dependents and risk tolerance the
    coverage never increases with the age of the applicant. *)
Theorem coverage_antitone_in_age (p p' : UserProfile) (l l' : Log) :
  valid_profile p = true -> valid_profile p' = true ->
  income p = income p' -> dependents p = dependents p' ->
  riskTolerance p = riskTolerance p' ->
  leb (age p) (age p') = true ->
  leb (coverage (recommendation (run p' l'))) (coverage (recommendation (run p l))) = true.
Proof.
  intros Hv Hv' Hi Hd Hr La.
  destruct (valid_profile_inv p Hv) as (Hai & Halo & Hahi & _).
  destruct (valid_profile_inv p' Hv') as (Hai' & Halo' & Hahi' & _).
  apply leb_of_ord_le; try (apply valid_coverage_proper; assumption).
  apply valid_coverage_mono; try assumption.
  - apply getIncomeMultiplier_antitone; assumption.
  - rewrite Hi. lia.
  - rewrite Hd. lia.
  - rewrite Hr. lia.
Qed.

(** X11. At a given age and risk tolerance the monthly premium never
    decreases when the income or the number of dependents grows, provided
    the host's power [1.045^(age - 25)] is a positive finite Number. *)
Theorem premium_monotone (p p' : UserProfile) (l l' : Log) :
  valid_profile p = true -> valid_profile p' = true ->
  age p = age p' -> riskTolerance p = riskTolerance p' ->
  leb (income p) (income p') = true ->
  leb (dependents p) (dependents p') = true ->
  pos_finite (power (age p)) = true ->
  is_number (power (age p)) = true ->
  leb (monthlyPremium (recommendation (run p l)))
      (monthlyPremium (recommendation (run p' l'))) = true.
Proof.
  intros Hv Hv' Ha Hr Li Ld Pp Np.
  pose proof (proper_of_pos_finite _ Pp Np) as Hp.
  destruct (valid_profile_inv p Hv) as (_ & _ & _ & Hii & Hinc & Hdi & Hd).
  destruct (valid_profile_inv p' Hv') as (_ & _ & _ & Hii' & Hinc' & Hdi' & Hd').
  destruct (integer_proper _ Hii Hinc) as [Hpi _].
  destruct (integer_proper _ Hii' Hinc') as [Hpi' _].
  destruct (integer_proper _ Hdi Hd) as [Hpd _].
  destruct (integer_proper _ Hdi' Hd') as [Hpd' _].
  assert (Oi : ord (income p) <= ord (income p')) by (apply ord_le_of_leb; assumption).
  assert (Od : ord (dependents p) <= ord (dependents p'))
    by (apply ord_le_of_leb; assumption).
  pose proof (valid_coverage_proper host_pow Number_toString toLocaleString toFixed p l Hv)
    as Pc.
  pose proof (valid_coverage_proper host_pow Number_toString toLocaleString toFixed p' l' Hv')
    as Pc'.
  assert (Lc : ord (coverage (recommendation (run p l)))
               <= ord (coverage (recommendation (run p' l'))))
    by (apply valid_coverage_mono; try assumption; [rewrite Ha|rewrite Hr]; lia).
  rewrite !run_premium. rewrite <- Hr, <- Ha.
  apply leb_of_ord_le; try (apply calculatePremium_proper; assumption).
  apply calculatePremium_mono; try assumption; try reflexivity.
  apply typeFactor_mono_income; assumption.
Qed.

(** X12. Whenever the cap [income * 30] leaves room for the floor of 100000
    and the host's power [1.045^(age - 25)] is a finite Number of at least
    0.7, the monthly premium of a valid profile is at least 30; in
    particular it is positive. *)
Theorem premium_at_least_30 (p : UserProfile) (l : Log) :
  valid_profile p = true ->
  leb MIN_COVERAGE (mul (income p) INCOME_CAP_MULTIPLIER) = true ->
  pos_finite (power (age p)) = true ->
  is_number (power (age p)) = true ->
  leb (decimal 7 10) (power (age p)) = true ->
  leb (ofZ 30) (monthlyPremium (recommendation (run p l))) = true
  /\ gtb (monthlyPremium (recommendation (run p l))) (ofZ 0) = true.
Proof.
  intros Hv Hcap Pp Np Lp.
  pose proof (proper_of_pos_finite _ Pp Np) as Hp.
  destruct (valid_profile_inv p Hv) as (_ & _ & _ & Hii & Hinc & Hdi & Hd).
  destruct (integer_proper _ Hii Hinc) as [Hpi _].
  pose proof (valid_coverage_proper host_pow Number_toString toLocaleString toFixed p l Hv)
    as Pc.
  assert (Lc : ord MIN_COVERAGE <= ord (coverage (recommendation (run p l)))).
  { apply ord_le_of_leb; [reflexivity|assumption|].
    rewrite (run_coverage host_pow Number_toString toLocaleString toFixed p l).
    apply calculateCoverage_floor;
      auto using leb_zero_nonneg, getIncomeMultiplier_pos_finite,
        dependentsFactor_pos_finite, RISK_ADJUSTMENTS_pos_finite. }
  assert (Pm : proper (monthlyPremium (recommendation (run p l))) = true)
    by (rewrite run_premium; apply calculatePremium_proper; assumption).
  assert (L30 : ord (ofZ 30) <= ord (monthlyPremium (recommendation (run p l)))).
  { rewrite run_premium.
    apply Z.le_trans
      with (ord (calculatePremium (fun _ _ => decimal 7 10) (ofZ 18) MIN_COVERAGE (ofZ 30)
                   "Term Life" (riskTolerance p))).
    - destruct (riskTolerance p); apply ord_le_of_leb; reflexivity.
    - apply calculatePremium_mono; try assumption; try reflexivity.
      + apply ord_le_of_leb; [reflexivity|assumption|exact Lp].
      + apply termFactor_ge_thirty.
      + apply typeFactor_ge_term. }
  split.
  - apply leb_of_ord_le; [reflexivity|assumption|assumption].
  - unfold gtb. fold (ltb (ofZ 0) (monthlyPremium (recommendation (run p l)))).
    apply ltb_ord; [reflexivity|assumption|].
    assert (ord (ofZ 0) < ord (ofZ 30)) by (apply ltb_ord; reflexivity).
    lia.
Qed.

End QuoteTheorems.

(** ** Closed instances of the order properties *)

(** X8 at the profile of the first scenario. *)
Lemma options_ordered_by_coverage_witness :
  valid_profile (profile 35 75000 2 medium) = true
  /\ exists recommended maximum budget : Alternative.t,
       result (compareOptions ref_pow ref_toString ref_toLocaleString ref_toFixed
                 (profile 35 75000 2 medium)) []
       = [recommended; maximum; budget]
       /\ leb (coverage (Alternative.recommendation budget))
              (coverage (Alternative.recommendation recommended)) = true
       /\ leb (coverage (Alternative.recommendation recommended))
              (coverage (Alternative.recommendation maximum)) = true.
Proof.
  split; [reflexivity|].
  exact (options_ordered_by_coverage ref_pow ref_toString ref_toLocaleString ref_toFixed
           (profile 35 75000 2 medium) [] eq_refl).
Defined.

(** X9 at the profile of the first scenario, with the reference host. *)
Lemma options_ordered_by_premium_witness :
  valid_profile (profile 35 75000 2 medium) = true
  /\ pos_finite (Math_pow ref_pow (decimal 1045 1000) (sub (ofZ 35) (ofZ 25))) = true
  /\ is_number (Math_pow ref_pow (decimal 1045 1000) (sub (ofZ 35) (ofZ 25))) = true
  /\ exists recommended maximum budget : Alternative.t,
       result (compareOptions ref_pow ref_toString ref_toLocaleString ref_toFixed
                 (profile 35 75000 2 medium)) []
       = [recommended; maximum; budget]
       /\ leb (monthlyPremium (Alternative.recommendation budget))
              (monthlyPremium (Alternative.recommendation recommended)) = true
       /\ leb (monthlyPremium (Alternative.recommendation recommended))
              (monthlyPremium (Alternative.recommendation maximum)) = true.
Proof.
  split; [reflexivity|split; [reflexivity|split; [reflexivity|]]].
  exact (options_ordered_by_premium ref_pow ref_toString ref_toLocaleString ref_toFixed
           (profile 35 75000 2 medium) [] eq_refl eq_refl eq_refl).
Defined.

(** X10 from the first scenario to a higher income with one more dependent. *)
Lemma coverage_monotone_witness :
  valid_profile (profile 35 75000 2 medium) = true
  /\ valid_profile (profile 35 90000 3 medium) = true
  /\ age (profile 35 75000 2 medium) = age (profile 35 90000 3 medium)
  /\ riskTolerance (profile 35 75000 2 medium) = riskTolerance (profile 35 90000 3 medium)
  /\ leb (income (profile 35 75000 2 medium)) (income (profile 35 90000 3 medium)) = true
  /\ leb (dependents (profile 35 75000 2 medium)) (dependents (profile 35 90000 3 medium))
     = true
  /\ leb (coverage (recommendation (ref_run (profile 35 75000 2 medium))))
         (coverage (recommendation (ref_run (profile 35 90000 3 medium)))) = true.
Proof.
  repeat (split; [reflexivity|]).
  exact (coverage_monotone ref_pow ref_toString ref_toLocaleString ref_toFixed
           (profile 35 75000 2 medium) (profile 35 90000 3 medium) [] []
           eq_refl eq_refl eq_refl eq_refl eq_refl eq_refl).
Defined.

(** X11 between the same two profiles, with the reference host. *)
Lemma premium_monotone_witness :
  valid_profile (profile 35 75000 2 medium) = true
  /\ valid_profile (profile 35 90000 3 medium) = true
  /\ age (profile 35 75000 2 medium) = age (profile 35 90000 3 medium)
  /\ riskTolerance (profile 35 75000 2 medium) = riskTolerance (profile 35 90000 3 medium)
  /\ leb (income (profile 35 75000 2 medium)) (income (profile 35 90000 3 medium)) = true
  /\ leb (dependents (profile 35 75000 2 medium)) (dependents (profile 35 90000 3 medium))
     = true
  /\ pos_finite (Math_pow ref_pow (decimal 1045 1000) (sub (ofZ 35) (ofZ 25))) = true
  /\ is_number (Math_pow ref_pow (decimal 1045 1000) (sub (ofZ 35) (ofZ 25))) = true
  /\ leb (monthlyPremium (recommendation (ref_run (profile 35 75000 2 medium))))
         (monthlyPremium (recommendation (ref_run (profile 35 90000 3 medium)))) = true.
Proof.
  repeat (split; [reflexivity|]).
  exact (premium_monotone ref_pow ref_toString ref_toLocaleString ref_toFixed
           (profile 35 75000 2 medium) (profile 35 90000 3 medium) [] []
           eq_refl eq_refl eq_refl eq_refl eq_refl eq_refl eq_refl eq_refl).
Defined.

(** X12 at the smallest income the floor applies to, 3334, at age 18. *)
Lemma premium_at_least_30_witness :
  valid_profile (profile 18 3334 0 high) = true
  /\ leb MIN_COVERAGE (mul (income (profile 18 3334 0 high)) INCOME_CAP_MULTIPLIER) = true
  /\ pos_finite (Math_pow ref_pow (decimal 1045 1000) (sub (ofZ 18) (ofZ 25))) = true
  /\ is_number (Math_pow ref_pow (decimal 1045 1000) (sub (ofZ 18) (ofZ 25))) = true
  /\ leb (decimal 7 10) (Math_pow ref_pow (decimal 1045 1000) (sub (ofZ 18) (ofZ 25)))
     = true
  /\ leb (ofZ 30) (monthlyPremium (recommendation (ref_run (profile 18 3334 0 high))))
     = true
  /\ gtb (monthlyPremium (recommendation (ref_run (profile 18 3334 0 high)))) (ofZ 0)
     = true.
Proof.
  do 5 (split; [reflexivity|]).
  exact (premium_at_least_30 ref_pow ref_toString ref_toLocaleString ref_toFixed
           (profile 18 3334 0 high) [] eq_refl eq_refl eq_refl eq_refl eq_refl).
Defined.

(** X13 between ages 29 and 30, across the first band boundary. *)
Lemma coverage_antitone_in_age_witness :
  valid_profile (profile 29 75000 2 medium) = true
  /\ valid_profile (profile 30 75000 2 medium) = true
  /\ income (profile 29 75000 2 medium) = income (profile 30 75000 2 medium)
  /\ dependents (profile 29 75000 2 medium) = dependents (profile 30 75000 2 medium)
  /\ riskTolerance (profile 29 75000 2 medium) = riskTolerance (profile 30 75000 2 medium)
  /\ leb (age (profile 29 75000 2 medium)) (age (profile 30 75000 2 medium)) = true
  /\ leb (coverage (recommendation (ref_run (profile 30 75000 2 medium))))
         (coverage (recommendation (ref_run (profile 29 75000 2 medium)))) = true.
Proof.
  repeat (split; [reflexivity|]).
  exact (coverage_antitone_in_age ref_pow ref_toString ref_toLocaleString ref_toFixed
           (profile 29 75000 2 medium) (profile 30 75000 2 medium) [] []
           eq_refl eq_refl eq_refl eq_refl eq_refl eq_refl).
Defined.

(** * Edge behaviour, the explanation and pricing *)

(** ** Input the service does not validate *)

Section Unvalidated.

Variable host_pow : number -> number -> number.
Variables Number_toString toLocaleString : number -> string.
Variable toFixed : number -> number -> string.

Local Abbreviation run p l :=
  (result (calculateRecommendation host_pow Number_toString toLocaleString toFixed p) l).

Lemma is_nan_eq (x : number) : is_nan x = true -> x = NaN.
Proof. destruct x; try discriminate. reflexivity. Qed.

Lemma mul_nan_r (x : number) : mul x NaN = NaN.
Proof. destruct x; reflexivity. Qed.

Lemma calculatePremium_nan_coverage
    (a t : number) (ty : string) (r : RiskTolerance) :
  calculatePremium host_pow a NaN t ty r = NaN.
Proof. destruct r; reflexivity. Qed.

Lemma calculatePremium_nan_age
    (c t : number) (ty : string) (r : RiskTolerance) :
  calculatePremium host_pow NaN c t ty r = NaN.
Proof.
  unfold calculatePremium, getPremiumFactors.
  cbn [basePremiumRate ageFactor termFactor typeFactor healthFactor].
  change (Math_pow host_pow (decimal 1045 1000) (sub NaN (ofZ 25))) with NaN.
  rewrite mul_nan_r.
  destruct r; reflexivity.
Qed.

(** X14. The service itself rejects nothing: an income that is NaN goes
    through every stage and comes out as a NaN coverage and a NaN monthly
    premium, whatever the rest of the profile. *)
Theorem nan_income_nan_quote (p : UserProfile) (l : Log) :
  is_nan (income p) = true ->
  is_nan (coverage (recommendation (run p l))) = true
  /\ is_nan (monthlyPremium (recommendation (run p l))) = true.
Proof.
  intros H. apply is_nan_eq in H.
  assert (Hc : coverage (recommendation (run p l)) = NaN).
  { rewrite (run_coverage host_pow Number_toString toLocaleString toFixed p l), H.
    reflexivity. }
  rewrite (run_premium host_pow Number_toString toLocaleString toFixed p l), Hc.
  rewrite calculatePremium_nan_coverage. split; reflexivity.
Qed.

(** X15. An age that is NaN fails every band test, so the applicant is
    sized as a senior: income multiplier 8 and a term of 10 years; the
    premium is NaN, because [Math.pow] of a NaN exponent is. *)
Theorem nan_age_sized_as_senior (p : UserProfile) (l : Log) :
  is_nan (age p) = true ->
  incomeMultiplier (factors (run p l)) = ofZ 8
  /\ term (recommendation (run p l)) = ofZ 10
  /\ is_nan (monthlyPremium (recommendation (run p l))) = true.
Proof.
  intros H. apply is_nan_eq in H.
  rewrite (run_premium host_pow Number_toString toLocaleString toFixed p l).
  rewrite (run_factors host_pow Number_toString toLocaleString toFixed p l).
  cbn [incomeMultiplier].
  change (term (recommendation (run p l))) with (determineTerm (age p)).
  rewrite H. rewrite calculatePremium_nan_age.
  repeat split; reflexivity.
Qed.

End Unvalidated.

(** X14 at a profile whose income is NaN. *)
Lemma nan_income_nan_quote_witness :
  is_nan (income {| age := ofZ 35; income := NaN; dependents := ofZ 2;
                    riskTolerance := medium |}) = true
  /\ is_nan (coverage (recommendation
               (ref_run {| age := ofZ 35; income := NaN; dependents := ofZ 2;
                           riskTolerance := medium |}))) = true
  /\ is_nan (monthlyPremium (recommendation
               (ref_run {| age := ofZ 35; income := NaN; dependents := ofZ 2;
                           riskTolerance := medium |}))) = true.
Proof.
  split; [reflexivity|].
  exact (nan_income_nan_quote ref_pow ref_toString ref_toLocaleString ref_toFixed
           {| age := ofZ 35; income := NaN; dependents := ofZ 2; riskTolerance := medium |}
           [] eq_refl).
Defined.

(** X15 at a profile whose age is NaN. *)
Lemma nan_age_sized_as_senior_witness :
  is_nan (age {| age := NaN; income := ofZ 75000; dependents := ofZ 2;
                 riskTolerance := medium |}) = true
  /\ incomeMultiplier (factors
       (ref_run {| age := NaN; income := ofZ 75000; dependents := ofZ 2;
                   riskTolerance := medium |})) = ofZ 8
  /\ term (recommendation
       (ref_run {| age := NaN; income := ofZ 75000; dependents := ofZ 2;
                   riskTolerance := medium |})) = ofZ 10
  /\ is_nan (monthlyPremium (recommendation
       (ref_run {| age := NaN; income := ofZ 75000; dependents := ofZ 2;
                   riskTolerance := medium |}))) = true.
Proof.
  split; [reflexivity|].
  exact (nan_age_sized_as_senior ref_pow ref_toString ref_toLocaleString ref_toFixed
           {| age := NaN; income := ofZ 75000; dependents := ofZ 2; riskTolerance := medium |}
           [] eq_refl).
Defined.

Section NegativeIncome.

Variable host_pow : number -> number -> number.
Variables Number_toString toLocaleString : number -> string.
Variable toFixed : number -> number -> string.

Local Abbreviation run p l :=
  (result (calculateRecommendation host_pow Number_toString toLocaleString toFixed p) l).

Lemma nonpos_cases (x : number) :
  nonpos x = true ->
  (exists s, x = S754_zero s) \/ x = S754_infinity true
  \/ exists m e, x = S754_finite true m e.
Proof. destruct x as [s|[|]| |[|] m e]; simpl; try discriminate; eauto. Qed.

Lemma negative_nonpos (x : number) : negative x = true -> nonpos x = true.
Proof. destruct x as [s|[|]| |[|] m e]; simpl; congruence. Qed.

Lemma ltb_zero_negative (x : number) : ltb x (ofZ 0) = true -> negative x = true.
Proof.
  change (ofZ 0) with (S754_zero false).
  destruct x as [s|[|]| |[|] m e]; cbn; congruence.
Qed.

Lemma negative_ltb_zero (x : number) : negative x = true -> ltb x (ofZ 0) = true.
Proof.
  change (ofZ 0) with (S754_zero false).
  destruct x as [s|[|]| |[|] m e]; cbn; congruence.
Qed.

Lemma bra_nonpos (mx ex : Z) (lx : location) :
  0 <= mx -> nonpos (binary_round_aux prec emax true mx ex lx) = true.
Proof.
  intros H.
  destruct (bra_class true mx ex lx H) as [E|[E|(m & e & E)]]; rewrite E; reflexivity.
Qed.

Lemma mul_nonpos (x y : number) :
  nonpos x = true -> pos_finite y = true -> nonpos (mul x y) = true.
Proof.
  intros Hx Hy.
  destruct (pos_finite_cases y Hy) as (my & ey & ->).
  destruct (nonpos_cases x Hx) as [[s ->]|[->|(mx & ex & ->)]].
  - reflexivity.
  - reflexivity.
  - unfold mul, SFmul. cbn [xorb]. apply bra_nonpos. lia.
Qed.

Lemma div_nonpos (x y : number) :
  nonpos x = true -> pos_finite y = true -> nonpos (div x y) = true.
Proof.
  intros Hx Hy.
  destruct (pos_finite_cases y Hy) as (my & ey & ->).
  destruct (nonpos_cases x Hx) as [[s ->]|[->|(mx & ex & ->)]].
  - reflexivity.
  - reflexivity.
  - unfold div, SFdiv, SFdiv_core_binary. cbn [xorb].
    set (s := ex - ey - _).
    set (m' := match s with Z0 => Zpos mx | Zpos _ => Z.shiftl (Zpos mx) s | Zneg _ => 0 end).
    assert (Hm' : 0 <= m').
    { unfold m'. destruct s; try lia. apply Z.shiftl_nonneg. lia. }
    pose proof (Z.div_pos m' (Zpos my) Hm' ltac:(lia)) as Hq.
    unfold Z.div in Hq.
    destruct (Z.div_eucl m' (Zpos my)) as [q r].
    apply bra_nonpos. assumption.
Qed.

Lemma Math_round_nonpos (x : number) :
  nonpos x = true -> nonpos (Math_round x) = true.
Proof.
  intros Hx.
  destruct (nonpos_cases x Hx) as [[s ->]|[->|(m & e & ->)]]; try reflexivity.
  unfold Math_round.
  destruct (Z.leb_spec 0 e) as [|He]; [reflexivity|].
  destruct (Zpos m mod 2 ^ (- e) =? 0); [reflexivity|].
  cbn [cond_Zopp].
  set (q := (2 * - Zpos m + 2 ^ (- e)) / 2 ^ (1 - e)).
  assert (Hq : q <= 0).
  { assert (Hlt : q < 1); [|lia].
    unfold q. apply Z.div_lt_upper_bound; [apply Z.pow_pos_nonneg; lia|].
    replace (1 - e) with (- e + 1) by lia.
    rewrite Z.pow_add_r, Z.pow_1_r by lia.
    assert (0 < 2 ^ (- e)) by (apply Z.pow_pos_nonneg; lia). lia. }
  destruct q as [|k|k]; [reflexivity|lia|].
  unfold ofZ. cbn [binary_normalize]. unfold binary_round.
  destruct (shl_align k 0 _) as [mz ez]. apply bra_nonpos. lia.
Qed.

Lemma Math_max_nonpos_l (x y : number) :
  nonpos x = true -> pos_finite y = true -> Math_max x y = y.
Proof.
  intros Hx Hy.
  destruct (pos_finite_cases y Hy) as (my & ey & ->).
  destruct (nonpos_cases x Hx) as [[s ->]|[->|(mx & ex & ->)]]; reflexivity.
Qed.

Lemma Math_min_nonpos_r (x y : number) :
  pos_finite x = true -> nonpos y = true -> Math_min x y = y.
Proof.
  intros Hx Hy.
  destruct (pos_finite_cases x Hx) as (mx & ex & ->).
  destruct (nonpos_cases y Hy) as [[s ->]|[->|(my & ey & ->)]]; reflexivity.
Qed.

Lemma thirty_eq : INCOME_CAP_MULTIPLIER = S754_finite false 8444249301319680 (-48).
Proof. reflexivity. Qed.

(** Thirty times a negative Number is negative: it cannot underflow. *)
Lemma cap_negative (x : number) :
  negative x = true -> is_number x = true ->
  negative (mul x INCOME_CAP_MULTIPLIER) = true.
Proof.
  intros Hx Hn. rewrite thirty_eq.
  destruct x as [s|[|]| |[|] m e]; try discriminate; [reflexivity|].
  destruct (canon_inv _ _ _ Hn) as (Hd & He & _).
  unfold mul, SFmul. cbn [xorb]. rewrite Pos2Z.inj_mul.
  pose proof (digits_mul_ge m 8444249301319680) as HD.
  change (Zdigits2 (Zpos 8444249301319680)) with 53 in HD.
  destruct (bra_shape true (Zpos m * Zpos 8444249301319680) (e + -48) loc_Exact)
    as (m3 & e3 & _ & _ & _ & _ & ->); [lia|lia|].
  destruct (e3 <=? 971); reflexivity.
Qed.

(** X16. The floor of 100000 does not protect against an income the
    service was never meant to see: for a negative income the cap
    [income * 30] wins, and the coverage is that negative Number. *)
Theorem negative_income_negative_coverage (p : UserProfile) (l : Log) :
  ltb (income p) (ofZ 0) = true -> is_number (income p) = true ->
  is_integer (dependents p) = true -> leb (ofZ 0) (dependents p) = true ->
  coverage (recommendation (run p l)) = mul (income p) INCOME_CAP_MULTIPLIER
  /\ ltb (coverage (recommendation (run p l))) (ofZ 0) = true.
Proof.
  intros Hneg Hnum Hdi Hd.
  pose proof (ltb_zero_negative _ Hneg) as Hn.
  pose proof (negative_nonpos _ Hn) as Hnp.
  pose proof (cap_negative _ Hn Hnum) as Hcap.
  assert (Hc : coverage (recommendation (run p l)) = mul (income p) INCOME_CAP_MULTIPLIER).
  { rewrite (run_coverage host_pow Number_toString toLocaleString toFixed p l).
    unfold calculateCoverage.
    rewrite Math_max_nonpos_l; [|
      apply mul_nonpos; [|reflexivity]; apply Math_round_nonpos;
      apply div_nonpos; [|reflexivity];
      repeat apply mul_nonpos;
      auto using getIncomeMultiplier_pos_finite, dependentsFactor_pos_finite,
        RISK_ADJUSTMENTS_pos_finite
      |reflexivity].
    apply Math_min_nonpos_r; [reflexivity|].
    apply negative_nonpos. assumption. }
  split; [assumption|]. rewrite Hc. apply negative_ltb_zero. assumption.
Qed.

End NegativeIncome.

(** X16 at an income of -50000. *)
Lemma negative_income_negative_coverage_witness :
  ltb (income (profile 35 (-50000) 2 medium)) (ofZ 0) = true
  /\ is_number (income (profile 35 (-50000) 2 medium)) = true
  /\ is_integer (dependents (profile 35 (-50000) 2 medium)) = true
  /\ leb (ofZ 0) (dependents (profile 35 (-50000) 2 medium)) = true
  /\ coverage (recommendation (ref_run (profile 35 (-50000) 2 medium)))
     = mul (income (profile 35 (-50000) 2 medium)) INCOME_CAP_MULTIPLIER
  /\ ltb (coverage (recommendation (ref_run (profile 35 (-50000) 2 medium)))) (ofZ 0)
     = true.
Proof.
  do 4 (split; [reflexivity|]).
  exact (negative_income_negative_coverage ref_pow ref_toString ref_toLocaleString
           ref_toFixed (profile 35 (-50000) 2 medium) [] eq_refl eq_refl eq_refl eq_refl).
Defined.

(** ** The explanation *)

Section Explanation.

Variable host_pow : number -> number -> number.
Variables Number_toString toLocaleString : number -> string.
Variable toFixed : number -> number -> string.

Local Abbreviation run p l :=
  (result (calculateRecommendation host_pow Number_toString toLocaleString toFixed p) l).

Local Open Scope string_scope.

Lemma ltb_trans_const (x y z : number) :
  ltb x y = true -> ltb y z = true -> ltb x z = true.
Proof.
  unfold ltb, SFltb. intros H1 H2.
  destruct (SFcompare x y) as [[ | | ]|] eqn:E1; try discriminate.
  destruct (SFcompare y z) as [[ | | ]|] eqn:E2; try discriminate.
  rewrite (SFcompare_lt_le_trans x y z E1 (or_introl E2)). reflexivity.
Qed.

(** X17. The explanation is six sentences joined by single spaces, about
    the age, the income, the dependents, the risk tolerance, the policy type
    and the coverage, and it quotes the numbers of the very recommendation it
    comes with. The age sentence and the term agree band by band: the
    prime-age wording always recommends 30 years, the working-years wording
    20 or 15, the retirement wording 15 or 10. The income sentence quotes
    the reported income multiplier, the dependents sentence the percentage
    behind the reported dependents factor, with the singular exactly for one
    dependent, the risk sentence is the one of the profile's risk tolerance,
    the policy sentence is the one of the recommended type, and the last
    sentence quotes the recommended coverage. *)
Theorem explanation_consistent (p : UserProfile) (l : Log) :
  exists opening family risk policy : string,
    explanation (run p l)
    = join " "
        [ opening;
          "Based on your annual income of $" ++ toLocaleString (income p) ++ ", " ++
          "we applied a " ++ Number_toString (incomeMultiplier (factors (run p l))) ++
          "x multiplier. This ensures your loved ones " ++
          "can maintain their current lifestyle and meet long-term financial obligations.";
          family; risk; policy;
          "The recommended coverage of $" ++
          toLocaleString (coverage (recommendation (run p l))) ++
          " represents a careful balance " ++
          "of your income replacement needs, family obligations, and premium affordability." ]
    /\ ((ltb (age p) (ofZ 35) = true
         /\ term (recommendation (run p l)) = ofZ 30
         /\ opening
            = "At " ++ Number_toString (age p) ++
              " years old, you're in a prime age for securing affordable life insurance. " ++
              "We recommend a " ++ Number_toString (term (recommendation (run p l))) ++
              "-year term to provide coverage through your key earning years.")
        \/ (ltb (age p) (ofZ 35) = false /\ ltb (age p) (ofZ 50) = true
            /\ (term (recommendation (run p l)) = ofZ 20
                \/ term (recommendation (run p l)) = ofZ 15)
            /\ opening
               = "At " ++ Number_toString (age p) ++
                 " years old, life insurance is crucial for protecting your family's financial future. " ++
                 "A " ++ Number_toString (term (recommendation (run p l))) ++
                 "-year term aligns well with your remaining working years.")
        \/ (ltb (age p) (ofZ 35) = false /\ ltb (age p) (ofZ 50) = false
            /\ (term (recommendation (run p l)) = ofZ 15
                \/ term (recommendation (run p l)) = ofZ 10)
            /\ opening
               = "At " ++ Number_toString (age p) ++ " years old, a " ++
                 Number_toString (term (recommendation (run p l))) ++
                 "-year term provides essential coverage " ++
                 "while keeping premiums manageable as you approach retirement."))
    /\ ((gtb (dependents p) (ofZ 0) = false
         /\ family
            = "While you have no dependents, life insurance can still cover final expenses, " ++
              "outstanding debts, and provide for any future family plans.")
        \/ (gtb (dependents p) (ofZ 0) = true
            /\ family
               = "With " ++ Number_toString (dependents p) ++ " " ++
                 (if eqb (dependents p) (ofZ 1) then "dependent" else "dependents") ++
                 ", we've increased your coverage by " ++
                 toFixed (mul (sub (dependentsFactor (factors (run p l))) (ofZ 1)) (ofZ 100))
                         (ofZ 0) ++
                 "% to account for education costs, " ++
                 "childcare, and other family expenses."))
    /\ ((riskTolerance p = low
         /\ risk
            = "Your conservative risk preference indicates a focus on maximum protection. " ++
              "We've adjusted your coverage upward to provide additional security.")
        \/ (riskTolerance p = medium
            /\ risk
               = "Your balanced risk tolerance allows for a standard coverage approach " ++
                 "that provides solid protection without over-insuring.")
        \/ (riskTolerance p = high
            /\ risk
               = "Your higher risk tolerance suggests you may have other investments in place. " ++
                 "We've recommended efficient coverage that complements your overall financial strategy."))
    /\ ((type (recommendation (run p l)) = "Whole Life"
         /\ policy
            = "Given your income level and conservative approach, whole life insurance provides " ++
              "permanent coverage with a cash value component that grows tax-deferred over time.")
        \/ (type (recommendation (run p l)) = "Universal Life"
            /\ policy
               = "Universal life insurance offers flexibility in premiums and death benefits, " ++
                 "along with a cash value component that can supplement your retirement planning.")
        \/ (type (recommendation (run p l)) = "Term Life"
            /\ policy
               = "Term life insurance provides the most affordable way to secure maximum coverage " ++
                 "during your working years when your family needs it most.")).
Proof.
  change (explanation (run p l))
    with (generateExplanation Number_toString toLocaleString toFixed p
            (coverage (recommendation (run p l))) (term (recommendation (run p l)))
            (type (recommendation (run p l))) (factors (run p l))).
  change (type (recommendation (run p l))) with (determineInsuranceType p).
  change (term (recommendation (run p l))) with (determineTerm (age p)).
  set (c := coverage (recommendation (run p l))).
  set (f := factors (run p l)).
  unfold generateExplanation, push. cbn [app].
  assert (H4550 : ltb (age p) (ofZ 45) = true -> ltb (age p) (ofZ 50) = true)
    by (intros H; apply (ltb_trans_const _ _ _ H); reflexivity).
  assert (H5055 : ltb (age p) (ofZ 50) = true -> ltb (age p) (ofZ 55) = true)
    by (intros H; apply (ltb_trans_const _ _ _ H); reflexivity).
  assert (H3545 : ltb (age p) (ofZ 35) = true -> ltb (age p) (ofZ 45) = true)
    by (intros H; apply (ltb_trans_const _ _ _ H); reflexivity).
  unfold determineTerm.
  destruct (ltb (age p) (ofZ 35)) eqn:A35;
    destruct (ltb (age p) (ofZ 50)) eqn:A50;
    destruct (ltb (age p) (ofZ 45)) eqn:A45;
    destruct (ltb (age p) (ofZ 55)) eqn:A55;
    try (specialize (H4550 eq_refl); discriminate);
    try (specialize (H5055 eq_refl); discriminate);
    try (specialize (H3545 eq_refl); discriminate);
    clear H4550 H5055 H3545;
    (destruct (gtb (dependents p) (ofZ 0)) eqn:D0;
     unfold determineInsuranceType;
     (destruct (_ && _); [|destruct (_ && _)]);
     cbn [String.eqb Ascii.eqb Bool.eqb]; cbv iota;
     eexists _, _, _, _;
     (split; [reflexivity|split; [auto 10|split; [auto|split; [|auto 10]]]]);
     destruct (riskTolerance p); auto 10).
Qed.

End Explanation.

(** ** Pricing *)

Section Pricing.

Variable host_pow : number -> number -> number.

Local Abbreviation power a := (Math_pow host_pow (decimal 1045 1000) (sub a (ofZ 25))).

(** X18. Premium pricing is monotone through all its roundings: at a given
    risk tolerance, a coverage that is not smaller, priced with an age
    factor, a term factor and a type factor that are not smaller, never
    gives a smaller monthly premium. The age factors are the host's powers
    and must be positive finite Numbers. *)
Theorem premium_monotone_in_factors
    (a a' c c' t t' : number) (ty ty' : string) (r : RiskTolerance) :
  proper c = true -> proper c' = true -> leb c c' = true ->
  pos_finite (power a) = true -> is_number (power a) = true ->
  pos_finite (power a') = true -> is_number (power a') = true ->
  leb (power a) (power a') = true ->
  leb (termFactor (getPremiumFactors host_pow a t ty))
      (termFactor (getPremiumFactors host_pow a' t' ty')) = true ->
  leb (typeFactor (getPremiumFactors host_pow a t ty))
      (typeFactor (getPremiumFactors host_pow a' t' ty')) = true ->
  leb (calculatePremium host_pow a c t ty r) (calculatePremium host_pow a' c' t' ty' r)
  = true.
Proof.
  intros Hc Hc' Lc Pa Na Pa' Na' La Lt Ly.
  pose proof (proper_of_pos_finite _ Pa Na) as Ha.
  pose proof (proper_of_pos_finite _ Pa' Na') as Ha'.
  apply leb_of_ord_le; try (apply calculatePremium_proper; assumption).
  apply calculatePremium_mono; try assumption.
  - apply ord_le_of_leb; assumption.
  - apply ord_le_of_leb; assumption.
  - apply ord_le_of_leb; auto using termFactor_proper.
  - apply ord_le_of_leb; auto using typeFactor_proper.
Qed.

End Pricing.

(** X18 from a 30-year Term Life policy of 100000 at age 35 to a 10-year
    Whole Life policy of 200000 at age 45, with the reference host. *)
Lemma premium_monotone_in_factors_witness :
  proper (ofZ 100000) = true /\ proper (ofZ 200000) = true
  /\ leb (ofZ 100000) (ofZ 200000) = true
  /\ pos_finite (Math_pow ref_pow (decimal 1045 1000) (sub (ofZ 35) (ofZ 25))) = true
  /\ is_number (Math_pow ref_pow (decimal 1045 1000) (sub (ofZ 35) (ofZ 25))) = true
  /\ pos_finite (Math_pow ref_pow (decimal 1045 1000) (sub (ofZ 45) (ofZ 25))) = true
  /\ is_number (Math_pow ref_pow (decimal 1045 1000) (sub (ofZ 45) (ofZ 25))) = true
  /\ leb (Math_pow ref_pow (decimal 1045 1000) (sub (ofZ 35) (ofZ 25)))
         (Math_pow ref_pow (decimal 1045 1000) (sub (ofZ 45) (ofZ 25))) = true
  /\ leb (termFactor (getPremiumFactors ref_pow (ofZ 35) (ofZ 30) "Term Life"))
         (termFactor (getPremiumFactors ref_pow (ofZ 45) (ofZ 10) "Whole Life")) = true
  /\ leb (typeFactor (getPremiumFactors ref_pow (ofZ 35) (ofZ 30) "Term Life"))
         (typeFactor (getPremiumFactors ref_pow (ofZ 45) (ofZ 10) "Whole Life")) = true
  /\ leb (calculatePremium ref_pow (ofZ 35) (ofZ 100000) (ofZ 30) "Term Life" medium)
         (calculatePremium ref_pow (ofZ 45) (ofZ 200000) (ofZ 10) "Whole Life" medium)
     = true.
Proof.
  do 10 (split; [reflexivity|]).
  exact (premium_monotone_in_factors ref_pow (ofZ 35) (ofZ 45) (ofZ 100000) (ofZ 200000)
           (ofZ 30) (ofZ 10) "Term Life" "Whole Life" medium
           eq_refl eq_refl eq_refl eq_refl eq_refl eq_refl eq_refl eq_refl eq_refl eq_refl).
Defined.
